(** * The investment game backend: room coordinator, payout calculator, event broker

    A shallow embedding of [backend/app] (services, models, schemas and the
    rooms router) together with the properties stated for it.

    Part I holds the definitions, in the order of the source files:
    - [PyFloat]      the float arithmetic [calculate_payouts] relies on
                     (binary64, round-to-nearest-even, Python's [round(x, 2)]);
    - [Room], [Player] and the schema records ([schemas/game.py], [models/game.py]);
    - [DB], [Proc]   the two tables, and a call as the sequence of statements
                     it sends to them;
    - [GameService]  [services/game_service.py];
    - [rooms_router] the request handlers of [api/routers/rooms.py];
    - [Pool]         requests in flight, their statements interleaved;
    - [RoomEventBroker] [services/events.py].

    Part II holds the lemmas and theorems. *)

From Stdlib Require Import ZArith QArith Qpower Qabs Lia Lqa.
From Stdlib Require Import Floats.SpecFloat.
From stdpp Require Import gmap strings list fin_maps sorting.

Local Open Scope Z_scope.

(* ===================================================================== *)
(** * Part I: definitions                                                  *)
(* ===================================================================== *)

(** ** Exceptions and results *)

(** The exceptions the embedded code can raise.  [HTTPException] carries the
    status code and the detail string the source passes to it. *)
Inductive exn : Type :=
| HTTPException (status_code : Z) (detail : string)
| RequestValidationError          (* a pydantic [Field] bound is violated: HTTP 422 *)
| IntegrityError                  (* a primary key or CHECK constraint rejects a commit *)
| StaleDataError                  (* an UPDATE of a flush matches no row *)
| InvalidRequestError             (* [refresh] finds no row for its object *)
| OverflowError                   (* int too large for a float, or for an Integer column *)
| ZeroDivisionError
| StopIteration
| RandomExhausted.                (* the supplied random draws contain no fresh room code *)

Inductive result (A : Type) : Type :=
| Ok (a : A)
| Raise (e : exn).
Arguments Ok {A} a.
Arguments Raise {A} e.

Definition HTTP_400_BAD_REQUEST : Z := 400.
Definition HTTP_404_NOT_FOUND : Z := 404.
Definition HTTP_422_UNPROCESSABLE_ENTITY : Z := 422.

Definition result_bind {A B : Type} (r : result A) (k : A → result B) : result B :=
  match r with
  | Ok a => k a
  | Raise e => Raise e
  end.

Notation "'try!' x ':=' r 'in' k" := (result_bind r (λ x, k))
  (at level 10, x name, r at level 100, k at level 200).

(** ** Python floats *)

Module PyFloat.

(** A Python float is an IEEE 754 binary64 value; the representation is the
    one of the standard library's [spec_float]: a finite non-zero value is
    [(-1)^s * m * 2^e] with [m] on 53 bits, or fewer when [e = emin]. *)
Definition float : Type := spec_float.

Definition prec : Z := 53.
Definition emax : Z := 1024.
Definition emin : Z := -1074.

(** [a / b] rounded to the nearest integer, ties to the even one ([0 < b]). *)
Definition rhe_div (a b : Z) : Z :=
  let q := a / b in
  match (2 * (a mod b)) ?= b with
  | Lt => q
  | Gt => q + 1
  | Eq => if Z.even q then q else q + 1
  end.

(** The [d] with [2^d <= num / den < 2^(d+1)], for positive [num] and [den]. *)
Definition binade (num den : Z) : Z :=
  let d := Z.log2 num - Z.log2 den in
  if (if 0 <=? d then den * 2 ^ d <=? num else den <=? num * 2 ^ (- d))
  then d else d - 1.

(** [num / (den * 2^e)] rounded to the nearest integer, ties to even. *)
Definition scaled_quot (num den e : Z) : Z :=
  if 0 <=? e then rhe_div num (den * 2 ^ e) else rhe_div (num * 2 ^ (- e)) den.

(** The binary64 value nearest to [(-1)^s * num / den] (ties to even), for
    positive [num] and [den]: what every IEEE operation returns for its
    exact result.  Overflow gives an infinity, underflow a zero. *)
Definition round_ne (s : bool) (num den : Z) : float :=
  let e := Z.max (binade num den - (prec - 1)) emin in
  let m := scaled_quot num den e in
  let '(m, e) := if m =? 2 ^ prec then (2 ^ (prec - 1), e + 1) else (m, e) in
  match m with
  | Zpos p => if e <=? emax - prec then S754_finite s p e else S754_infinity s
  | _ => S754_zero s
  end.

(** The exact value [num / den] of a finite magnitude [m * 2^e]. *)
Definition mag_num (m : positive) (e : Z) : Z := if 0 <=? e then Zpos m * 2 ^ e else Zpos m.
Definition mag_den (e : Z) : Z := if 0 <=? e then 1 else 2 ^ (- e).

(** [float(z)] for a Python int: correctly rounded, [OverflowError] when
    the rounded value is not finite. *)
Definition of_int (z : Z) : result float :=
  match z with
  | Z0 => Ok (S754_zero false)
  | _ =>
      match round_ne (z <? 0) (Z.abs z) 1 with
      | S754_finite s m e => Ok (S754_finite s m e)
      | _ => Raise OverflowError
      end
  end.

(** [x * y] on floats. *)
Definition mul (x y : float) : float :=
  match x, y with
  | S754_nan, _ | _, S754_nan => S754_nan
  | S754_infinity _, S754_zero _ | S754_zero _, S754_infinity _ => S754_nan
  | S754_infinity sx, S754_infinity sy
  | S754_infinity sx, S754_finite sy _ _
  | S754_finite sx _ _, S754_infinity sy => S754_infinity (xorb sx sy)
  | S754_finite sx _ _, S754_zero sy
  | S754_zero sx, S754_finite sy _ _
  | S754_zero sx, S754_zero sy => S754_zero (xorb sx sy)
  | S754_finite sx mx ex, S754_finite sy my ey =>
      round_ne (xorb sx sy) (mag_num (mx * my) (ex + ey)) (mag_den (ex + ey))
  end.

(** [x + y] on floats. *)
Definition add (x y : float) : float :=
  match x, y with
  | S754_nan, _ | _, S754_nan => S754_nan
  | S754_infinity sx, S754_infinity sy => if eqb sx sy then x else S754_nan
  | S754_infinity _, _ => x
  | _, S754_infinity _ => y
  | S754_zero sx, S754_zero sy => if eqb sx sy then x else S754_zero false
  | S754_zero _, _ => y
  | _, S754_zero _ => x
  | S754_finite sx mx ex, S754_finite sy my ey =>
      let e := Z.min ex ey in
      let signed (s : bool) (m : positive) (e' : Z) : Z :=
        (if s then -1 else 1) * (Zpos m * 2 ^ (e' - e)) in
      let sum := signed sx mx ex + signed sy my ey in
      match sum with
      | Z0 => S754_zero false
      | _ => round_ne (sum <? 0)
               (if 0 <=? e then Z.abs sum * 2 ^ e else Z.abs sum) (mag_den e)
      end
  end.

(** [x / y] on floats; Python raises for a zero divisor. *)
Definition truediv (x y : float) : result float :=
  match x, y with
  | _, S754_zero _ => Raise ZeroDivisionError
  | S754_nan, _ | _, S754_nan => Ok S754_nan
  | S754_infinity _, S754_infinity _ => Ok S754_nan
  | S754_infinity sx, S754_finite sy _ _ => Ok (S754_infinity (xorb sx sy))
  | S754_finite sx _ _, S754_infinity sy
  | S754_zero sx, S754_infinity sy
  | S754_zero sx, S754_finite sy _ _ => Ok (S754_zero (xorb sx sy))
  | S754_finite sx mx ex, S754_finite sy my ey =>
      Ok (round_ne (xorb sx sy)
            (mag_num mx ex * mag_den ey) (mag_den ex * mag_num my ey))
  end.

(** [round(x, 2)]: the exact value of [x] is rounded to two decimals, ties
    to the even hundredth, and the decimal obtained is converted back to
    the nearest float.  Zeros, infinities and NaN are returned as they are. *)
Definition round2 (x : float) : float :=
  match x with
  | S754_finite s m e =>
      let cents := rhe_div (100 * mag_num m e) (mag_den e) in
      match cents with
      | Z0 => S754_zero s
      | _ => round_ne s cents 100
      end
  | _ => x
  end.

(** The literal [1.5]. *)
Definition f1_5 : float := S754_finite false (3 * 2 ^ 51) (-52).

(** Mixed int/float arithmetic converts the int operand first. *)
Definition int_mul_float (z : Z) (y : float) : result float :=
  try! x := of_int z in Ok (mul x y).
Definition int_add_float (z : Z) (y : float) : result float :=
  try! x := of_int z in Ok (add x y).
Definition float_div_int (x : float) (z : Z) : result float :=
  try! y := of_int z in truediv x y.

(** The exact value of a float, as a rational (0 for the non-finite ones). *)
Definition to_Q (x : float) : Q :=
  match x with
  | S754_finite s m e =>
      let v := Qmake (mag_num m e) (Z.to_pos (mag_den e)) in
      if s then Qopp v else v
  | _ => 0%Q
  end.

Definition is_finite (x : float) : bool :=
  match x with
  | S754_finite _ _ _ | S754_zero _ => true
  | _ => false
  end.

(** A zero or a finite value with the sign bit clear. *)
Definition nonneg_finite (x : float) : Prop :=
  match x with
  | S754_zero false | S754_finite false _ _ => True
  | _ => False
  end.

End PyFloat.

(** ** Records of [models/game.py] and [schemas/game.py] *)

Inductive Status : Type := STATUS_WAITING | STATUS_READY | STATUS_COMPLETED.

#[global] Instance Status_eq_dec : EqDecision Status.
Proof. solve_decision. Defined.

(** A row of the [rooms] table ([created_at] is never read by the service
    and is left out). *)
Module Room.
Record t : Type := mk {
  code : string;
  max_players : Z;
  status : Status;
}.
Definition with_status (room : t) (s : Status) : t :=
  mk (code room) (max_players room) s.
End Room.

(** A row of the [players] table; timestamps are integers. *)
Module Player.
Record t : Type := mk {
  id : string;
  room_code : string;
  display_name : string;
  allocation_a : option Z;
  allocation_b : option Z;
  payout : option PyFloat.float;
  submitted_at : option Z;
  joined_at : Z;
}.
Definition with_allocation (p : t) (a b : Z) (now : Z) : t :=
  mk (id p) (room_code p) (display_name p) (Some a) (Some b) (payout p) (Some now) (joined_at p).
Definition with_payout (p : t) (v : PyFloat.float) : t :=
  mk (id p) (room_code p) (display_name p) (allocation_a p) (allocation_b p) (Some v)
     (submitted_at p) (joined_at p).
End Player.

Module RoomCreate.
Record t : Type := mk { max_players : Z }.
End RoomCreate.

Module PlayerCreate.
Record t : Type := mk { display_name : string }.
End PlayerCreate.

Module SubmitAllocation.
Record t : Type := mk { player_id : string; asset_a : Z; asset_b : Z }.
End SubmitAllocation.

Module PlayerRead.
Record t : Type := mk {
  id : string;
  display_name : string;
  submitted : bool;
  allocation_a : option Z;
  allocation_b : option Z;
  payout : option PyFloat.float;
}.
End PlayerRead.

Module PlayerPayout.
Record t : Type := mk {
  player_id : string;
  display_name : string;
  payout : PyFloat.float;
}.
End PlayerPayout.

Module GameResult.
Record t : Type := mk {
  total_b_pool : PyFloat.float;
  boosted_pool : PyFloat.float;
  players : list PlayerPayout.t;
}.
End GameResult.

(** [RoomEvent]: the [type] tag together with the payload the router builds for it. *)
Inductive RoomEvent : Type :=
| player_joined (room_code : string) (player : PlayerRead.t)
| player_submitted (room_code : string) (player : PlayerRead.t)
| player_left (room_code : string) (player_id : string) (status : Status)
| results_ready (room_code : string) (payload : GameResult.t).

(** ** The payout calculator: [GameService.calculate_payouts] *)

(** [x or 0] for an optional int. *)
Definition or_0 (x : option Z) : Z :=
  match x with
  | Some v => v
  | None => 0
  end.

(** [sum(int(p.allocation_b or 0) for p in players)] *)
Definition sum_allocation_b (players : list Player.t) : Z :=
  fold_left (λ acc p, acc + or_0 (Player.allocation_b p)) players 0.

(** [any(p.allocation_a is None or p.allocation_b is None for p in players)] *)
Definition missing_allocation (p : Player.t) : bool :=
  match Player.allocation_a p, Player.allocation_b p with
  | Some _, Some _ => false
  | _, _ => true
  end.

(** The [for player in players] loop, appending to [payouts]. *)
Fixpoint payout_loop (share : PyFloat.float) (players : list Player.t)
    (payouts : list PlayerPayout.t) : result (list PlayerPayout.t) :=
  match players with
  | [] => Ok payouts
  | player :: rest =>
      try! sum := PyFloat.int_add_float (or_0 (Player.allocation_a player)) share in
      let total := PyFloat.round2 sum in
      payout_loop share rest
        (payouts ++ [PlayerPayout.mk (Player.id player) (Player.display_name player) total])
  end.

Definition calculate_payouts (players : list Player.t) : result GameResult.t :=
  match players with
  | [] => Raise (HTTPException HTTP_400_BAD_REQUEST "No players to settle")
  | _ =>
      if existsb missing_allocation players
      then Raise (HTTPException HTTP_400_BAD_REQUEST "Missing allocations")
      else
        let total_b := sum_allocation_b players in
        try! scaled := PyFloat.int_mul_float total_b PyFloat.f1_5 in
        let boosted_pool := PyFloat.round2 scaled in
        try! share := PyFloat.float_div_int boosted_pool (Z.of_nat (length players)) in
        try! payouts := payout_loop share players [] in
        try! total_b_pool := PyFloat.of_int total_b in
        Ok (GameResult.mk total_b_pool boosted_pool payouts)
  end.

(** The int-to-float conversion of [z] does not overflow. *)
Definition converts (z : Z) : Prop := ∃ f, PyFloat.of_int z = Ok f.

(** The pool as the specification words it: the sum of [allocation_b] over
    the players. *)
Definition spec_total_b (players : list Player.t) : Z :=
  foldr Z.add 0 ((λ p, default 0 (Player.allocation_b p)) <$> players).

(** The sum of [allocation_a] over the players. *)
Definition spec_total_a (players : list Player.t) : Z :=
  foldr Z.add 0 ((λ p, default 0 (Player.allocation_a p)) <$> players).

(** The exact sum of the payouts of the records. *)
Definition payout_sum (payouts : list PlayerPayout.t) : Q :=
  foldr Qplus 0%Q ((λ r, PyFloat.to_Q (PlayerPayout.payout r)) <$> payouts).

(** Both allocations are set, neither is negative, and they sum to 100:
    what [SubmitAllocation] of [schemas/game.py] lets through. *)
Definition splits_100 (p : Player.t) : Prop :=
  ∃ a b, Player.allocation_a p = Some a ∧ Player.allocation_b p = Some b ∧
         0 ≤ a ∧ 0 ≤ b ∧ a + b = 100.

(** [sys.maxsize] on a 64-bit build: the longest list there is. *)
Definition sys_maxsize : Z := 2 ^ 63 - 1.

(** The values an [Integer] column holds. *)
Definition int64 (z : Z) : Prop := - 2 ^ 63 ≤ z < 2 ^ 63.

(** What one payout may differ by from [allocation_a + boosted_pool / count]:
    half a cent for [round(_, 2)] and [2^-40] for the float operations. *)
Definition rounding_tolerance : Q := (1 # 200) + (1 # 2 ^ 40).


(** ** The store: the [rooms] and [players] tables *)

(** Each table is a finite map from its primary key to the row.
    [arrivals] lists the primary keys of [players] by rowid, that is in
    the order the rows were inserted: SQLite gives a new row the highest
    rowid, and returns rows that tie on the ORDER BY column in rowid
    order. *)
Record DB : Type := mkDB {
  rooms : gmap string Room.t;
  players : gmap string Player.t;
  arrivals : list string;
}.

Definition empty_db : DB := mkDB ∅ ∅ [].

(** One statement against the store: a SELECT, or the flush and COMMIT of
    what a session holds.  It yields its outcome and the committed state
    it leaves; a statement that raises leaves the state it found. *)
Definition Svc (A : Type) : Type := DB → result A * DB.

(** The rows of the [players] table, and the conditions of the queries. *)
Definition rows (t : gmap string Player.t) : list Player.t := (map_to_list t).*2.

Definition in_room (code : string) (p : Player.t) : bool :=
  bool_decide (Player.room_code p = code).

Definition has_submitted (p : Player.t) : bool :=
  match Player.submitted_at p with
  | Some _ => true
  | None => false
  end.

(** [select(func.count()).select_from(Player).where(...)] *)
Definition count_where (P : Player.t → bool) (t : gmap string Player.t) : Z :=
  Z.of_nat (length (filter (λ p, P p = true) (rows t))).

(** The rows of [players] in rowid order. *)
Definition rows_by_rowid (db : DB) : list Player.t :=
  omap (λ id, players db !! id) (arrivals db).

(** [ORDER BY joined_at]: a row goes before the first row that joined
    later, so rows with equal [joined_at] stay in the order they are read. *)
Fixpoint insert_by_joined_at (p : Player.t) (sorted : list Player.t) : list Player.t :=
  match sorted with
  | [] => [p]
  | q :: later =>
      if decide (Player.joined_at p ≤ Player.joined_at q)
      then p :: sorted
      else q :: insert_by_joined_at p later
  end.

Definition order_by_joined_at (l : list Player.t) : list Player.t :=
  foldr insert_by_joined_at [] l.

(** [select(Player).where(Player.room_code == code).order_by(Player.joined_at)] *)
Definition select_players (code : string) (db : DB) : list Player.t :=
  order_by_joined_at (filter (λ p, in_room code p = true) (rows_by_rowid db)).

(** An [Integer] column takes 64 bits: a larger Python int cannot be bound
    to the statement, which raises OverflowError. *)
Definition fits_integer (z : Z) : bool := (- 2 ^ 63 <=? z) && (z <? 2 ^ 63).

(** ** Calls as sequences of statements *)

(** A call of the service reaches the database one statement at a time.
    What the call keeps between two statements (its local variables, the
    objects of its session) is in the continuation: the session is made
    with [expire_on_commit=False], so an object keeps the values it was
    loaded with until the call refreshes it. *)
Inductive Proc (A : Type) : Type :=
| Done (a : A)                                   (* return a *)
| Fail (e : exn)                                 (* raise e *)
| Stmt {B : Type} (stmt : Svc B) (k : B → Proc A).
Arguments Done {A} a.
Arguments Fail {A} e.
Arguments Stmt {A B} stmt k.

Notation "'let!' x ':=' s 'in' k" := (Stmt s (λ x, k))
  (at level 10, x name, s at level 100, k at level 200).
Notation "'run!' s 'in' k" := (Stmt s (λ _, k))
  (at level 10, s at level 100, k at level 200).

(** A call made inside a call: the statements of [p], then those of [k]. *)
Fixpoint then_ {A B : Type} (p : Proc A) (k : A → Proc B) : Proc B :=
  match p with
  | Done a => k a
  | Fail e => Fail e
  | Stmt stmt k' => Stmt stmt (λ b, then_ (k' b) k)
  end.

Notation "'call!' x ':=' p 'in' k" := (then_ p (λ x, k))
  (at level 10, x name, p at level 100, k at level 200).

(** The call executed alone, from its first statement to its last, no
    other call in between.  An exception ends it; what earlier statements
    committed stays. *)
Fixpoint run {A : Type} (p : Proc A) (db : DB) : result A * DB :=
  match p with
  | Done a => (Ok a, db)
  | Fail e => (Raise e, db)
  | Stmt stmt k =>
      match stmt db with
      | (Ok b, db') => run (k b) db'
      | (Raise e, db') => (Raise e, db')
      end
  end.

(** A call applied to a store, [f args db], stands for [run (f args) db]. *)
Coercion run : Proc >-> Funclass.

(** ** The service: [services/game_service.py] *)

Definition ascii_uppercase : string := "ABCDEFGHIJKLMNOPQRSTUVWXYZ".
Definition digits : string := "0123456789".

(** [random.choice(seq)], given the index that the generator draws below
    [len(seq)]; there is no character at an index out of range. *)
Definition choice (seq : string) (index : nat) : option Ascii.ascii := String.get index seq.

(** ["".join(random.choice(alphabet) for _ in ...)] over the indices drawn. *)
Fixpoint join_choices (alphabet : string) (indices : list nat) : option string :=
  match indices with
  | [] => Some EmptyString
  | index :: later =>
      match choice alphabet index, join_choices alphabet later with
      | Some c, Some code => Some (String c code)
      | _, _ => None
      end
  end.

(** [randbelow i] is the index drawn for position [i]. *)
Definition _generate_room_code (length : nat) (randbelow : nat → nat) : option string :=
  let alphabet := ascii_uppercase +:+ digits in
  join_choices alphabet (randbelow <$> seq 0 length).

(** An upper-case letter or a digit. *)
Definition code_character (c : Ascii.ascii) : Prop :=
  (65 ≤ Ascii.nat_of_ascii c ≤ 90)%nat ∨ (48 ≤ Ascii.nat_of_ascii c ≤ 57)%nat.

Module GameService.

(** *** The statements *)

(** [self.db.get(Room, code)] and [self.db.get(Player, player_id)] *)
Definition db_get_room (code : string) : Svc (option Room.t) :=
  λ db, (Ok (rooms db !! code), db).
Definition db_get_player (player_id : string) : Svc (option Player.t) :=
  λ db, (Ok (players db !! player_id), db).

(** [self.db.add(room); self.db.commit()] for a new room: an INSERT under
    the primary key and the CHECK constraint [room_player_bounds]. *)
Definition db_insert_room (room : Room.t) : Svc unit :=
  λ db,
    if negb (fits_integer (Room.max_players room)) then (Raise OverflowError, db)
    else
      match rooms db !! Room.code room with
      | Some _ => (Raise IntegrityError, db)
      | None =>
          if (2 <=? Room.max_players room) && (Room.max_players room <=? 4)
          then (Ok (), mkDB (<[Room.code room := room]> (rooms db)) (players db) (arrivals db))
          else (Raise IntegrityError, db)
      end.

(** [self.db.add(player); self.db.commit()] for a new player: an INSERT
    under the primary key; the row takes the next rowid. *)
Definition db_insert_player (player : Player.t) : Svc unit :=
  λ db,
    match players db !! Player.id player with
    | Some _ => (Raise IntegrityError, db)
    | None =>
        (Ok (), mkDB (rooms db) (<[Player.id player := player]> (players db))
                  (arrivals db ++ [Player.id player]))
    end.

(** [self.db.refresh(obj)]: the row of the object is read again. *)
Definition db_refresh_room (room : Room.t) : Svc Room.t :=
  λ db,
    match rooms db !! Room.code room with
    | Some row => (Ok row, db)
    | None => (Raise InvalidRequestError, db)
    end.
Definition db_refresh_player (player : Player.t) : Svc Player.t :=
  λ db,
    match players db !! Player.id player with
    | Some row => (Ok row, db)
    | None => (Raise InvalidRequestError, db)
    end.

(** [room.status = status; self.db.add(room); self.db.commit()] for the
    [room] the session loaded.  The flush sends an UPDATE of the column
    when the new value differs from the loaded one, and nothing otherwise;
    an UPDATE that matches no row raises StaleDataError. *)
Definition db_commit_status (room : Room.t) (status : Status) : Svc unit :=
  λ db,
    if decide (Room.status room = status) then (Ok (), db)
    else
      match rooms db !! Room.code room with
      | None => (Raise StaleDataError, db)
      | Some row =>
          (Ok (), mkDB (<[Room.code room := Room.with_status row status]> (rooms db))
                    (players db) (arrivals db))
      end.

(** What an UPDATE leaves in a column: the new value when it differs from
    the one the session loaded, and what the row holds otherwise. *)
Definition changed {A : Type} `{EqDecision A} (loaded new column : A) : A :=
  if decide (loaded = new) then column else new.

(** [player.allocation_a = asset_a; player.allocation_b = asset_b;
    player.submitted_at = now; self.db.add(player); self.db.commit()]
    for the [player] the session loaded: an UPDATE of the changed columns
    under the CHECK constraint [allocation_total], which a NULL passes. *)
Definition db_commit_allocation (player : Player.t) (asset_a asset_b now : Z) : Svc unit :=
  λ db,
    if negb (fits_integer asset_a && fits_integer asset_b) then (Raise OverflowError, db)
    else
      match players db !! Player.id player with
      | None => (Raise StaleDataError, db)
      | Some row =>
          let row' :=
            Player.mk (Player.id row) (Player.room_code row) (Player.display_name row)
              (changed (Player.allocation_a player) (Some asset_a) (Player.allocation_a row))
              (changed (Player.allocation_b player) (Some asset_b) (Player.allocation_b row))
              (Player.payout row)
              (changed (Player.submitted_at player) (Some now) (Player.submitted_at row))
              (Player.joined_at row) in
          if match Player.allocation_a row', Player.allocation_b row' with
             | Some a, Some b => a + b =? 100
             | _, _ => true
             end
          then (Ok (), mkDB (rooms db) (<[Player.id player := row']> (players db)) (arrivals db))
          else (Raise IntegrityError, db)
      end.

(** [self.db.delete(player); self.db.commit()]: a DELETE; when the row is
    gone already the flush only warns. *)
Definition db_delete_player (player : Player.t) : Svc unit :=
  λ db,
    (Ok (), mkDB (rooms db) (delete (Player.id player) (players db))
              (filter (λ id, id ≠ Player.id player) (arrivals db))).

(** The two counts, and the SELECT of the players of a room. *)
Definition db_count_players (code : string) : Svc Z :=
  λ db, (Ok (count_where (in_room code) (players db)), db).
Definition db_count_submitted (code : string) : Svc Z :=
  λ db, (Ok (count_where (λ p, in_room code p && has_submitted p) (players db)), db).
Definition db_select_players (code : string) : Svc (list Player.t) :=
  λ db, (Ok (select_players code db), db).

#[global] Instance float_eq_dec : EqDecision PyFloat.float.
Proof. solve_decision. Defined.

(** A [payout] column is [Numeric(10, 2)]: it is loaded as the Decimal of
    the stored number at two places, which equals the float that was
    stored exactly when that float is a whole number of cents. *)
Definition whole_cents (v : PyFloat.float) : bool :=
  match v with
  | S754_finite _ m e => (100 * PyFloat.mag_num m e) mod PyFloat.mag_den e =? 0
  | S754_zero _ => true
  | _ => false
  end.

(** [player.payout = v] is a change to flush unless the loaded value
    equals [v]. *)
Definition payout_changed (loaded : option PyFloat.float) (v : PyFloat.float) : bool :=
  match loaded with
  | None => true
  | Some w => negb (bool_decide (w = v) && whole_cents v)
  end.

(** The UPDATEs of the players at the commit of [_finalize_room]:
    [loaded] are the objects as the session loaded them, [updated] the
    same objects after the loop has set their payouts.  [None] when an
    UPDATE matches no row. *)
Fixpoint update_payouts (loaded updated : list Player.t) (t : gmap string Player.t)
    : option (gmap string Player.t) :=
  match loaded, updated with
  | before :: loaded', after :: updated' =>
      match Player.payout after with
      | Some v =>
          if payout_changed (Player.payout before) v
          then
            match t !! Player.id after with
            | Some row =>
                update_payouts loaded' updated' (<[Player.id after := Player.with_payout row v]> t)
            | None => None
            end
          else update_payouts loaded' updated' t
      | None => update_payouts loaded' updated' t
      end
  | _, _ => Some t
  end.

(** [room.status = STATUS_COMPLETED; self.db.add(room); self.db.commit()]
    at the end of [_finalize_room]: one transaction for the payouts of the
    players and the status of the room. *)
Definition db_commit_finalize (loaded updated : list Player.t) (room : Room.t) : Svc unit :=
  λ db,
    match update_payouts loaded updated (players db) with
    | None => (Raise StaleDataError, db)
    | Some players' =>
        if decide (Room.status room = STATUS_COMPLETED)
        then (Ok (), mkDB (rooms db) players' (arrivals db))
        else
          match rooms db !! Room.code room with
          | None => (Raise StaleDataError, db)
          | Some row =>
              (Ok (), mkDB (<[Room.code room := Room.with_status row STATUS_COMPLETED]> (rooms db))
                        players' (arrivals db))
          end
    end.

(** *** The methods *)

Definition _count_players (code : string) : Proc Z :=
  let! count := db_count_players code in
  Done count.

(** The [while True] loop of [_unique_room_code], over the codes that
    [_generate_room_code] draws. *)
Fixpoint _unique_room_code (draws : list string) : Proc string :=
  match draws with
  | [] => Fail RandomExhausted
  | code :: later =>
      let! existing := db_get_room code in
      match existing with
      | None => Done code
      | Some _ => _unique_room_code later
      end
  end.

Definition create_room (payload : RoomCreate.t) (draws : list string) : Proc Room.t :=
  call! code := _unique_room_code draws in
  let room := Room.mk code (RoomCreate.max_players payload) STATUS_WAITING in
  run! db_insert_room room in
  let! room := db_refresh_room room in
  Done room.

Definition get_room (code : string) : Proc Room.t :=
  let! room := db_get_room code in
  match room with
  | None => Fail (HTTPException HTTP_404_NOT_FOUND "Room not found")
  | Some room => Done room
  end.

(** [uuid] is the primary key drawn for the new row, [now] the clock of
    the database at the INSERT. *)
Definition join_room (code display_name : string) (uuid : string) (now : Z) : Proc Player.t :=
  call! room := get_room code in
  call! current_players := _count_players code in
  if current_players >=? Room.max_players room
  then Fail (HTTPException HTTP_400_BAD_REQUEST "Room is full")
  else
    let player := Player.mk uuid (Room.code room) display_name None None None None now in
    run! db_insert_player player in
    let! player := db_refresh_player player in
    if current_players + 1 =? Room.max_players room
    then
      run! db_commit_status room STATUS_READY in
      Done player
    else Done player.

Definition _all_players_submitted (room : Room.t) : Proc bool :=
  call! total := _count_players (Room.code room) in
  if (total <? Room.max_players room) || (total <? 2)
  then Done false
  else
    let! submitted := db_count_submitted (Room.code room) in
    Done (submitted =? total).

(** The session keeps one object per primary key: a row whose object it
    holds already comes back from a SELECT as that object, with the values
    the object has in memory. *)
Definition session_object (held : list Player.t) (row : Player.t) : Player.t :=
  default row (find (λ q, bool_decide (Player.id q = Player.id row)) held).

(** [player = next(p for p in players if p.id == payout.player_id);
    player.payout = payout.payout] *)
Fixpoint set_payout (players : list Player.t) (payout : PlayerPayout.t)
    : result (list Player.t) :=
  match players with
  | [] => Raise StopIteration
  | p :: later =>
      if bool_decide (Player.id p = PlayerPayout.player_id payout)
      then Ok (Player.with_payout p (PlayerPayout.payout payout) :: later)
      else
        try! later' := set_payout later payout in
        Ok (p :: later')
  end.

(** The loop of [_finalize_room] over [result.players]. *)
Fixpoint set_payouts (players : list Player.t) (payouts : list PlayerPayout.t)
    : result (list Player.t) :=
  match payouts with
  | [] => Ok players
  | payout :: later =>
      try! players' := set_payout players payout in
      set_payouts players' later
  end.

(** [held] are the Player objects in the session of the caller.  The
    objects [players] are returned with the result: the caller may hold
    one of them. *)
Definition _finalize_room (held : list Player.t) (room : Room.t)
    : Proc (GameResult.t * list Player.t) :=
  let! fetched := db_select_players (Room.code room) in
  let players := session_object held <$> fetched in
  match calculate_payouts players with
  | Raise e => Fail e
  | Ok result =>
      match set_payouts players (GameResult.players result) with
      | Raise e => Fail e
      | Ok players' =>
          run! db_commit_finalize players players' room in
          Done (result, players')
      end
  end.

Definition submit_allocation (code player_id : string) (asset_a asset_b : Z) (now : Z)
    : Proc (Player.t * option GameResult.t) :=
  if negb (asset_a + asset_b =? 100)
  then Fail (HTTPException HTTP_422_UNPROCESSABLE_ENTITY "A + B must equal 100")
  else
    let! found := db_get_player player_id in
    match found with
    | None => Fail (HTTPException HTTP_404_NOT_FOUND "Player not found")
    | Some player =>
        if negb (bool_decide (Player.room_code player = code))
        then Fail (HTTPException HTTP_404_NOT_FOUND "Player not found")
        else
          call! room := get_room code in
          call! total_players := _count_players code in
          if total_players <? 2
          then Fail (HTTPException HTTP_400_BAD_REQUEST "Need at least two players")
          else
            match Player.submitted_at player with
            | Some _ => Fail (HTTPException HTTP_400_BAD_REQUEST "Allocation already submitted")
            | None =>
                run! db_commit_allocation player asset_a asset_b now in
                let! player := db_refresh_player player in
                call! all_in := _all_players_submitted room in
                if all_in
                then
                  call! settled := _finalize_room [player] room in
                  Done (session_object settled.2 player, Some settled.1)
                else Done (player, None)
            end
    end.

Definition leave_room (code player_id : string) : Proc (Player.t * Room.t) :=
  let! found := db_get_player player_id in
  match found with
  | None => Fail (HTTPException HTTP_404_NOT_FOUND "Player not found")
  | Some player =>
      if negb (bool_decide (Player.room_code player = code))
      then Fail (HTTPException HTTP_404_NOT_FOUND "Player not found")
      else
        call! room := get_room code in
        if bool_decide (Room.status room = STATUS_COMPLETED)
        then Fail (HTTPException HTTP_400_BAD_REQUEST "Game already completed")
        else
          run! db_delete_player player in
          call! remaining := _count_players code in
          if (remaining <? Room.max_players room)
             && bool_decide (Room.status room = STATUS_READY)
          then
            run! db_commit_status room STATUS_WAITING in
            Done (player, Room.with_status room STATUS_WAITING)
          else Done (player, room)
  end.

Definition list_players (code : string) : Proc (list Player.t) :=
  call! _ := get_room code in
  let! players := db_select_players code in
  Done players.

End GameService.

(** ** The request handlers: [api/routers/rooms.py] *)

(** [len(s)] for a Python str, the number of its code points.  A [string]
    holds the UTF-8 bytes of the text, in which every code point has one
    byte that is not a continuation byte [10xxxxxx]. *)
Definition is_continuation_byte (c : Ascii.ascii) : bool :=
  let n := Ascii.N_of_ascii c in ((128 <=? n) && (n <? 192))%N.

Fixpoint len (s : string) : Z :=
  match s with
  | EmptyString => 0
  | String c s' => (if is_continuation_byte c then 0 else 1) + len s'
  end.

(** The body of a response. *)
Inductive response : Type :=
| Body_RoomRead (room : Room.t)
| Body_RoomDetail (room : Room.t) (players : list PlayerRead.t)
| Body_PlayerRead (player : PlayerRead.t)
| Body_none.

Module rooms_router.

Definition _serialize_player (player : Player.t) : PlayerRead.t :=
  PlayerRead.mk (Player.id player) (Player.display_name player)
    (has_submitted player)
    (Player.allocation_a player) (Player.allocation_b player) (Player.payout player).

(** The [Field] bounds of the request bodies, checked before a handler runs. *)
Definition valid_RoomCreate (payload : RoomCreate.t) : bool :=
  (2 <=? RoomCreate.max_players payload) && (RoomCreate.max_players payload <=? 4).

Definition valid_PlayerCreate (payload : PlayerCreate.t) : bool :=
  let n := len (PlayerCreate.display_name payload) in
  (1 <=? n) && (n <=? 64).

Definition valid_SubmitAllocation (payload : SubmitAllocation.t) : bool :=
  (0 <=? SubmitAllocation.asset_a payload) && (SubmitAllocation.asset_a payload <=? 100)
  && (0 <=? SubmitAllocation.asset_b payload) && (SubmitAllocation.asset_b payload <=? 100).

Definition validated {A : Type} (ok : bool) (handler : Proc A) : Proc A :=
  if ok then handler else Fail RequestValidationError.

(** Each handler returns the body of its response and the events it
    publishes on the broker, in the order of the [broker.publish] calls. *)
Definition create_room (payload : RoomCreate.t) (draws : list string)
    : Proc (response * list RoomEvent) :=
  validated (valid_RoomCreate payload)
    (call! room := GameService.create_room payload draws in
     Done (Body_RoomRead room, [])).

Definition room_detail (code : string) : Proc (response * list RoomEvent) :=
  call! room := GameService.get_room code in
  call! players := GameService.list_players code in
  Done (Body_RoomDetail room (_serialize_player <$> players), []).

Definition join_room (code : string) (payload : PlayerCreate.t) (uuid : string) (now : Z)
    : Proc (response * list RoomEvent) :=
  validated (valid_PlayerCreate payload)
    (call! player := GameService.join_room code (PlayerCreate.display_name payload) uuid now in
     let player_data := _serialize_player player in
     Done (Body_PlayerRead player_data, [player_joined code player_data])).

Definition submit_allocation (code : string) (payload : SubmitAllocation.t) (now : Z)
    : Proc (response * list RoomEvent) :=
  validated (valid_SubmitAllocation payload)
    (call! submitted :=
       GameService.submit_allocation code (SubmitAllocation.player_id payload)
         (SubmitAllocation.asset_a payload) (SubmitAllocation.asset_b payload) now in
     let player_data := _serialize_player submitted.1 in
     Done (Body_PlayerRead player_data,
           player_submitted code player_data ::
           match submitted.2 with
           | Some result => [results_ready code result]
           | None => []
           end)).

Definition leave_room (code player_id : string) : Proc (response * list RoomEvent) :=
  call! left := GameService.leave_room code player_id in
  Done (Body_none, [player_left code (Player.id left.1) (Room.status left.2)]).

End rooms_router.

(** ** Requests in flight *)

(** A request, with the random choices and the clock readings that
    serving it consumes. *)
Inductive request : Type :=
| POST_rooms (payload : RoomCreate.t) (draws : list string)
| GET_room (code : string)
| POST_join (code : string) (payload : PlayerCreate.t) (uuid : string) (now : Z)
| POST_submit (code : string) (payload : SubmitAllocation.t) (now : Z)
| DELETE_player (code player_id : string).

Definition handler (req : request) : Proc (response * list RoomEvent) :=
  match req with
  | POST_rooms payload draws => rooms_router.create_room payload draws
  | GET_room code => rooms_router.room_detail code
  | POST_join code payload uuid now => rooms_router.join_room code payload uuid now
  | POST_submit code payload now => rooms_router.submit_allocation code payload now
  | DELETE_player code player_id => rooms_router.leave_room code player_id
  end.

(** Every handler passes its service call to a worker thread
    ([run_in_threadpool]) and has a session of its own ([get_db]); no lock
    orders two calls.  So the statements of the requests in flight reach
    the database in any interleaving.  Once its call has returned, a
    handler publishes its events without being suspended in between. *)
Inductive Call : Type :=
| Running (rest : Proc (response * list RoomEvent))
| Returned (outcome : result response).

Record Pool : Type := mkPool {
  calls : list Call;              (* the requests, in the order they are numbered *)
  store : DB;                     (* the committed state of the database *)
  published : list RoomEvent;     (* the events passed to [broker.publish] so far *)
}.

(** The request numbered [i] takes a turn: its next statement, or its return. *)
Definition turn (i : nat) (pool : Pool) : Pool :=
  match calls pool !! i with
  | Some (Running (Stmt stmt k)) =>
      match stmt (store pool) with
      | (Ok b, db') => mkPool (<[i := Running (k b)]> (calls pool)) db' (published pool)
      | (Raise e, db') => mkPool (<[i := Running (Fail e)]> (calls pool)) db' (published pool)
      end
  | Some (Running (Done (body, events))) =>
      mkPool (<[i := Returned (Ok body)]> (calls pool)) (store pool) (published pool ++ events)
  | Some (Running (Fail e)) =>
      mkPool (<[i := Returned (Raise e)]> (calls pool)) (store pool) (published pool)
  | _ => pool
  end.

Definition turns (schedule : list nat) (pool : Pool) : Pool :=
  fold_left (λ pool i, turn i pool) schedule pool.

(** The requests [reqs] arrive at a new database and take their turns as
    [schedule] lists them. *)
Definition concurrent_run (reqs : list request) (schedule : list nat) : Pool :=
  turns schedule (mkPool (Running ∘ handler <$> reqs) empty_db []).

(** ** Requests served one at a time *)

(** A handler run with no other request in flight: the events it
    publishes (none when it fails) and the state it leaves. *)
Definition served (call : Proc (response * list RoomEvent)) (db : DB) : list RoomEvent * DB :=
  match call db with
  | (Ok (_, events), db') => (events, db')
  | (Raise _, db') => ([], db')
  end.

Definition serve (req : request) (db : DB) : list RoomEvent * DB :=
  served (handler req) db.

(** Each request returns before the next one starts. *)
Fixpoint serve_all (reqs : list request) (db : DB) : list RoomEvent * DB :=
  match reqs with
  | [] => ([], db)
  | req :: later =>
      let '(events, db') := serve req db in
      let '(events', db'') := serve_all later db' in
      (events ++ events', db'')
  end.

(** The states between the requests of such a run. *)
Definition serially_reachable (db : DB) : Prop :=
  ∃ reqs, (serve_all reqs empty_db).2 = db.

(** The number of payout computations announced for a room. *)
Definition is_results_ready (code : string) (ev : RoomEvent) : bool :=
  match ev with
  | results_ready c _ => bool_decide (c = code)
  | _ => false
  end.

Definition finalizations (code : string) (events : list RoomEvent) : nat :=
  length (filter (λ ev, is_results_ready code ev = true) events).

(** The queries the properties are stated with. *)
Definition count_players (db : DB) (code : string) : Z :=
  count_where (in_room code) (players db).

Definition room_players (db : DB) (code : string) : list Player.t :=
  filter (λ p, in_room code p = true) (rows (players db)).

Definition status_of (db : DB) (code : string) : option Status :=
  Room.status <$> rooms db !! code.

(** The request has been answered with a body, not with an error. *)
Definition accepted (call : option Call) : bool :=
  match call with
  | Some (Returned (Ok _)) => true
  | _ => false
  end.

(** ** Consistency of the store *)

(** What the schema and the service maintain together when requests are
    served one at a time.  [player_ok]: a player who has not submitted has
    no allocation and no payout, one who has carries an allocation the
    request schema admits.  [room_ok]: the capacity bounds of the room and
    what its status says about its players. *)
Definition player_ok (p : Player.t) : Prop :=
  match Player.submitted_at p with
  | None =>
      Player.allocation_a p = None ∧ Player.allocation_b p = None ∧ Player.payout p = None
  | Some _ =>
      ∃ a b, Player.allocation_a p = Some a ∧ Player.allocation_b p = Some b ∧
             0 ≤ a ≤ 100 ∧ 0 ≤ b ≤ 100 ∧ a + b = 100
  end.

Definition room_ok (db : DB) (room : Room.t) : Prop :=
  2 ≤ Room.max_players room ≤ 4 ∧
  match Room.status room with
  | STATUS_WAITING => count_players db (Room.code room) < Room.max_players room
  | STATUS_READY => count_players db (Room.code room) = Room.max_players room
  | STATUS_COMPLETED =>
      count_players db (Room.code room) = Room.max_players room ∧
      ∀ p, p ∈ room_players db (Room.code room) →
           has_submitted p = true ∧ is_Some (Player.payout p)
  end.

(** [arrivals] lists each primary key of [players] once. *)
Definition rowids_ok (db : DB) : Prop :=
  NoDup (arrivals db) ∧ ∀ k, k ∈ arrivals db ↔ is_Some (players db !! k).

Record consistent (db : DB) : Prop := mk_consistent {
  room_keys : ∀ c r, rooms db !! c = Some r → Room.code r = c;
  player_keys : ∀ k p, players db !! k = Some p → Player.id p = k;
  player_rooms : ∀ k p, players db !! k = Some p → is_Some (rooms db !! Player.room_code p);
  player_rowids : rowids_ok db;
  rooms_ok : ∀ c r, rooms db !! c = Some r → room_ok db r;
  players_ok : ∀ k p, players db !! k = Some p → player_ok p;
}.

(** The part of it that the tables guarantee on their own: rows are stored
    under their primary key, and [room_code] is a foreign key. *)
Definition schema_ok (db : DB) : Prop :=
  (∀ k p, players db !! k = Some p → Player.id p = k) ∧
  (∀ k p, players db !! k = Some p → is_Some (rooms db !! Player.room_code p)).

(** [p'] is [p] up to its payout. *)
Definition same_but_payout (p p' : Player.t) : Prop :=
  p' = p ∨ ∃ v, p' = Player.with_payout p v.

Definition completed (db : DB) (code : string) : Prop :=
  ∃ room, rooms db !! code = Some room ∧ Room.status room = STATUS_COMPLETED.

(** Nothing of the room [code] differs between [db] and [db']: its row and
    the rows of its players. *)
Definition frozen (code : string) (db db' : DB) : Prop :=
  rooms db' !! code = rooms db !! code ∧
  ∀ k p, Player.room_code p = code →
         (players db' !! k = Some p ↔ players db !! k = Some p).

(** What one request served alone may do to the rooms: a completed room
    is frozen and announces no result; a result is announced at most once,
    for a room that was not completed and now is. *)
Definition step_ok (db db' : DB) (events : list RoomEvent) : Prop :=
  consistent db' ∧
  ∀ code,
    (completed db code → frozen code db db' ∧ finalizations code events = 0%nat) ∧
    (finalizations code events ≤ 1)%nat ∧
    (finalizations code events = 1%nat → completed db' code ∧ ¬ completed db code).

(** Every player of the room has submitted. *)
Definition all_submitted (db : DB) (code : string) : Prop :=
  ∀ p, p ∈ room_players db code → has_submitted p = true.

(** [db'] is [db] after the finalization of [room] with [result]: the
    result is the calculator's on the players of the room in join order,
    the room is completed, every player of the room carries the payout of
    its record, and no other row differs. *)
Definition finalized (room : Room.t) (result : GameResult.t) (db db' : DB) : Prop :=
  calculate_payouts (select_players (Room.code room) db) = Ok result ∧
  rooms db' = <[Room.code room := Room.with_status room STATUS_COMPLETED]> (rooms db) ∧
  arrivals db' = arrivals db ∧
  (∀ k, players db !! k = None → players db' !! k = None) ∧
  (∀ k p, players db !! k = Some p → Player.room_code p ≠ Room.code room →
          players db' !! k = Some p) ∧
  (∀ k p, players db !! k = Some p → Player.room_code p = Room.code room →
          ∃ r, r ∈ GameResult.players result ∧ PlayerPayout.player_id r = k ∧
               players db' !! k = Some (Player.with_payout p (PlayerPayout.payout r))).

(** The record that [calculate_payouts] appends for [p] when [s] is the
    sum it rounds, and [p] with the payout of that record. *)
Definition record (p : Player.t) (s : PyFloat.float) : PlayerPayout.t :=
  PlayerPayout.mk (Player.id p) (Player.display_name p) (PyFloat.round2 s).

Definition paid (p : Player.t) (s : PyFloat.float) : Player.t :=
  Player.with_payout p (PyFloat.round2 s).

(** ** Sample data *)

Module Sample.
(** [make_player] of [tests/test_payouts.py]. *)
Definition make_player (idx : string) (allocation_a allocation_b : Z) : Player.t :=
  Player.mk ("p" +:+ idx) "" ("Player " +:+ idx)
    (Some allocation_a) (Some allocation_b) None None 0.

Definition opposite : list Player.t := [make_player "1" 100 0; make_player "2" 0 100].

(** Four players whose payouts all fall on a half cent. *)
Definition half_cents : list Player.t :=
  [make_player "1" 99 1; make_player "2" 100 0; make_player "3" 100 0; make_player "4" 100 0].

(** A full room of two players who have not submitted yet. *)
Definition ann : Player.t := Player.mk "p1" "ROOM01" "Ann" None None None None 1.
Definition bob : Player.t := Player.mk "p2" "ROOM01" "Bob" None None None None 2.
Definition room : Room.t := Room.mk "ROOM01" 2 STATUS_READY.
Definition db : DB :=
  mkDB {[ "ROOM01" := room ]} (<["p1" := ann]> {[ "p2" := bob ]}) ["p1"; "p2"].

(** A game from the creation of the room to its last submission. *)
Definition game : list request :=
  [POST_rooms (RoomCreate.mk 2) ["ROOM01"];
   POST_join "ROOM01" (PlayerCreate.mk "Ann") "p1" 1;
   POST_join "ROOM01" (PlayerCreate.mk "Bob") "p2" 2;
   POST_submit "ROOM01" (SubmitAllocation.mk "p1" 60 40) 3;
   POST_submit "ROOM01" (SubmitAllocation.mk "p2" 10 90) 4].

(** [n] turns of request [i]; sixteen take any request of these samples
    from its start to its return. *)
Definition part (n i : nat) : list nat := replicate n i.
Definition whole (i : nat) : list nat := part 16 i.

(** Three players ask for the two seats of a room; requests 2 and 3 both
    count the players (turns 1 and 2 of [join_room]) before either
    inserts. *)
Definition three_joins : list request :=
  [POST_rooms (RoomCreate.mk 2) ["ROOM01"];
   POST_join "ROOM01" (PlayerCreate.mk "Ann") "p1" 1;
   POST_join "ROOM01" (PlayerCreate.mk "Bob") "p2" 2;
   POST_join "ROOM01" (PlayerCreate.mk "Cid") "p3" 2].

Definition joins_overlap : list nat :=
  whole 0 ++ whole 1 ++ part 2 2 ++ part 2 3 ++ whole 2 ++ whole 3.

(** The two players of [game] submit at the same time: each commits its
    allocation (the first five turns of [submit_allocation]) before the
    other asks whether everyone has submitted. *)
Definition submits_overlap : list nat :=
  whole 0 ++ whole 1 ++ whole 2 ++ part 5 3 ++ part 5 4 ++ whole 3 ++ whole 4.



(** Ann leaves a full room and a reader asks for the room between the two
    commits of [leave_room] (its third turn is the DELETE). *)
Definition leave_observed : list request :=
  [POST_rooms (RoomCreate.mk 2) ["ROOM01"];
   POST_join "ROOM01" (PlayerCreate.mk "Ann") "p1" 1;
   POST_join "ROOM01" (PlayerCreate.mk "Bob") "p2" 2;
   DELETE_player "ROOM01" "p1";
   GET_room "ROOM01"].

Definition read_between_commits : list nat :=
  whole 0 ++ whole 1 ++ whole 2 ++ part 3 3 ++ whole 4.

(** The float nearest to the decimal [n / 10^2]. *)
Definition cents (n : Z) : PyFloat.float := PyFloat.round_ne false n 100.
End Sample.

(** ** The event broker: [services/events.py] *)

Module RoomEventBroker.

(** The broker runs on one event loop.  No coroutine of this module is
    suspended between taking [self._lock] and releasing it, and
    [queue.put] on an unbounded [asyncio.Queue] never waits, so
    [publish], the registration of [subscribe], one turn of its loop and
    its [finally] block each run without interleaving: they are the
    atomic steps below.  A [Queue] object is named by the number it was
    allocated under. *)
Record t : Type := mk {
  _subscribers : gmap string (gset nat);  (* the dict of the broker *)
  items : gmap nat (list string);         (* the contents of every Queue *)
  generators : gmap nat string;           (* the running [subscribe] generators:
                                             their queue and their [room_code] *)
  allocated : nat;                        (* the number of Queue objects created *)
}.

Definition init : t := mk ∅ ∅ ∅ 0.

(** [queue.put(message)] *)
Definition put (message : string) (queue : nat) (heap : gmap nat (list string))
    : gmap nat (list string) :=
  alter (λ pending, pending ++ [message]) queue heap.

Section Publish.
Context {Event : Type}.
Variable json_dumps : Event → string.

Definition publish (room_code : string) (event : Event) (b : t) : t :=
  let message := json_dumps event in
  let queues := elements (default ∅ (_subscribers b !! room_code)) in
  mk (_subscribers b) (foldr (put message) (items b) queues) (generators b) (allocated b).
End Publish.

(** [subscribe] up to its loop: a new queue joins the set of the room. *)
Definition subscribe (room_code : string) (b : t) : nat * t :=
  let queue := allocated b in
  (queue,
   mk (<[room_code := {[queue]} ∪ default ∅ (_subscribers b !! room_code)]> (_subscribers b))
      (<[queue := []]> (items b))
      (<[queue := room_code]> (generators b))
      (S (allocated b))).

(** One turn of the loop of the generator that owns [queue]:
    [payload = await queue.get(); yield payload].  With an empty queue the
    generator stays suspended. *)
Definition next (queue : nat) (b : t) : option string * t :=
  match generators b !! queue, items b !! queue with
  | Some _, Some (payload :: pending) =>
      (Some payload, mk (_subscribers b) (<[queue := pending]> (items b)) (generators b) (allocated b))
  | _, _ => (None, b)
  end.

(** The [finally] block, run when the generator that owns [queue] is closed. *)
Definition unsubscribe (queue : nat) (b : t) : t :=
  match generators b !! queue with
  | None => b
  | Some room_code =>
      let registry :=
        match _subscribers b !! room_code with
        | None => _subscribers b
        | Some subscribers =>
            let subscribers := subscribers ∖ {[queue]} in
            if decide (subscribers = ∅)
            then delete room_code (_subscribers b)
            else <[room_code := subscribers]> (_subscribers b)
        end in
      mk registry (items b) (delete queue (generators b)) (allocated b)
  end.

(** Runs of the broker. *)
Inductive op (Event : Type) : Type :=
| Subscribe (room_code : string)
| Publish (room_code : string) (event : Event)
| Next (queue : nat)
| Unsubscribe (queue : nat).
Arguments Subscribe {Event} room_code.
Arguments Publish {Event} room_code event.
Arguments Next {Event} queue.
Arguments Unsubscribe {Event} queue.

Section Runs.
Context {Event : Type}.
Variable json_dumps : Event → string.

(** One step, with the payload it makes a generator yield, if any. *)
Definition step (o : op Event) (b : t) : option (nat * string) * t :=
  match o with
  | Subscribe room_code => (None, (subscribe room_code b).2)
  | Publish room_code event => (None, publish json_dumps room_code event b)
  | Next queue =>
      let '(payload, b') := next queue b in
      ((λ m, (queue, m)) <$> payload, b')
  | Unsubscribe queue => (None, unsubscribe queue b)
  end.

Fixpoint run (ops : list (op Event)) (b : t) : list (nat * string) * t :=
  match ops with
  | [] => ([], b)
  | o :: later =>
      let '(out, b') := step o b in
      let '(outs, b'') := run later b' in
      (option_list out ++ outs, b'')
  end.

(** What the generator of [queue] has yielded in a run. *)
Definition yielded (queue : nat) (outs : list (nat * string)) : list string :=
  (filter (λ o, o.1 = queue) outs).*2.

(** What is still waiting in [queue]. *)
Definition pending (queue : nat) (b : t) : list string :=
  default [] (items b !! queue).

(** The reference: the messages published to the room of [queue] while
    it is registered.  [live] tells whether the scan is between the
    [Subscribe] that creates the queue and its [Unsubscribe]; [created]
    counts the queues created so far. *)
Fixpoint published_to (queue : nat) (ops : list (op Event)) (created : nat)
    (live : option string) : list string :=
  match ops with
  | [] => []
  | Subscribe room_code :: later =>
      published_to queue later (S created)
        (if decide (created = queue) then Some room_code else live)
  | Publish room_code event :: later =>
      (if decide (live = Some room_code) then [json_dumps event] else [])
      ++ published_to queue later created live
  | Next _ :: later => published_to queue later created live
  | Unsubscribe q :: later =>
      published_to queue later created (if decide (q = queue) then None else live)
  end.
End Runs.

(** The registry and the running generators agree, and queues that are
    not created yet do not exist. *)
Record well_formed (b : t) : Prop := mk_well_formed {
  registry_generators :
    ∀ queue room_code,
      queue ∈ default ∅ (_subscribers b !! room_code) ↔ generators b !! queue = Some room_code;
  fresh_queues :
    ∀ queue, (allocated b ≤ queue)%nat → generators b !! queue = None ∧ items b !! queue = None;
  generator_queue :
    ∀ queue room_code, generators b !! queue = Some room_code → is_Some (items b !! queue);
}.

End RoomEventBroker.

(** A run of the broker with two subscribers of room A. *)
Module BrokerSample.
Import RoomEventBroker.
Definition ops : list (op string) :=
  [Subscribe "A"; Publish "A" "m1"; Subscribe "A"; Publish "B" "x";
   Publish "A" "m2"; Next 0; Unsubscribe 1; Publish "A" "m3"].
End BrokerSample.


(** ** Orders and registries the properties are stated with *)

(** [p] joined no later than [q]. *)
Definition joined_before (p q : Player.t) : Prop := Player.joined_at p ≤ Player.joined_at q.

(** The rows of [l] that joined at [t], in the order of [l]. *)
Definition joined_at_time (t : Z) (l : list Player.t) : list Player.t :=
  filter (λ p, Player.joined_at p = t) l.

(** No room code of the broker's dict is left with an empty set. *)
Definition no_empty_room (b : RoomEventBroker.t) : Prop :=
  ∀ room_code subscribers,
    RoomEventBroker._subscribers b !! room_code = Some subscribers → subscribers ≠ ∅.
(* ===================================================================== *)
(** * Part II: properties                                                  *)
(* ===================================================================== *)

(** ** The payout calculator *)

Section CalculatePayouts.

Lemma of_int_raises z e : PyFloat.of_int z = Raise e → e = OverflowError.
Proof.
  unfold PyFloat.of_int. destruct z; [discriminate | |];
    destruct (PyFloat.round_ne _ _ _); congruence.
Qed.

Lemma of_int_nonzero z f : z ≠ 0 → PyFloat.of_int z = Ok f → ∃ s m e, f = S754_finite s m e.
Proof.
  unfold PyFloat.of_int. intros Hz. destruct z; [done | |];
    destruct (PyFloat.round_ne _ _ _); intros [= <-]; eauto.
Qed.

(** The loop appends one record per player, in order. *)
Lemma payout_loop_spec share players acc :
  Forall (λ p, converts (or_0 (Player.allocation_a p))) players →
  ∃ sums,
    Forall2 (λ p s, PyFloat.int_add_float (or_0 (Player.allocation_a p)) share = Ok s)
      players sums ∧
    payout_loop share players acc =
      Ok (acc ++ zip_with (λ p s, PlayerPayout.mk (Player.id p) (Player.display_name p)
                                   (PyFloat.round2 s)) players sums).
Proof.
  intros Hall. revert acc. induction Hall as [|p players [f Hf] _ IH]; intros acc.
  - exists []. split; [constructor|]. simpl. by rewrite app_nil_r.
  - destruct (IH (acc ++ [PlayerPayout.mk (Player.id p) (Player.display_name p)
                            (PyFloat.round2 (PyFloat.add f share))])) as (sums & Hsums & Heq).
    exists (PyFloat.add f share :: sums). split.
    + constructor; [|done]. unfold PyFloat.int_add_float. by rewrite Hf.
    + simpl. unfold PyFloat.int_add_float at 1. rewrite Hf. simpl.
      rewrite Heq. by rewrite <- app_assoc.
Qed.

Lemma payout_loop_raises share players acc e :
  payout_loop share players acc = Raise e → e = OverflowError.
Proof.
  revert acc. induction players as [|p players IH]; intros acc; simpl; [discriminate|].
  unfold PyFloat.int_add_float.
  destruct (PyFloat.of_int (or_0 (Player.allocation_a p))) eqn:Hf; simpl.
  - apply IH.
  - intros [= <-]. by apply of_int_raises in Hf.
Qed.

Lemma existsb_missing_allocation players :
  existsb missing_allocation players = true ↔
  ∃ p, p ∈ players ∧ (Player.allocation_a p = None ∨ Player.allocation_b p = None).
Proof.
  rewrite existsb_exists. split.
  - intros (p & Hin & Hp). exists p. split; [by apply list_elem_of_In|].
    unfold missing_allocation in Hp.
    destruct (Player.allocation_a p); [|by left].
    destruct (Player.allocation_b p); [discriminate | by right].
  - intros (p & Hin & Hp). exists p. split; [by apply list_elem_of_In|].
    unfold missing_allocation. destruct Hp as [-> | Hb]; [done|].
    rewrite Hb. by destruct (Player.allocation_a p).
Qed.

Lemma length_pos_converts_nonzero (players : list Player.t) f :
  players ≠ [] → PyFloat.of_int (Z.of_nat (length players)) = Ok f →
  ∃ s m e, f = S754_finite s m e.
Proof.
  intros Hne. apply of_int_nonzero. destruct players; [done | simpl; lia].
Qed.

Lemma sum_allocation_b_spec players : sum_allocation_b players = spec_total_b players.
Proof.
  unfold sum_allocation_b, spec_total_b.
  assert (∀ acc, fold_left (λ acc p, acc + or_0 (Player.allocation_b p)) players acc
                 = acc + foldr Z.add 0 ((λ p, default 0 (Player.allocation_b p)) <$> players))
    as H; [|by rewrite H].
  induction players as [|p players IH]; intros acc; [simpl; lia|].
  rewrite fmap_cons. cbn [fold_left foldr]. rewrite IH.
  unfold or_0. destruct (Player.allocation_b p); cbn [default from_option id]; lia.
Qed.

Lemma calculate_payouts_nonempty players :
  players ≠ [] →
  calculate_payouts players =
    if existsb missing_allocation players
    then Raise (HTTPException HTTP_400_BAD_REQUEST "Missing allocations")
    else
      try! scaled := PyFloat.int_mul_float (sum_allocation_b players) PyFloat.f1_5 in
      try! share := PyFloat.float_div_int (PyFloat.round2 scaled) (Z.of_nat (length players)) in
      try! payouts := payout_loop share players [] in
      try! total_b_pool := PyFloat.of_int (sum_allocation_b players) in
      Ok (GameResult.mk total_b_pool (PyFloat.round2 scaled) payouts).
Proof. by destruct players. Qed.

Lemma payout_records share players sums :
  Forall (λ p, is_Some (Player.allocation_a p) ∧ is_Some (Player.allocation_b p)) players →
  Forall2 (λ p s, PyFloat.int_add_float (or_0 (Player.allocation_a p)) share = Ok s)
    players sums →
  Forall2 (λ p r,
             PlayerPayout.player_id r = Player.id p ∧
             PlayerPayout.display_name r = Player.display_name p ∧
             ∃ a fa, Player.allocation_a p = Some a ∧ PyFloat.of_int a = Ok fa ∧
                     PlayerPayout.payout r = PyFloat.round2 (PyFloat.add fa share))
    players
    (zip_with (λ p s, PlayerPayout.mk (Player.id p) (Player.display_name p)
                        (PyFloat.round2 s)) players sums).
Proof.
  intros Hset Hsums. induction Hsums as [|p s players sums Hs _ IH]; [constructor|].
  apply Forall_cons in Hset as [[[a Ha] _] Hset]. simpl. constructor; [|by apply IH].
  split; [done|]. split; [done|]. rewrite Ha in Hs. simpl in Hs.
  unfold PyFloat.int_add_float in Hs.
  destruct (PyFloat.of_int a) as [fa|] eqn:Hfa; [|discriminate].
  simpl in Hs. injection Hs as <-. by exists a, fa.
Qed.

(** When the integers involved convert to float, [calculate_payouts]
    returns: the pool, the share and one record per player, in order. *)
Lemma calculate_payouts_returns (players : list Player.t) :
  players ≠ [] →
  Forall (λ p, is_Some (Player.allocation_a p) ∧ is_Some (Player.allocation_b p)) players →
  converts (spec_total_b players) →
  converts (Z.of_nat (length players)) →
  Forall (λ p, converts (default 0 (Player.allocation_a p))) players →
  ∃ total count share result,
    PyFloat.of_int (spec_total_b players) = Ok total ∧
    PyFloat.of_int (Z.of_nat (length players)) = Ok count ∧
    calculate_payouts players = Ok result ∧
    GameResult.boosted_pool result = PyFloat.round2 (PyFloat.mul total PyFloat.f1_5) ∧
    PyFloat.truediv (GameResult.boosted_pool result) count = Ok share ∧
    Forall2 (λ p r,
               PlayerPayout.player_id r = Player.id p ∧
               PlayerPayout.display_name r = Player.display_name p ∧
               ∃ a fa, Player.allocation_a p = Some a ∧ PyFloat.of_int a = Ok fa ∧
                       PlayerPayout.payout r = PyFloat.round2 (PyFloat.add fa share))
      players (GameResult.players result).
Proof.
  intros Hne Hset [total Htotal] [count Hcount] Hconv.
  destruct (length_pos_converts_nonzero players count Hne Hcount) as (sc & mc & ec & ->).
  assert (existsb missing_allocation players = false) as Hmiss.
  { apply not_true_is_false. rewrite existsb_missing_allocation.
    intros (p & Hin & Hp). rewrite Forall_forall in Hset.
    destruct (Hset p Hin) as [[a Ha] [b Hb]]. destruct Hp; congruence. }
  set (boosted := PyFloat.round2 (PyFloat.mul total PyFloat.f1_5)).
  assert (∃ share, PyFloat.truediv boosted (S754_finite sc mc ec) = Ok share) as [share Hshare].
  { generalize boosted. intros x. unfold PyFloat.truediv. destruct x; eauto. }
  destruct (payout_loop_spec share players []) as (sums & Hsums & Hloop).
  { eapply Forall_impl; [exact Hconv|]. intros p. unfold or_0, default. by destruct (Player.allocation_a p). }
  exists total, (S754_finite sc mc ec), share,
    (GameResult.mk total boosted
       (zip_with (λ p s, PlayerPayout.mk (Player.id p) (Player.display_name p)
                           (PyFloat.round2 s)) players sums)).
  split; [done|]. split; [done|].
  split; [|split; [|split]].
  - rewrite calculate_payouts_nonempty by done.
    rewrite Hmiss, sum_allocation_b_spec.
    unfold PyFloat.int_mul_float, PyFloat.float_div_int.
    rewrite Htotal. simpl result_bind. rewrite Hcount. simpl result_bind.
    fold boosted. rewrite Hshare. simpl result_bind. by rewrite Hloop.
  - reflexivity.
  - exact Hshare.
  - simpl. by apply payout_records.
Qed.

(** The three cases of [tests/test_payouts.py]. *)
Example test_two_player_opposite_allocations :
  calculate_payouts Sample.opposite
  = Ok (GameResult.mk (Sample.cents 10000) (Sample.cents 15000)
          [PlayerPayout.mk "p1" "Player 1" (Sample.cents 17500);
           PlayerPayout.mk "p2" "Player 2" (Sample.cents 7500)]).
Proof. vm_compute. reflexivity. Qed.

Example test_equal_split_four_players :
  calculate_payouts
    [Sample.make_player "1" 50 50; Sample.make_player "2" 50 50;
     Sample.make_player "3" 50 50; Sample.make_player "4" 50 50]
  = Ok (GameResult.mk (Sample.cents 20000) (Sample.cents 30000)
          [PlayerPayout.mk "p1" "Player 1" (Sample.cents 12500);
           PlayerPayout.mk "p2" "Player 2" (Sample.cents 12500);
           PlayerPayout.mk "p3" "Player 3" (Sample.cents 12500);
           PlayerPayout.mk "p4" "Player 4" (Sample.cents 12500)]).
Proof. vm_compute. reflexivity. Qed.

Example test_rounding_handles_decimals :
  calculate_payouts
    [Sample.make_player "1" 20 80; Sample.make_player "2" 70 30; Sample.make_player "3" 10 90]
  = Ok (GameResult.mk (Sample.cents 20000) (Sample.cents 30000)
          [PlayerPayout.mk "p1" "Player 1" (Sample.cents 12000);
           PlayerPayout.mk "p2" "Player 2" (Sample.cents 17000);
           PlayerPayout.mk "p3" "Player 3" (Sample.cents 11000)]).
Proof. vm_compute. reflexivity. Qed.

(** A tie on the half cent goes to the even cent: 99.375 becomes 99.38
    and 100.375 becomes 100.38. *)
Example payout_half_cent_to_even :
  PlayerPayout.payout <$>
    (match calculate_payouts
             [Sample.make_player "1" 99 1; Sample.make_player "2" 100 0;
              Sample.make_player "3" 100 0; Sample.make_player "4" 100 0] with
     | Ok result => GameResult.players result
     | Raise _ => []
     end)
  = [Sample.cents 9938; Sample.cents 10038; Sample.cents 10038; Sample.cents 10038].
Proof. vm_compute. reflexivity. Qed.

Lemma arithmetic_raises players e :
  (try! scaled := PyFloat.int_mul_float (sum_allocation_b players) PyFloat.f1_5 in
   try! share := PyFloat.float_div_int (PyFloat.round2 scaled) (Z.of_nat (length players)) in
   try! payouts := payout_loop share players [] in
   try! total_b_pool := PyFloat.of_int (sum_allocation_b players) in
   Ok (GameResult.mk total_b_pool (PyFloat.round2 scaled) payouts)) = Raise e →
  e = OverflowError ∨ e = ZeroDivisionError.
Proof.
  unfold PyFloat.int_mul_float, PyFloat.float_div_int.
  destruct (PyFloat.of_int (sum_allocation_b players)) as [total|e0] eqn:Htotal; simpl;
    [|intros [= <-]; left; by eapply of_int_raises].
  destruct (PyFloat.of_int (Z.of_nat (length players))) as [count|e0] eqn:Hcount; simpl;
    [|intros [= <-]; left; by eapply of_int_raises].
  destruct (PyFloat.truediv _ count) as [share|e0] eqn:Hshare; simpl.
  - destruct (payout_loop share players []) as [payouts|e0] eqn:Hloop; simpl; [discriminate|].
    intros [= <-]. left. by eapply payout_loop_raises.
  - intros [= <-]. right. unfold PyFloat.truediv in Hshare.
    destruct (PyFloat.round2 _), count; congruence.
Qed.

(** C8. [calculate_payouts] raises its HTTP 400 exception exactly when the
    list is empty or some player lacks [allocation_a] or [allocation_b];
    it then returns no result. *)
Theorem calculate_payouts_validation (players : list Player.t) :
  (∃ detail, calculate_payouts players = Raise (HTTPException HTTP_400_BAD_REQUEST detail))
  ↔ (players = [] ∨
     ∃ p, p ∈ players ∧ (Player.allocation_a p = None ∨ Player.allocation_b p = None)).
Proof.
  split.
  - intros [detail Hraise]. destruct (decide (players = [])) as [->|Hne]; [by left|].
    right. rewrite calculate_payouts_nonempty in Hraise by done.
    destruct (existsb missing_allocation players) eqn:Hmiss.
    + by apply existsb_missing_allocation.
    + apply arithmetic_raises in Hraise as [?|?]; discriminate.
  - intros [->|Hmiss]; [by eexists|].
    destruct (decide (players = [])) as [->|Hne]; [by eexists|].
    rewrite calculate_payouts_nonempty by done.
    apply existsb_missing_allocation in Hmiss as ->. by eexists.
Qed.

End CalculatePayouts.

(** ** The store: counting rows *)

Section Rows.
Implicit Types (t : gmap string Player.t) (P : Player.t → bool).

Lemma rows_insert_fresh t k x :
  t !! k = None → rows (<[k := x]> t) ≡ₚ x :: rows t.
Proof.
  intros Hk. unfold rows. by rewrite map_to_list_insert.
Qed.

Lemma rows_delete t k x :
  t !! k = Some x → rows t ≡ₚ x :: rows (delete k t).
Proof.
  intros Hk. unfold rows. by rewrite <- (map_to_list_delete t k x).
Qed.

Lemma elem_of_rows t x : x ∈ rows t ↔ ∃ k, t !! k = Some x.
Proof.
  unfold rows. rewrite list_elem_of_fmap. split.
  - intros ([k y] & -> & Hin). exists k. by apply elem_of_map_to_list.
  - intros [k Hk]. exists (k, x). split; [done|]. by apply elem_of_map_to_list.
Qed.

Lemma count_where_perm P (l1 l2 : list Player.t) :
  l1 ≡ₚ l2 →
  length (filter (λ p, P p = true) l1) = length (filter (λ p, P p = true) l2).
Proof. intros H. by rewrite H. Qed.

Lemma count_where_empty P : count_where P ∅ = 0.
Proof. unfold count_where, rows. by rewrite map_to_list_empty. Qed.

Lemma count_where_nonneg P t : 0 ≤ count_where P t.
Proof. unfold count_where. lia. Qed.

Lemma count_where_insert_fresh P t k x :
  t !! k = None →
  count_where P (<[k := x]> t) = count_where P t + (if P x then 1 else 0).
Proof.
  intros Hk. unfold count_where.
  rewrite (count_where_perm P _ _ (rows_insert_fresh t k x Hk)).
  rewrite filter_cons. destruct (P x); case_decide; try done; simpl; lia.
Qed.

Lemma count_where_delete P t k x :
  t !! k = Some x →
  count_where P t = count_where P (delete k t) + (if P x then 1 else 0).
Proof.
  intros Hk. unfold count_where.
  rewrite (count_where_perm P _ _ (rows_delete t k x Hk)).
  rewrite filter_cons. destruct (P x); case_decide; try done; simpl; lia.
Qed.

Lemma count_where_update P t k x y :
  t !! k = Some x →
  count_where P (<[k := y]> t)
  = count_where P t - (if P x then 1 else 0) + (if P y then 1 else 0).
Proof.
  intros Hk. rewrite <- insert_delete_eq.
  rewrite count_where_insert_fresh by apply lookup_delete_eq.
  rewrite (count_where_delete P t k x Hk). lia.
Qed.

Lemma count_where_alter P t k f :
  (∀ x, P (f x) = P x) → count_where P (alter f k t) = count_where P t.
Proof.
  intros Hf. destruct (t !! k) as [x|] eqn:Hk.
  - assert (alter f k t = <[k := f x]> t) as ->.
    { apply map_eq. intros i. rewrite lookup_alter, lookup_insert.
      case_decide; subst; by rewrite ?Hk. }
    erewrite count_where_update by done. rewrite Hf. lia.
  - f_equal. apply map_eq. intros i. rewrite lookup_alter.
    case_decide; subst; by rewrite ?Hk.
Qed.

Lemma filter_and_length_le P Q (l : list Player.t) :
  (length (filter (λ p, P p && Q p = true) l) ≤ length (filter (λ p, P p = true) l))%nat.
Proof.
  induction l as [|x l IH]; [done|]. rewrite !filter_cons.
  destruct (P x), (Q x); repeat case_decide; simpl in *; try done; lia.
Qed.

Lemma filter_and_length_eq P Q (l : list Player.t) :
  length (filter (λ p, P p && Q p = true) l) = length (filter (λ p, P p = true) l) ↔
  ∀ x, x ∈ l → P x = true → Q x = true.
Proof.
  induction l as [|x l IH].
  - split; [by intros _ ? ?%elem_of_nil | done].
  - pose proof (filter_and_length_le P Q l) as Hle. rewrite !filter_cons. split.
    + intros Heq y [Hyx|Hin]%elem_of_cons Hy.
      * subst x. rewrite Hy in Heq. destruct (Q y); [done|].
        repeat case_decide; simpl in *; try done; lia.
      * apply IH; try done.
        destruct (P x), (Q x); repeat case_decide; simpl in *; try done; lia.
    + intros Hall.
      assert (P x = true → Q x = true) as Hx by (apply Hall; left).
      assert (length (filter (λ p, P p && Q p = true) l)
              = length (filter (λ p, P p = true) l)) as IH'.
      { apply IH. intros y Hy. apply Hall. by right. }
      destruct (P x) eqn:HP; [rewrite Hx by done|];
        repeat case_decide; simpl in *; try done; lia.
Qed.

(** Two conditions select the same number of rows exactly when the
    stronger one holds wherever the weaker one does. *)
Lemma count_where_and_eq P Q t :
  count_where (λ p, P p && Q p) t = count_where P t ↔
  ∀ x, x ∈ rows t → P x = true → Q x = true.
Proof.
  unfold count_where. rewrite <- filter_and_length_eq. lia.
Qed.

End Rows.
(** ** The service, call by call *)

Section Calls.
Context {A B : Type}.

Lemma run_then (p : Proc A) (k : A → Proc B) db :
  then_ p k db =
  match p db with
  | (Ok a, db') => k a db'
  | (Raise e, db') => (Raise e, db')
  end.
Proof.
  revert db. induction p as [a|e|C stmt k' IH]; intros db; simpl; [done..|].
  destruct (stmt db) as [[b|e] db']; [apply IH | done].
Qed.

End Calls.

Section Service.

Lemma fits_integer_int64 z : fits_integer z = true ↔ int64 z.
Proof. unfold fits_integer, int64. rewrite andb_true_iff, Z.leb_le, Z.ltb_lt. lia. Qed.

Lemma with_status_same (room : Room.t) : Room.with_status room (Room.status room) = room.
Proof. by destruct room. Qed.

Lemma changed_same {C : Type} `{EqDecision C} (x y : C) : GameService.changed x y x = y.
Proof. unfold GameService.changed. by case_decide. Qed.

(** The UPDATE of a status, for a session whose [room] is the row. *)
Lemma db_commit_status_row room status db :
  rooms db !! Room.code room = Some room →
  GameService.db_commit_status room status db
  = (Ok (), mkDB (<[Room.code room := Room.with_status room status]> (rooms db))
              (players db) (arrivals db)).
Proof.
  intros Hrow. unfold GameService.db_commit_status. case_decide as Hs; [|by rewrite Hrow].
  subst status. rewrite with_status_same, insert_id by done. by destruct db.
Qed.

Lemma get_room_unfold code db :
  GameService.get_room code db =
  match rooms db !! code with
  | None => (Raise (HTTPException HTTP_404_NOT_FOUND "Room not found"), db)
  | Some room => (Ok room, db)
  end.
Proof. unfold GameService.get_room. simpl. by destruct (rooms db !! code). Qed.

Lemma join_room_unfold code display_name uuid now db :
  (∀ c r, rooms db !! c = Some r → Room.code r = c) →
  GameService.join_room code display_name uuid now db =
  match rooms db !! code with
  | None => (Raise (HTTPException HTTP_404_NOT_FOUND "Room not found"), db)
  | Some room =>
      if count_players db code >=? Room.max_players room
      then (Raise (HTTPException HTTP_400_BAD_REQUEST "Room is full"), db)
      else
        match players db !! uuid with
        | Some _ => (Raise IntegrityError, db)
        | None =>
            let player := Player.mk uuid (Room.code room) display_name None None None None now in
            (Ok player,
             mkDB (if count_players db code + 1 =? Room.max_players room
                   then <[Room.code room := Room.with_status room STATUS_READY]> (rooms db)
                   else rooms db)
                  (<[uuid := player]> (players db))
                  (arrivals db ++ [uuid]))
        end
  end.
Proof.
  intros Hkeys. unfold GameService.join_room. rewrite run_then, get_room_unfold.
  destruct (rooms db !! code) as [room|] eqn:Hroom; [|done].
  rewrite run_then. simpl. fold (count_players db code).
  destruct (_ >=? _); [done|]. simpl.
  unfold GameService.db_insert_player, GameService.db_refresh_player. simpl.
  destruct (players db !! uuid); [done|]. simpl. rewrite lookup_insert_eq.
  destruct (_ =? _); [|done]. simpl.
  rewrite db_commit_status_row; [done|]. simpl. by rewrite (Hkeys _ _ Hroom).
Qed.

(** A full room turns a player away, whatever else the store holds. *)
Lemma join_room_full code display_name uuid now db room :
  rooms db !! code = Some room →
  Room.max_players room ≤ count_players db code →
  GameService.join_room code display_name uuid now db
  = (Raise (HTTPException HTTP_400_BAD_REQUEST "Room is full"), db).
Proof.
  intros Hroom Hfull. unfold GameService.join_room. rewrite run_then, get_room_unfold, Hroom.
  rewrite run_then. simpl. fold (count_players db code).
  by rewrite (proj2 (Z.geb_le _ _)) by lia.
Qed.

Lemma leave_room_unfold code player_id db :
  (∀ c r, rooms db !! c = Some r → Room.code r = c) →
  GameService.leave_room code player_id db =
  match players db !! player_id with
  | None => (Raise (HTTPException HTTP_404_NOT_FOUND "Player not found"), db)
  | Some player =>
      if negb (bool_decide (Player.room_code player = code))
      then (Raise (HTTPException HTTP_404_NOT_FOUND "Player not found"), db)
      else
        match rooms db !! code with
        | None => (Raise (HTTPException HTTP_404_NOT_FOUND "Room not found"), db)
        | Some room =>
            if bool_decide (Room.status room = STATUS_COMPLETED)
            then (Raise (HTTPException HTTP_400_BAD_REQUEST "Game already completed"), db)
            else
              let players' := delete (Player.id player) (players db) in
              let arrivals' := filter (λ id, id ≠ Player.id player) (arrivals db) in
              if (count_where (in_room code) players' <? Room.max_players room)
                 && bool_decide (Room.status room = STATUS_READY)
              then
                let room' := Room.with_status room STATUS_WAITING in
                (Ok (player, room'),
                 mkDB (<[Room.code room := room']> (rooms db)) players' arrivals')
              else (Ok (player, room), mkDB (rooms db) players' arrivals')
        end
  end.
Proof.
  intros Hkeys. unfold GameService.leave_room. simpl.
  destruct (players db !! player_id) as [player|]; [|done].
  destruct (negb _); [done|]. simpl.
  destruct (rooms db !! code) as [room|] eqn:Hroom; [|done]. simpl.
  destruct (bool_decide (Room.status room = STATUS_COMPLETED)); [done|]. simpl.
  destruct (_ && _); [|done]. simpl.
  rewrite db_commit_status_row; [done|]. simpl. by rewrite (Hkeys _ _ Hroom).
Qed.

(** The check that [_all_players_submitted] performs. *)
Lemma all_players_submitted_unfold room db :
  GameService._all_players_submitted room db =
  (Ok (negb ((count_players db (Room.code room) <? Room.max_players room)
             || (count_players db (Room.code room) <? 2))
       && (count_where (λ p, in_room (Room.code room) p && has_submitted p) (players db)
           =? count_players db (Room.code room))), db).
Proof.
  unfold GameService._all_players_submitted. rewrite run_then. simpl.
  unfold count_players. by destruct (_ || _).
Qed.

Lemma submit_allocation_unfold code player_id a b now db :
  (∀ k p, players db !! k = Some p → Player.id p = k) →
  GameService.submit_allocation code player_id a b now db =
  if negb (a + b =? 100)
  then (Raise (HTTPException HTTP_422_UNPROCESSABLE_ENTITY "A + B must equal 100"), db)
  else
    match players db !! player_id with
    | None => (Raise (HTTPException HTTP_404_NOT_FOUND "Player not found"), db)
    | Some player =>
        if negb (bool_decide (Player.room_code player = code))
        then (Raise (HTTPException HTTP_404_NOT_FOUND "Player not found"), db)
        else
          match rooms db !! code with
          | None => (Raise (HTTPException HTTP_404_NOT_FOUND "Room not found"), db)
          | Some room =>
              if count_players db code <? 2
              then (Raise (HTTPException HTTP_400_BAD_REQUEST "Need at least two players"), db)
              else
                match Player.submitted_at player with
                | Some _ =>
                    (Raise (HTTPException HTTP_400_BAD_REQUEST "Allocation already submitted"), db)
                | None =>
                    if negb (fits_integer a && fits_integer b)
                    then (Raise OverflowError, db)
                    else
                      let player' := Player.with_allocation player a b now in
                      let db1 := mkDB (rooms db) (<[player_id := player']> (players db))
                                   (arrivals db) in
                      match GameService._all_players_submitted room db1 with
                      | (Ok true, _) =>
                          match GameService._finalize_room [player'] room db1 with
                          | (Ok settled, db2) =>
                              (Ok (GameService.session_object settled.2 player', Some settled.1),
                               db2)
                          | (Raise e, db2) => (Raise e, db2)
                          end
                      | _ => (Ok (player', None), db1)
                      end
                end
          end
    end.
Proof.
  intros Hkeys. unfold GameService.submit_allocation.
  destruct (a + b =? 100) eqn:Hsum; [|done]. cbn [negb run].
  unfold GameService.db_get_player at 1.
  destruct (players db !! player_id) as [player|] eqn:Hplayer; [|done].
  destruct (negb (bool_decide _)); [done|].
  rewrite run_then, get_room_unfold.
  destruct (rooms db !! code) as [room|]; [|done].
  rewrite run_then. unfold GameService._count_players at 1. cbn [run].
  unfold GameService.db_count_players at 1. fold (count_players db code).
  destruct (count_players db code <? 2); [done|].
  destruct (Player.submitted_at player) eqn:Hnone; [done|]. cbn [run].
  unfold GameService.db_commit_allocation.
  destruct (negb (fits_integer a && fits_integer b)); [done|].
  rewrite (Hkeys _ _ Hplayer), Hplayer. cbn [Player.allocation_a Player.allocation_b].
  rewrite !changed_same, Hsum.
  unfold GameService.db_refresh_player at 1. cbn [players Player.id].
  rewrite (Hkeys _ _ Hplayer), lookup_insert_eq.
  assert (Player.mk player_id (Player.room_code player) (Player.display_name player)
            (Some a) (Some b) (Player.payout player) (Some now) (Player.joined_at player)
          = Player.with_allocation player a b now) as ->.
  { unfold Player.with_allocation. by rewrite (Hkeys _ _ Hplayer). }
  rewrite run_then, all_players_submitted_unfold.
  destruct (_ && _); [|done].
  rewrite run_then.
  by destruct (GameService._finalize_room _ room _) as [[settled|e] db2].
Qed.

(** *** What finalization leaves alone *)



Lemma same_but_payout_fields p q :
  same_but_payout p q →
  Player.id q = Player.id p ∧ Player.room_code q = Player.room_code p ∧
  Player.display_name q = Player.display_name p ∧
  Player.allocation_a q = Player.allocation_a p ∧
  Player.allocation_b q = Player.allocation_b p ∧
  Player.submitted_at q = Player.submitted_at p ∧
  Player.joined_at q = Player.joined_at p.
Proof. by intros [->|[v ->]]. Qed.


Lemma finalize_room_players held room db r db' :
  GameService._finalize_room held room db = (r, db') →
  rooms db' = rooms db ∨
  (∃ row, rooms db !! Room.code room = Some row ∧
          rooms db' = <[Room.code room := Room.with_status row STATUS_COMPLETED]> (rooms db)).
Proof.
  unfold GameService._finalize_room. simpl.
  destruct (calculate_payouts _) as [result|e]; [|intros [= <- <-]; by left].
  destruct (GameService.set_payouts _ _) as [players'|e]; [|intros [= <- <-]; by left].
  simpl. unfold GameService.db_commit_finalize.
  destruct (GameService.update_payouts _ _ _) as [t'|]; [|intros [= <- <-]; by left].
  case_decide; [intros [= <- <-]; by left|].
  destruct (rooms db !! Room.code room) as [row|] eqn:Hrow; intros [= <- <-]; [|by left].
  right. by exists row.
Qed.


(** C10. In [submit_allocation] the sum is checked before anything is
    looked up: when [a + b] is not 100 the call raises the HTTP 422
    exception whatever the player id and the room code are, known or not,
    and the store is left as it was. *)
Theorem submit_allocation_sum_checked_first
    (db : DB) (code player_id : string) (a b now : Z) :
  a + b ≠ 100 →
  GameService.submit_allocation code player_id a b now db
  = (Raise (HTTPException HTTP_422_UNPROCESSABLE_ENTITY "A + B must equal 100"), db).
Proof.
  intros Hsum. unfold GameService.submit_allocation.
  destruct (a + b =? 100) eqn:Heq; [lia | done].
Qed.

Lemma submit_allocation_sum_checked_first_witness :
  players empty_db !! "no-such-player" = None ∧
  GameService.submit_allocation "NOROOM" "no-such-player" 60 50 0 empty_db
  = (Raise (HTTPException HTTP_422_UNPROCESSABLE_ENTITY "A + B must equal 100"), empty_db).
Proof.
  split; [reflexivity|]. apply submit_allocation_sum_checked_first. lia.
Defined.


Lemma sample_schema_ok : schema_ok Sample.db.
Proof.
  split.
  - apply (bool_decide_unpack
             (map_Forall (λ k p, Player.id p = k) (players Sample.db))).
    vm_compute. exact I.
  - apply (bool_decide_unpack
             (map_Forall (λ k p, is_Some (rooms Sample.db !! Player.room_code p))
                (players Sample.db))).
    vm_compute. exact I.
Defined.



End Service.
(** ** Consistency is preserved *)

Section Consistency.

Lemma elem_of_room_players db code p :
  p ∈ room_players db code ↔ Player.room_code p = code ∧ ∃ k, players db !! k = Some p.
Proof.
  unfold room_players. rewrite list_elem_of_filter, elem_of_rows.
  unfold in_room. rewrite bool_decide_eq_true. tauto.
Qed.

Lemma count_players_zero db code :
  (∀ k p, players db !! k = Some p → Player.room_code p ≠ code) →
  count_players db code = 0.
Proof.
  intros Hno. unfold count_players, count_where.
  destruct (filter _ _) as [|p l] eqn:Hf; [done|].
  assert (p ∈ room_players db code) as Hin by (unfold room_players; rewrite Hf; left).
  apply elem_of_room_players in Hin as [Hc [k Hk]]. by destruct (Hno k p Hk).
Qed.

Lemma count_players_insert_fresh db k p code rs ar :
  players db !! k = None →
  count_players (mkDB rs (<[k := p]> (players db)) ar) code
  = count_players db code + (if bool_decide (Player.room_code p = code) then 1 else 0).
Proof. intros Hk. unfold count_players. simpl. by rewrite count_where_insert_fresh. Qed.

Lemma count_players_delete db k p code rs ar :
  players db !! k = Some p →
  count_players (mkDB rs (delete k (players db)) ar) code
  = count_players db code - (if bool_decide (Player.room_code p = code) then 1 else 0).
Proof.
  intros Hk. unfold count_players. simpl.
  rewrite (count_where_delete (in_room code) (players db) k p Hk). unfold in_room. lia.
Qed.

Lemma count_players_update db k p p' code rs ar :
  players db !! k = Some p → Player.room_code p' = Player.room_code p →
  count_players (mkDB rs (<[k := p']> (players db)) ar) code = count_players db code.
Proof.
  intros Hk Hrc. unfold count_players. simpl.
  rewrite (count_where_update (in_room code) (players db) k p p' Hk).
  unfold in_room. rewrite Hrc. lia.
Qed.

Lemma count_players_rooms db rs code :
  count_players (mkDB rs (players db) (arrivals db)) code = count_players db code.
Proof. done. Qed.

(** *** The rowids *)

Lemma rowids_ok_insert_fresh db k p rs :
  rowids_ok db → players db !! k = None →
  rowids_ok (mkDB rs (<[k := p]> (players db)) (arrivals db ++ [k])).
Proof.
  intros [Hnd Hin] Hk. split; simpl.
  - apply NoDup_app. split; [done|]. split; [|apply NoDup_singleton].
    intros x Hx ->%list_elem_of_singleton. apply Hin in Hx as [? Hx]. congruence.
  - intros x. rewrite elem_of_app, list_elem_of_singleton, lookup_insert_is_Some, Hin.
    split; [intros [?| ->]; [|by left]|intros [->|[? ?]]; [by right | by left]].
    destruct (decide (k = x)) as [->|?]; [by left | by right].
Qed.

Lemma rowids_ok_delete db k rs :
  rowids_ok db →
  rowids_ok (mkDB rs (delete k (players db)) (filter (λ id, id ≠ k) (arrivals db))).
Proof.
  intros [Hnd Hin]. split; simpl.
  - by apply NoDup_filter.
  - intros x. rewrite list_elem_of_filter, Hin, lookup_delete_is_Some.
    split; (intros [Hne ?]; split; [|done]); congruence.
Qed.

Lemma rowids_ok_same db db' :
  rowids_ok db → arrivals db' = arrivals db →
  (∀ k, is_Some (players db' !! k) ↔ is_Some (players db !! k)) →
  rowids_ok db'.
Proof.
  intros [Hnd Hin] Har Hdom. split; rewrite Har; [done|].
  intros k. by rewrite Hin, Hdom.
Qed.

(** [room_ok] only looks at the players of the room, up to their payouts. *)
Lemma room_ok_transfer db db' room :
  count_players db' (Room.code room) = count_players db (Room.code room) →
  (∀ p', p' ∈ room_players db' (Room.code room) →
         ∃ p, p ∈ room_players db (Room.code room) ∧ same_but_payout p p') →
  room_ok db room → room_ok db' room.
Proof.
  intros Hcount Hsame [Hmax Hst]. split; [done|]. rewrite Hcount.
  destruct (Room.status room); [done..|]. destruct Hst as [Hn Hall]. split; [done|].
  intros p' Hp'. destruct (Hsame p' Hp') as (p & Hp & Hrel).
  destruct (Hall p Hp) as [Hsub Hpay].
  destruct Hrel as [->|[v ->]]; [done|]. split; [|by eexists].
  unfold has_submitted in *. simpl. done.
Qed.

Lemma room_ok_status db room s :
  room_ok db room → s = Room.status room → room_ok db (Room.with_status room s).
Proof. intros H ->. by destruct room. Qed.

Lemma room_ok_ready db room :
  2 ≤ Room.max_players room ≤ 4 →
  count_players db (Room.code room) = Room.max_players room →
  room_ok db (Room.with_status room STATUS_READY).
Proof. by split. Qed.

Lemma room_ok_waiting db room :
  2 ≤ Room.max_players room ≤ 4 →
  count_players db (Room.code room) < Room.max_players room →
  room_ok db (Room.with_status room STATUS_WAITING).
Proof. by split. Qed.

Lemma room_ok_count db room :
  room_ok db room → count_players db (Room.code room) ≤ Room.max_players room.
Proof. intros [_ H]. destruct (Room.status room); [lia..|]. destruct H. lia. Qed.

Lemma unique_room_code_spec draws db :
  ∃ r, GameService._unique_room_code draws db = (r, db) ∧
       ∀ code, r = Ok code → rooms db !! code = None.
Proof.
  induction draws as [|code later IH]; simpl.
  - eexists. split; [done|]. discriminate.
  - destruct (rooms db !! code) eqn:Hc; [done|].
    eexists. split; [done|]. by intros ? [= <-].
Qed.

Lemma frozen_refl code db : frozen code db db.
Proof. by split. Qed.

Lemma create_room_unfold payload draws db :
  GameService.create_room payload draws db =
  match GameService._unique_room_code draws db with
  | (Ok code, _) =>
      let room := Room.mk code (RoomCreate.max_players payload) STATUS_WAITING in
      if negb (fits_integer (RoomCreate.max_players payload))
      then (Raise OverflowError, db)
      else if (2 <=? RoomCreate.max_players payload) && (RoomCreate.max_players payload <=? 4)
      then (Ok room, mkDB (<[code := room]> (rooms db)) (players db) (arrivals db))
      else (Raise IntegrityError, db)
  | (Raise e, _) => (Raise e, db)
  end.
Proof.
  unfold GameService.create_room. rewrite run_then.
  destruct (unique_room_code_spec draws db) as (rc & -> & Hfresh).
  destruct rc as [code|e]; [|done]. specialize (Hfresh code eq_refl).
  cbn [run]. unfold GameService.db_insert_room. cbn [Room.max_players Room.code].
  destruct (negb _); [done|]. rewrite Hfresh.
  destruct (_ && _); [|done].
  unfold GameService.db_refresh_room. cbn [rooms Room.code]. by rewrite lookup_insert_eq.
Qed.

Lemma create_room_ok payload draws db r db' :
  consistent db →
  GameService.create_room payload draws db = (r, db') →
  consistent db' ∧ ∀ code, completed db code → frozen code db db'.
Proof.
  intros Hc. rewrite create_room_unfold.
  destruct (unique_room_code_spec draws db) as (rc & -> & Hfresh).
  destruct rc as [code|e]; [|intros [= <- <-]; split; [done|]; intros; apply frozen_refl].
  specialize (Hfresh code eq_refl). cbv zeta.
  destruct (negb _); [intros [= <- <-]; split; [done|]; intros; apply frozen_refl|].
  destruct (_ && _) eqn:Hb; [|intros [= <- <-]; split; [done|]; intros; apply frozen_refl].
  intros [= <- <-].
  apply andb_true_iff in Hb as [Hlo%Z.leb_le Hhi%Z.leb_le].
  assert (∀ k p, players db !! k = Some p → Player.room_code p ≠ code) as Hnone.
  { intros k p Hp Heq. destruct (player_rooms _ Hc k p Hp) as [? Hx].
    rewrite Heq in Hx. congruence. }
  split.
  - constructor; simpl.
    + intros c r. rewrite lookup_insert. case_decide; [by intros [= <-]|]. apply Hc.
    + apply Hc.
    + intros k p Hp. rewrite lookup_insert. case_decide; [by eexists|]. by eapply player_rooms.
    + apply Hc.
    + intros c r. rewrite lookup_insert. case_decide as Hcc.
      * intros [= <-]. split; [done|]. simpl. rewrite count_players_rooms.
        rewrite count_players_zero by done. lia.
      * intros Hr. eapply room_ok_transfer; [| |by eapply rooms_ok]; [done|].
        intros p' Hp'. exists p'. split; [done|]. by left.
    + apply Hc.
  - intros c [room [Hr _]]. split; [|done]. simpl. rewrite lookup_insert_ne; [done|].
    intros ->. congruence.
Qed.

Lemma join_room_ok code display_name uuid now db r db' :
  consistent db →
  GameService.join_room code display_name uuid now db = (r, db') →
  consistent db' ∧ ∀ c, completed db c → frozen c db db'.
Proof.
  intros Hc. rewrite join_room_unfold by apply Hc.
  destruct (rooms db !! code) as [room|] eqn:Hroom;
    [|intros [= <- <-]; split; [done|]; intros; apply frozen_refl].
  destruct (_ >=? _) eqn:Hfull; [intros [= <- <-]; split; [done|]; intros; apply frozen_refl|].
  destruct (players db !! uuid) eqn:Hfresh;
    [intros [= <- <-]; split; [done|]; intros; apply frozen_refl|].
  cbv zeta. intros [= <- <-].
  pose proof (room_keys _ Hc _ _ Hroom) as Hcode.
  pose proof (rooms_ok _ Hc _ _ Hroom) as [Hmax Hst]. rewrite Hcode in Hst.
  rewrite Z.geb_leb in Hfull. apply Z.leb_gt in Hfull.
  set (player := Player.mk uuid (Room.code room) display_name None None None None now).
  set (rs := if count_players db code + 1 =? Room.max_players room
             then <[Room.code room := Room.with_status room STATUS_READY]> (rooms db)
             else rooms db).
  assert (∀ c, is_Some (rs !! c) ↔ is_Some (rooms db !! c)) as Hdom.
  { intros c. subst rs. destruct (_ =? _); [|done]. rewrite lookup_insert.
    case_decide; [|done]. subst c. rewrite Hcode, Hroom. split; by eexists. }
  assert (∀ c r, c ≠ code → rs !! c = Some r → rooms db !! c = Some r) as Hother.
  { intros c r Hne. subst rs. destruct (_ =? _); [|done]. by rewrite Hcode, lookup_insert_ne. }
  split.
  - constructor; simpl.
    + intros c r. subst rs. destruct (_ =? _); [|apply Hc].
      rewrite lookup_insert. case_decide; [by intros [= <-]|]. apply Hc.
    + intros k p. rewrite lookup_insert. case_decide; [by intros [= <-]|]. apply Hc.
    + intros k p. rewrite lookup_insert. case_decide.
      * intros [= <-]. simpl. apply Hdom. rewrite Hcode, Hroom. by eexists.
      * intros Hp. apply Hdom. by eapply player_rooms.
    + apply rowids_ok_insert_fresh; [apply Hc | done].
    + intros c r Hr. destruct (decide (c = code)) as [->|Hne].
      * assert (∀ rs' ar, count_players (mkDB rs' (<[uuid := player]> (players db)) ar) code
                          = count_players db code + 1) as Hcount.
        { intros rs' ar. rewrite count_players_insert_fresh by done. simpl.
          by rewrite Hcode, bool_decide_eq_true_2. }
        subst rs. destruct (_ =? _) eqn:Hfill.
        -- rewrite Hcode, lookup_insert_eq in Hr. injection Hr as <-.
           apply room_ok_ready; [done|]. rewrite Hcode, Hcount. by apply Z.eqb_eq.
        -- rewrite Hroom in Hr. injection Hr as <-. split; [done|].
           rewrite Hcode, Hcount. apply Z.eqb_neq in Hfill.
           destruct (Room.status room); [lia..|]. destruct Hst. lia.
      * pose proof (Hother _ _ Hne Hr) as Hr0.
        pose proof (room_keys _ Hc _ _ Hr0) as Hrc.
        eapply room_ok_transfer; [| |by eapply rooms_ok].
        -- rewrite count_players_insert_fresh by done. simpl.
           rewrite bool_decide_eq_false_2 by congruence. unfold count_players. simpl. lia.
        -- intros p' [Hp' [k Hk]]%elem_of_room_players. simpl in Hk.
           rewrite lookup_insert in Hk. case_decide.
           ++ injection Hk as <-. simpl in Hp'. congruence.
           ++ exists p'. split; [|by left]. apply elem_of_room_players. eauto.
    + intros k p. rewrite lookup_insert. case_decide; [|apply Hc].
      intros [= <-]. by unfold player_ok.
  - intros c [r0 [Hr0 Hdone]]. destruct (decide (c = code)) as [->|Hne].
    + rewrite Hroom in Hr0. injection Hr0 as <-. rewrite Hdone in Hst. lia.
    + split; simpl.
      * subst rs. destruct (_ =? _); [|done]. by rewrite Hcode, lookup_insert_ne.
      * intros k p Hp. rewrite lookup_insert. case_decide; [|done]. subst k.
        rewrite Hfresh. split; [|done]. intros [= <-]. simpl in Hp. congruence.
Qed.

Lemma leave_room_ok code player_id db r db' :
  consistent db →
  GameService.leave_room code player_id db = (r, db') →
  consistent db' ∧ ∀ c, completed db c → frozen c db db'.
Proof.
  intros Hc. rewrite leave_room_unfold by apply Hc.
  destruct (players db !! player_id) as [player|] eqn:Hplayer;
    [|intros [= <- <-]; split; [done|]; intros; apply frozen_refl].
  destruct (bool_decide (Player.room_code player = code)) eqn:Hin; simpl;
    [|intros [= <- <-]; split; [done|]; intros; apply frozen_refl].
  apply bool_decide_eq_true in Hin.
  destruct (rooms db !! code) as [room|] eqn:Hroom;
    [|intros [= <- <-]; split; [done|]; intros; apply frozen_refl].
  destruct (bool_decide (Room.status room = STATUS_COMPLETED)) eqn:Hdone;
    [intros [= <- <-]; split; [done|]; intros; apply frozen_refl|].
  apply bool_decide_eq_false in Hdone.
  pose proof (player_keys _ Hc _ _ Hplayer) as Hid. rewrite Hid.
  pose proof (room_keys _ Hc _ _ Hroom) as Hcode.
  pose proof (rooms_ok _ Hc _ _ Hroom) as [Hmax Hst]. rewrite Hcode in Hst.
  assert (∀ rs' ar c, count_players (mkDB rs' (delete player_id (players db)) ar) c
                      = count_players db c - (if bool_decide (c = code) then 1 else 0))
    as Hcount.
  { intros rs' ar c. rewrite (count_players_delete db player_id player) by done.
    rewrite Hin. f_equal. destruct (decide (c = code)) as [->|Hne].
    - by rewrite !bool_decide_eq_true_2.
    - by rewrite !bool_decide_eq_false_2. }
  assert (∀ rs' ar c p', p' ∈ room_players (mkDB rs' (delete player_id (players db)) ar) c →
                         p' ∈ room_players db c) as Hsub.
  { intros rs' ar c p' [Hp' [k Hk]]%elem_of_room_players. simpl in Hk.
    apply lookup_delete_Some in Hk as [_ Hk]. apply elem_of_room_players. eauto. }
  set (shrunk := count_where (in_room code) (delete player_id (players db))
                 <? Room.max_players room).
  set (rs := if shrunk && bool_decide (Room.status room = STATUS_READY)
             then <[Room.code room := Room.with_status room STATUS_WAITING]> (rooms db)
             else rooms db).
  set (ar := filter (λ id, id ≠ player_id) (arrivals db)).
  intros Heq.
  assert (db' = mkDB rs (delete player_id (players db)) ar) as ->.
  { revert Heq. subst rs shrunk ar. cbv zeta. destruct (_ && _); by intros [= _ <-]. }
  clear Heq.
  assert (∀ c, is_Some (rs !! c) ↔ is_Some (rooms db !! c)) as Hdom.
  { intros c. subst rs. destruct (_ && _); [|done]. rewrite lookup_insert.
    case_decide; [|done]. subst c. rewrite Hcode, Hroom. split; by eexists. }
  assert (∀ c r, c ≠ code → rs !! c = Some r → rooms db !! c = Some r) as Hother.
  { intros c r0 Hne. subst rs. destruct (_ && _); [|done]. by rewrite Hcode, lookup_insert_ne. }
  split.
  - constructor; simpl.
    + intros c r0. subst rs. destruct (_ && _); [|apply Hc].
      rewrite lookup_insert. case_decide; [by intros [= <-]|]. apply Hc.
    + intros k p [_ Hp]%lookup_delete_Some. by eapply player_keys.
    + intros k p [_ Hp]%lookup_delete_Some. apply Hdom. by eapply player_rooms.
    + apply rowids_ok_delete, Hc.
    + intros c r0 Hr. destruct (decide (c = code)) as [->|Hne].
      * specialize (Hcount rs ar code). rewrite bool_decide_eq_true_2 in Hcount by done.
        subst rs shrunk. fold (count_players db code) in *.
        unfold count_players at 1 in Hcount. simpl in Hcount.
        destruct (_ && _) eqn:Hcond.
        -- rewrite Hcode, lookup_insert_eq in Hr. injection Hr as <-.
           apply room_ok_waiting; [done|]. rewrite Hcode.
           unfold count_players. simpl.
           apply andb_true_iff in Hcond as [Hlt%Z.ltb_lt _]. lia.
        -- rewrite Hroom in Hr. injection Hr as <-. split; [done|]. rewrite Hcode.
           unfold count_players at 1. simpl. rewrite Hcount.
           apply andb_false_iff in Hcond.
           destruct (Room.status room) eqn:Hs; [lia| |done].
           destruct Hcond as [Hge%Z.ltb_ge|Hnr]; [|by rewrite bool_decide_eq_true_2 in Hnr].
           lia.
      * pose proof (Hother _ _ Hne Hr) as Hr0.
        pose proof (room_keys _ Hc _ _ Hr0) as Hrc.
        eapply room_ok_transfer; [| |by eapply rooms_ok].
        -- rewrite Hrc, Hcount. rewrite bool_decide_eq_false_2 by done. lia.
        -- intros p' Hp'. exists p'. split; [|by left]. by eapply Hsub.
    + intros k p [_ Hp]%lookup_delete_Some. by eapply players_ok.
  - intros c [r0 [Hr0 Hd]]. destruct (decide (c = code)) as [->|Hne].
    + rewrite Hroom in Hr0. by injection Hr0 as <-.
    + split; simpl.
      * subst rs. destruct (_ && _); [|done]. by rewrite Hcode, lookup_insert_ne.
      * intros k p Hp. rewrite lookup_delete. case_decide; [|done]. subst k.
        rewrite Hplayer. split; [done|]. intros [= <-]. congruence.
Qed.

End Consistency.
(** ** Finalization *)

Section Finalize.

Lemma insert_by_joined_at_perm p l : insert_by_joined_at p l ≡ₚ p :: l.
Proof.
  induction l as [|q l IH]; simpl; [done|]. case_decide; [done|].
  rewrite IH. apply Permutation_swap.
Qed.

Lemma order_by_joined_at_perm l : order_by_joined_at l ≡ₚ l.
Proof.
  unfold order_by_joined_at. induction l as [|p l IH]; simpl; [done|].
  by rewrite insert_by_joined_at_perm, IH.
Qed.

(** Read by rowid, the table gives each of its rows once. *)
Lemma omap_lookup_perm (t : gmap string Player.t) (ids : list string) :
  NoDup ids → (∀ k, k ∈ ids ↔ is_Some (t !! k)) →
  omap (λ id, t !! id) ids ≡ₚ rows t.
Proof.
  revert t. induction ids as [|k ids IH]; intros t Hnd Hdom.
  - assert (t = ∅) as ->.
    { apply map_eq. intros k. rewrite lookup_empty. apply eq_None_not_Some.
      rewrite <- Hdom. apply not_elem_of_nil. }
    unfold rows. by rewrite map_to_list_empty.
  - apply NoDup_cons in Hnd as [Hk Hnd].
    destruct (proj1 (Hdom k)) as [x Hx]; [left|].
    cbn [omap list_omap]. rewrite Hx.
    rewrite (rows_delete t k x Hx). constructor.
    assert (omap (λ id, t !! id) ids = omap (λ id, delete k t !! id) ids) as ->.
    { clear -Hk. induction ids as [|j ids IH]; [done|].
      apply not_elem_of_cons in Hk as [Hne Hk]. cbn [omap list_omap].
      rewrite lookup_delete_ne by done. by rewrite IH. }
    apply IH; [done|].
    intros j. rewrite lookup_delete_is_Some, <- Hdom, elem_of_cons.
    split; [intros Hj; split; [by intros ->|by right]|].
    intros [Hne [->|Hj]]; done.
Qed.

Lemma rows_by_rowid_perm db : rowids_ok db → rows_by_rowid db ≡ₚ rows (players db).
Proof. intros [Hnd Hdom]. by apply omap_lookup_perm. Qed.

Lemma select_players_perm code db :
  rowids_ok db →
  select_players code db ≡ₚ filter (λ p, in_room code p = true) (rows (players db)).
Proof.
  intros Hok. unfold select_players.
  by rewrite order_by_joined_at_perm, (rows_by_rowid_perm db Hok).
Qed.

Lemma elem_of_select_players db code p :
  rowids_ok db → p ∈ select_players code db ↔ p ∈ room_players db code.
Proof. intros Hok. unfold room_players. by rewrite select_players_perm. Qed.

Lemma length_select_players db code :
  rowids_ok db → Z.of_nat (length (select_players code db)) = count_players db code.
Proof. intros Hok. unfold count_players, count_where. by rewrite select_players_perm. Qed.

Lemma rows_ids_NoDup t :
  (∀ k p, t !! k = Some p → Player.id p = k) → NoDup (Player.id <$> rows t).
Proof.
  intros Hkeys. unfold rows.
  assert (Player.id <$> (map_to_list t).*2 = (map_to_list t).*1) as ->.
  { rewrite <- list_fmap_compose. apply list_fmap_ext.
    intros i [k p] Hl. simpl. apply Hkeys. apply elem_of_map_to_list.
    by eapply list_elem_of_lookup_2. }
  apply NoDup_fst_map_to_list.
Qed.

Lemma select_players_NoDup db code :
  rowids_ok db →
  (∀ k p, players db !! k = Some p → Player.id p = k) →
  NoDup (Player.id <$> select_players code db).
Proof.
  intros Hok Hkeys. rewrite select_players_perm by done.
  pose proof (rows_ids_NoDup _ Hkeys) as Hnd. revert Hnd.
  generalize (rows (players db)). intros l. induction l as [|p l IH]; [done|].
  rewrite fmap_cons, NoDup_cons. intros [Hp Hl]. rewrite filter_cons.
  case_decide; [|by apply IH]. rewrite fmap_cons, NoDup_cons. split; [|by apply IH].
  intros Hin. apply Hp. apply list_elem_of_fmap in Hin as (q & Hq & Hin).
  apply list_elem_of_fmap. exists q. split; [done|]. by apply list_elem_of_filter in Hin as [_ ?].
Qed.

(** Integers of the size the game handles convert to float. *)
Lemma converts_small z : 0 ≤ z ≤ 400 → converts z.
Proof.
  intros Hz. unfold converts.
  assert (forallb (λ n, match PyFloat.of_int (Z.of_nat n) with Ok _ => true | Raise _ => false end)
            (seq 0 401) = true) as Hall by (vm_compute; reflexivity).
  rewrite forallb_forall in Hall. specialize (Hall (Z.to_nat z)).
  rewrite Z2Nat.id in Hall by lia.
  destruct (PyFloat.of_int z); [by eexists|]. discriminate Hall.
  apply in_seq. lia.
Qed.

Lemma spec_total_b_bound players :
  Forall (λ p, ∃ b, Player.allocation_b p = Some b ∧ 0 ≤ b ≤ 100) players →
  0 ≤ spec_total_b players ≤ 100 * Z.of_nat (length players).
Proof.
  unfold spec_total_b. induction 1 as [|p players (b & Hb & Hr) _ IH].
  - simpl. lia.
  - rewrite fmap_cons. cbn [foldr length]. rewrite Hb. cbn [default from_option id]. lia.
Qed.

(** On the players of a filled room the calculator succeeds. *)
Lemma calculate_payouts_ok players :
  players ≠ [] → (length players ≤ 4)%nat →
  Forall (λ p, ∃ a b, Player.allocation_a p = Some a ∧ Player.allocation_b p = Some b ∧
                      0 ≤ a ≤ 100 ∧ 0 ≤ b ≤ 100) players →
  ∃ result sums,
    calculate_payouts players = Ok result ∧
    length sums = length players ∧
    GameResult.players result
    = zip_with (λ p s, PlayerPayout.mk (Player.id p) (Player.display_name p) (PyFloat.round2 s))
        players sums.
Proof.
  intros Hne Hlen Hall.
  assert (existsb missing_allocation players = false) as Hmiss.
  { apply not_true_is_false. rewrite existsb_missing_allocation.
    intros (p & Hin & Hp). rewrite Forall_forall in Hall.
    destruct (Hall p Hin) as (a & b & Ha & Hb & _). destruct Hp; congruence. }
  destruct (converts_small (spec_total_b players)) as [total Htotal].
  { assert (0 ≤ spec_total_b players ≤ 100 * Z.of_nat (length players)) as Hb; [|lia].
    apply spec_total_b_bound.
    eapply Forall_impl; [exact Hall|]. intros p (a & b & _ & Hb & _ & Hr). eauto. }
  destruct (converts_small (Z.of_nat (length players))) as [count Hcount]; [lia|].
  destruct (length_pos_converts_nonzero players count Hne Hcount) as (sc & mc & ec & ->).
  set (boosted := PyFloat.round2 (PyFloat.mul total PyFloat.f1_5)).
  assert (∃ share, PyFloat.truediv boosted (S754_finite sc mc ec) = Ok share) as [share Hshare].
  { generalize boosted. intros x. unfold PyFloat.truediv. destruct x; eauto. }
  destruct (payout_loop_spec share players []) as (sums & Hsums & Hloop).
  { eapply Forall_impl; [exact Hall|]. intros p (a & b & Ha & _ & Hr & _).
    rewrite Ha. apply converts_small. simpl. lia. }
  eexists (GameResult.mk total boosted _), sums. split; [|split].
  - rewrite calculate_payouts_nonempty by done.
    rewrite Hmiss, sum_allocation_b_spec.
    unfold PyFloat.int_mul_float, PyFloat.float_div_int.
    rewrite Htotal. simpl result_bind. rewrite Hcount. simpl result_bind.
    fold boosted. rewrite Hshare. simpl result_bind. by rewrite Hloop.
  - symmetry. by eapply Forall2_length.
  - done.
Qed.

(** *** The objects of the session *)

(** The object the session holds for a row is the row, as long as no
    other session has written in between. *)
Lemma session_object_row held row (t : gmap string Player.t) :
  (∀ q, q ∈ held → t !! Player.id q = Some q) →
  t !! Player.id row = Some row →
  GameService.session_object held row = row.
Proof.
  intros Hheld Hrow. unfold GameService.session_object.
  destruct (find _ held) as [q|] eqn:Hfind; [|done]. simpl.
  apply find_some in Hfind as [Hin Hid]. apply bool_decide_eq_true in Hid.
  apply list_elem_of_In in Hin. specialize (Hheld q Hin). congruence.
Qed.

Lemma session_object_rows held (rows_ : list Player.t) (t : gmap string Player.t) :
  (∀ q, q ∈ held → t !! Player.id q = Some q) →
  (∀ q, q ∈ rows_ → t !! Player.id q = Some q) →
  GameService.session_object held <$> rows_ = rows_.
Proof.
  intros Hheld Hrows. induction rows_ as [|q l IH]; [done|].
  rewrite fmap_cons, IH by (intros; apply Hrows; by right).
  by rewrite (session_object_row held q t) by (try done; apply Hrows; left).
Qed.

Lemma set_payout_app done_ p later s :
  Player.id p ∉ Player.id <$> done_ →
  GameService.set_payout (done_ ++ p :: later) (record p s) = Ok (done_ ++ paid p s :: later).
Proof.
  induction done_ as [|q done_ IH]; intros Hnot; simpl.
  - by rewrite bool_decide_eq_true_2.
  - rewrite fmap_cons, not_elem_of_cons in Hnot. destruct Hnot as [Hne Hnot].
    rewrite bool_decide_eq_false_2 by done. by rewrite IH.
Qed.

(** The loop of [_finalize_room] sets on every object the payout of its
    record. *)
Lemma set_payouts_app done_ ps sums :
  length sums = length ps → NoDup (Player.id <$> ps) →
  (∀ q, q ∈ done_ → Player.id q ∉ Player.id <$> ps) →
  GameService.set_payouts (done_ ++ ps) (zip_with record ps sums)
  = Ok (done_ ++ zip_with paid ps sums).
Proof.
  revert done_ sums. induction ps as [|p ps IH]; intros done_ sums Hlen Hnd Hdis.
  - by rewrite !app_nil_r.
  - destruct sums as [|s sums]; [done|]. simpl in Hlen.
    rewrite fmap_cons in Hnd. apply NoDup_cons in Hnd as [Hp Hnd].
    cbn [zip_with GameService.set_payouts].
    rewrite set_payout_app.
    + cbn [result_bind]. rewrite (cons_middle (paid p s)), !app_assoc.
      rewrite IH; [by rewrite <- app_assoc | lia | done |].
      intros q [Hq| ->%list_elem_of_singleton]%elem_of_app.
      * specialize (Hdis q Hq). rewrite fmap_cons, not_elem_of_cons in Hdis. tauto.
      * done.
    + intros (q & Hid & Hq)%list_elem_of_fmap. apply (Hdis q Hq).
      rewrite fmap_cons, <- Hid. left.
Qed.

Lemma paid_same p s :
  Player.payout p = Some (PyFloat.round2 s) → paid p s = p.
Proof. unfold paid. destruct p. simpl. by intros ->. Qed.

(** The UPDATEs of the commit: every object's row receives the payout,
    and nothing else changes. *)
Lemma update_payouts_zip ps sums t :
  length sums = length ps → NoDup (Player.id <$> ps) →
  (∀ q, q ∈ ps → t !! Player.id q = Some q) →
  ∃ t',
    GameService.update_payouts ps (zip_with paid ps sums) t = Some t' ∧
    (∀ k, k ∉ Player.id <$> ps → t' !! k = t !! k) ∧
    (∀ i p s, ps !! i = Some p → sums !! i = Some s → t' !! Player.id p = Some (paid p s)).
Proof.
  revert sums t. induction ps as [|p ps IH]; intros sums t Hlen Hnd Hrows.
  - exists t. split; [done|]. split; [done|]. by intros i p s ?.
  - destruct sums as [|s sums]; [done|]. simpl in Hlen.
    rewrite fmap_cons in Hnd. apply NoDup_cons in Hnd as [Hp Hnd].
    assert (t !! Player.id p = Some p) as Hrow by (apply Hrows; left).
    assert (∃ t1, (t1 = t ∨ t1 = <[Player.id p := paid p s]> t) ∧
                  t1 !! Player.id p = Some (paid p s) ∧
                  GameService.update_payouts (p :: ps) (zip_with paid (p :: ps) (s :: sums)) t
                  = GameService.update_payouts ps (zip_with paid ps sums) t1)
      as (t1 & Hor & Ht1 & ->).
    { cbn [zip_with GameService.update_payouts paid Player.with_payout Player.payout Player.id].
      destruct (GameService.payout_changed (Player.payout p) (PyFloat.round2 s)) eqn:Hch.
      - rewrite Hrow. eexists. split; [by right|]. split; [|done]. apply lookup_insert_eq.
      - exists t. split; [by left|]. split; [|done].
        unfold GameService.payout_changed in Hch.
        destruct (Player.payout p) as [w|] eqn:Hw; [|done].
        apply negb_false_iff, andb_true_iff in Hch as [Heq%bool_decide_eq_true _].
        subst w. by rewrite paid_same. }
    assert (∀ k, k ≠ Player.id p → t1 !! k = t !! k) as Hne.
    { intros k Hk. destruct Hor as [->| ->]; [done|]. by rewrite lookup_insert_ne. }
    destruct (IH sums t1) as (t' & Hup & Hout & Hin); [lia | done | |].
    { intros q Hq. rewrite Hne; [apply Hrows; by right|].
      intros Heq. apply Hp. rewrite <- Heq. apply list_elem_of_fmap. eauto. }
    exists t'. split; [done|]. split.
    + intros k Hk. rewrite fmap_cons, not_elem_of_cons in Hk. destruct Hk as [Hk1 Hk2].
      by rewrite (Hout k Hk2), Hne.
    + intros [|i] q s' Hq Hs'; simpl in Hq, Hs'.
      * injection Hq as <-. injection Hs' as <-. by rewrite (Hout _ Hp).
      * by eapply Hin.
Qed.

Lemma finalize_room_spec held room db :
  (∀ k p, players db !! k = Some p → Player.id p = k) →
  rowids_ok db →
  rooms db !! Room.code room = Some room →
  (∀ q, q ∈ held → players db !! Player.id q = Some q) →
  (2 ≤ count_players db (Room.code room) ≤ 4) →
  (∀ p, p ∈ room_players db (Room.code room) →
        ∃ a b, Player.allocation_a p = Some a ∧ Player.allocation_b p = Some b ∧
               0 ≤ a ≤ 100 ∧ 0 ≤ b ≤ 100) →
  ∃ result players' db',
    GameService._finalize_room held room db = (Ok (result, players'), db') ∧
    finalized room result db db' ∧
    ∀ p, p ∈ room_players db (Room.code room) →
         ∃ r, r ∈ GameResult.players result ∧ PlayerPayout.player_id r = Player.id p ∧
              GameService.session_object players' p
              = Player.with_payout p (PlayerPayout.payout r).
Proof.
  intros Hkeys Hok Hroom Hheld Hcount Hall.
  set (code := Room.code room) in *.
  set (fetched := select_players code db).
  assert (∀ q, q ∈ fetched → Player.room_code q = code ∧ players db !! Player.id q = Some q)
    as Hfetched.
  { intros q [Hq [k Hk]]%elem_of_select_players%elem_of_room_players; [|done].
    split; [done|]. by rewrite (Hkeys _ _ Hk). }
  pose proof (select_players_NoDup db code Hok Hkeys) as Hnd. fold fetched in Hnd.
  destruct (calculate_payouts_ok fetched) as (result & sums & Hcalc & Hlen & Hrecs).
  { intros Hnil. pose proof (length_select_players db code Hok) as Hl.
    fold fetched in Hl. rewrite Hnil in Hl. simpl in Hl. lia. }
  { pose proof (length_select_players db code Hok) as Hl. fold fetched in Hl. lia. }
  { apply Forall_forall. intros q Hq. apply Hall. by apply elem_of_select_players. }
  fold record in Hrecs.
  destruct (update_payouts_zip fetched sums (players db))
    as (t' & Hup & Hout & Hin); [done | done | intros q Hq; by apply Hfetched |].
  pose proof (set_payouts_app [] fetched sums Hlen Hnd) as Hset.
  rewrite !app_nil_l in Hset. specialize (Hset ltac:(by intros ? ?%elem_of_nil)).
  assert (∀ p, p ∈ fetched → ∃ i s, fetched !! i = Some p ∧ sums !! i = Some s) as Hidx.
  { intros p [i Hi]%list_elem_of_lookup_1.
    destruct (lookup_lt_is_Some_2 sums i) as [s Hs]; [|by eauto].
    rewrite Hlen. by eapply lookup_lt_Some. }
  exists result, (zip_with paid fetched sums),
    (mkDB (<[code := Room.with_status room STATUS_COMPLETED]> (rooms db)) t' (arrivals db)).
  split; [|split].
  - unfold GameService._finalize_room. cbn [run]. unfold GameService.db_select_players at 1.
    fold code fetched.
    rewrite (session_object_rows held fetched (players db)) by (try done; apply Hfetched).
    rewrite Hcalc, Hrecs, Hset. cbn [run]. unfold GameService.db_commit_finalize.
    rewrite Hup. fold code. case_decide as Hst.
    + rewrite <- Hst, with_status_same, insert_id by done. done.
    + by rewrite Hroom.
  - unfold finalized; fold code fetched.
    split; [done|]. split; [done|]. split; [done|]. split; [|split].
    + intros k Hk. simpl. rewrite Hout; [done|].
      intros (q & -> & Hq)%list_elem_of_fmap. destruct (Hfetched q Hq). congruence.
    + intros k p Hp Hne. simpl. rewrite Hout; [done|].
      intros (q & -> & Hq)%list_elem_of_fmap. destruct (Hfetched q Hq). congruence.
    + intros k p Hp Hin'. simpl.
      assert (p ∈ fetched) as Hpin.
      { apply elem_of_select_players; [done|]. apply elem_of_room_players. eauto. }
      destruct (Hidx p Hpin) as (i & s & Hi & Hs).
      exists (record p s). pose proof (Hin i p s Hi Hs) as Hrow.
      rewrite (Hkeys _ _ Hp) in Hrow.
      split; [|split; [by apply Hkeys | done]].
      rewrite Hrecs. apply list_elem_of_lookup_2 with i.
      rewrite lookup_zip_with, Hi. simpl. by rewrite Hs.
  - intros p Hp.
    assert (p ∈ fetched) as Hpin by by apply elem_of_select_players.
    destruct (Hidx p Hpin) as (i & s & Hi & Hs).
    exists (record p s). split; [|split; [done|]].
    + rewrite Hrecs. apply list_elem_of_lookup_2 with i.
      rewrite lookup_zip_with, Hi. simpl. by rewrite Hs.
    + unfold GameService.session_object.
      assert (find (λ q, bool_decide (Player.id q = Player.id p)) (zip_with paid fetched sums)
              = Some (paid p s)) as ->; [|done].
      clear -Hnd Hi Hs. revert i sums Hi Hs Hnd.
      induction fetched as [|q l IH]; intros i sums Hi Hs Hnd; [done|].
      rewrite fmap_cons in Hnd. apply NoDup_cons in Hnd as [Hq Hnd].
      destruct sums as [|s0 sums]; [done|]. destruct i as [|i]; simpl in Hi, Hs.
      * injection Hi as ->. injection Hs as ->. simpl. by rewrite bool_decide_eq_true_2.
      * simpl. rewrite bool_decide_eq_false_2; [by eapply IH|].
        intros Heq. apply Hq. rewrite Heq. apply list_elem_of_fmap. exists p.
        split; [done|]. by eapply list_elem_of_lookup_2.
Qed.

End Finalize.
(** ** Submission *)

Section Submit.

Lemma all_players_submitted_spec room db :
  ∃ b, GameService._all_players_submitted room db = (Ok b, db) ∧
       (b = true ↔ Room.max_players room ≤ count_players db (Room.code room) ∧
                   2 ≤ count_players db (Room.code room) ∧
                   all_submitted db (Room.code room)).
Proof.
  rewrite all_players_submitted_unfold. eexists. split; [done|].
  rewrite andb_true_iff, negb_true_iff, orb_false_iff, !Z.ltb_ge, Z.eqb_eq.
  unfold count_players at 3. rewrite count_where_and_eq.
  unfold all_submitted. setoid_rewrite elem_of_room_players.
  setoid_rewrite elem_of_rows. unfold in_room. setoid_rewrite bool_decide_eq_true.
  split.
  - intros [[Hmax Htwo] Hall]. split; [done|]. split; [done|].
    intros p [Hroom Hrow]. by apply Hall.
  - intros (Hmax & Htwo & Hall). split; [done|].
    intros p Hrow Hroom. by apply Hall.
Qed.

Lemma frozen_trans c db1 db2 db3 : frozen c db1 db2 → frozen c db2 db3 → frozen c db1 db3.
Proof.
  intros [Hr1 Hp1] [Hr2 Hp2]. split; [congruence|].
  intros k p Hp. by rewrite Hp2, Hp1.
Qed.

(** The first half of a successful [submit_allocation]: the allocation is
    recorded on the player. *)
Lemma submit_update_consistent db code player_id p a b now room :
  consistent db → 0 ≤ a ≤ 100 → 0 ≤ b ≤ 100 → a + b = 100 →
  players db !! player_id = Some p → Player.room_code p = code →
  Player.submitted_at p = None → rooms db !! code = Some room →
  let db1 := mkDB (rooms db)
               (<[player_id := Player.with_allocation p a b now]> (players db))
               (arrivals db) in
  consistent db1 ∧ ¬ completed db code ∧
  (∀ c, count_players db1 c = count_players db c) ∧
  (∀ c, c ≠ code → frozen c db db1).
Proof.
  intros Hc Ha Hb Hsum Hp Hroom Hnone Hr db1.
  pose proof (player_keys _ Hc _ _ Hp) as Hid.
  assert (∀ c, count_players db1 c = count_players db c) as Hcount.
  { intros c. subst db1. by eapply count_players_update. }
  assert (¬ completed db code) as Hnot.
  { intros (room' & Hr' & Hdone). rewrite Hr in Hr'. injection Hr' as <-.
    destruct (rooms_ok _ Hc _ _ Hr) as [_ Hst]. rewrite Hdone in Hst.
    destruct Hst as [_ Hall]. rewrite (room_keys _ Hc _ _ Hr) in Hall.
    destruct (Hall p) as [Hsub _]; [apply elem_of_room_players; eauto|].
    unfold has_submitted in Hsub. by rewrite Hnone in Hsub. }
  assert (∀ c, c ≠ code → frozen c db db1) as Hfrozen.
  { intros c Hne. split; [done|]. intros k q Hq. subst db1. simpl.
    rewrite lookup_insert. case_decide; [|done]. subst k. rewrite Hp.
    split; intros [= <-]; simpl in Hq; congruence. }
  split; [|done].
  constructor; simpl.
  - apply Hc.
  - intros k q. rewrite lookup_insert. case_decide; [|apply Hc].
    intros [= <-]. by subst k.
  - intros k q. rewrite lookup_insert. case_decide; [|apply Hc].
    intros [= <-]. simpl. by eapply player_rooms.
  - apply (rowids_ok_same db); [apply Hc | done |].
    intros k. simpl. rewrite lookup_insert_is_Some.
    split; [intros [<-|[_ ?]]; [by eexists | done]|].
    intros Hk. destruct (decide (player_id = k)); [by left | by right].
  - intros c r Hrc. pose proof (rooms_ok _ Hc _ _ Hrc) as Hok.
    pose proof (room_keys _ Hc _ _ Hrc) as Hcode.
    destruct (decide (c = code)) as [->|Hne].
    + rewrite Hr in Hrc. injection Hrc as <-.
      destruct Hok as [Hmax Hst]. split; [done|]. rewrite Hcount.
      destruct (Room.status room) eqn:Hs; [done..|].
      destruct Hnot. by exists room.
    + eapply room_ok_transfer; [| |exact Hok]; [by rewrite Hcount|].
      rewrite Hcode.
      intros q [Hq [k Hk]]%elem_of_room_players. exists q. split; [|by left].
      apply elem_of_room_players. split; [done|]. exists k.
      destruct (Hfrozen c Hne) as [_ Hf]. by apply (Hf k q).
  - intros k q. rewrite lookup_insert. case_decide; [|apply Hc].
    intros [= <-]. unfold player_ok. simpl. by exists a, b.
Qed.

(** The second half, when it happens: the room is finalized. *)
Lemma finalized_consistent db1 db2 code room result :
  consistent db1 → rooms db1 !! code = Some room →
  count_players db1 code = Room.max_players room → all_submitted db1 code →
  finalized room result db1 db2 →
  consistent db2 ∧ completed db2 code ∧ (∀ c, c ≠ code → frozen c db1 db2).
Proof.
  intros Hc Hr Hfull Hall (Hcalc & Hrooms & Har & Hnone & Hother & Hroom).
  pose proof (room_keys _ Hc _ _ Hr) as Hcode. rewrite Hcode in *.
  pose proof (room_keys _ Hc _ _ Hr) as Hcode'.
  assert (∀ k q, players db2 !! k = Some q →
                 ∃ p, players db1 !! k = Some p ∧ same_but_payout p q ∧
                      (Player.room_code p = code → is_Some (Player.payout q))) as Hback.
  { intros k q Hq. destruct (players db1 !! k) as [p|] eqn:Hp.
    - exists p. split; [done|]. destruct (decide (Player.room_code p = code)) as [Hin|Hout].
      + destruct (Hroom k p Hp Hin) as (r & _ & _ & Hq'). rewrite Hq' in Hq.
        injection Hq as <-. split; [right; by eexists|]. by eexists.
      + rewrite (Hother k p Hp Hout) in Hq. injection Hq as <-. split; [by left|done].
    - rewrite (Hnone k Hp) in Hq. discriminate. }
  assert (∀ k p, players db1 !! k = Some p →
                 ∃ q, players db2 !! k = Some q ∧ same_but_payout p q) as Hforth.
  { intros k p Hp. destruct (decide (Player.room_code p = code)) as [Hin|Hout].
    - destruct (Hroom k p Hp Hin) as (r & _ & _ & Hq'). eexists. split; [done|].
      right. by eexists.
    - exists p. split; [by apply Hother|by left]. }
  assert (∀ c, count_players db2 c = count_players db1 c) as Hcount.
  { intros c. unfold count_players, count_where. f_equal.
    assert (∀ t1 t2 : gmap string Player.t,
              (∀ k p, t1 !! k = Some p → ∃ q, t2 !! k = Some q ∧ same_but_payout p q) →
              (∀ k, t1 !! k = None → t2 !! k = None) →
              length (filter (λ p, in_room c p = true) (rows t1))
              = length (filter (λ p, in_room c p = true) (rows t2))) as Hgen.
    { clear. intros t1. induction t1 as [|k p t1 Hk IH] using map_ind; intros t2 Hsome Hnone.
      - assert (t2 = ∅) as -> by (apply map_eq; intros k; rewrite lookup_empty; by apply Hnone).
        done.
      - destruct (Hsome k p) as (q & Hq & Hrel); [apply lookup_insert_eq|].
        rewrite (count_where_perm (in_room c) _ _ (rows_insert_fresh t1 k p Hk)).
        rewrite (count_where_perm (in_room c) _ _ (rows_delete t2 k q Hq)).
        rewrite !filter_cons.
        assert (in_room c q = in_room c p) as Hpq.
        { unfold in_room. by destruct Hrel as [->|[v ->]]. }
        specialize (IH (delete k t2)).
        assert (length (filter (λ p, in_room c p = true) (rows t1))
                = length (filter (λ p, in_room c p = true) (rows (delete k t2)))) as IH'.
        { apply IH.
          + intros k' p' Hp'. assert (k' ≠ k) by congruence.
            destruct (Hsome k' p') as (q' & Hq' & Hrel'); [by rewrite lookup_insert_ne|].
            exists q'. by rewrite lookup_delete_ne.
          + intros k' Hk'. destruct (decide (k' = k)) as [->|Hne]; [apply lookup_delete_eq|].
            rewrite lookup_delete_ne by done. apply Hnone. by rewrite lookup_insert_ne. }
        destruct (decide (in_room c p = true)), (decide (in_room c q = true));
          simpl; rewrite ?IH'; congruence. }
    symmetry. apply Hgen; [exact Hforth | exact Hnone]. }
  assert (∀ c q, q ∈ room_players db2 c →
                 ∃ p, p ∈ room_players db1 c ∧ same_but_payout p q ∧
                      (c = code → is_Some (Player.payout q))) as Hmem.
  { intros c q [Hq [k Hk]]%elem_of_room_players.
    destruct (Hback k q Hk) as (p & Hp & Hrel & Hpay).
    pose proof (same_but_payout_fields _ _ Hrel) as (_ & Hrc & _).
    exists p. split; [|split; [done|]].
    - apply elem_of_room_players. split; [congruence|eauto].
    - intros ->. apply Hpay. congruence. }
  split; [|split].
  - constructor.
    + intros c r. rewrite Hrooms, lookup_insert. case_decide; [|apply Hc].
      intros [= <-]. simpl. congruence.
    + intros k q Hq. destruct (Hback k q Hq) as (p & Hp & Hrel & _).
      apply same_but_payout_fields in Hrel as (-> & _). by eapply player_keys.
    + intros k q Hq. destruct (Hback k q Hq) as (p & Hp & Hrel & _).
      apply same_but_payout_fields in Hrel as (_ & -> & _).
      rewrite Hrooms, lookup_insert. case_decide; [by eexists|]. by eapply player_rooms.
    + apply (rowids_ok_same db1); [apply Hc | done |].
      intros k. split.
      * intros [q Hq]. destruct (Hback k q Hq) as (p & Hp & _). by eexists.
      * intros [p Hp]. destruct (Hforth k p Hp) as (q & Hq & _). by eexists.
    + intros c r. rewrite Hrooms, lookup_insert. case_decide as Hcc.
      * intros [= <-]. subst c. pose proof (rooms_ok _ Hc _ _ Hr) as [Hmax _].
        split; [done|]. simpl. rewrite Hcode', Hcount. split; [done|].
        intros q Hq. destruct (Hmem code q Hq) as (p & Hp & Hrel & Hpay).
        split; [|by apply Hpay]. specialize (Hall p Hp).
        apply same_but_payout_fields in Hrel as (_ & _ & _ & _ & _ & Hs & _).
        unfold has_submitted in *. by rewrite Hs.
      * intros Hrc. pose proof (room_keys _ Hc _ _ Hrc) as Hrcode.
        eapply room_ok_transfer; [| |by eapply rooms_ok].
        -- by rewrite Hcount.
        -- rewrite Hrcode. intros q Hq. destruct (Hmem c q Hq) as (p & ? & ? & _). eauto.
    + intros k q Hq. destruct (Hback k q Hq) as (p & Hp & Hrel & Hpay).
      pose proof (players_ok _ Hc _ _ Hp) as Hok.
      destruct (decide (Player.room_code p = code)) as [Hin|Hout].
      * destruct Hrel as [->|[v ->]]; [done|].
        assert (has_submitted p = true) as Hs by (apply Hall, elem_of_room_players; eauto).
        unfold player_ok, has_submitted in *. simpl.
        by destruct (Player.submitted_at p).
      * rewrite (Hother k p Hp Hout) in Hq. by injection Hq as <-.
  - exists (Room.with_status room STATUS_COMPLETED). by rewrite Hrooms, lookup_insert_eq.
  - intros c Hne. split; [by rewrite Hrooms, lookup_insert_ne|].
    intros k q Hq. split.
    + intros Hk. destruct (Hback k q Hk) as (p & Hp & Hrel & _).
      pose proof (same_but_payout_fields _ _ Hrel) as (_ & Hrc & _).
      rewrite (Hother k p Hp) in Hk by congruence. congruence.
    + intros Hk. apply Hother; [done|congruence].
Qed.

Lemma submit_allocation_spec db code player_id a b now p room :
  consistent db → 0 ≤ a ≤ 100 → 0 ≤ b ≤ 100 → a + b = 100 →
  players db !! player_id = Some p → Player.room_code p = code →
  Player.submitted_at p = None → rooms db !! code = Some room →
  2 ≤ count_players db code →
  let p1 := Player.with_allocation p a b now in
  let db1 := mkDB (rooms db) (<[player_id := p1]> (players db)) (arrivals db) in
  (count_players db1 code = Room.max_players room ∧ all_submitted db1 code →
     ∃ result db2 r,
       GameService.submit_allocation code player_id a b now db
       = (Ok (Player.with_payout p1 (PlayerPayout.payout r), Some result), db2) ∧
       r ∈ GameResult.players result ∧ PlayerPayout.player_id r = player_id ∧
       finalized room result db1 db2) ∧
  (¬ (count_players db1 code = Room.max_players room ∧ all_submitted db1 code) →
     GameService.submit_allocation code player_id a b now db = (Ok (p1, None), db1)).
Proof.
  intros Hc Ha Hb Hsum Hp Hroom Hnone Hr Hcount p1 db1.
  destruct (submit_update_consistent db code player_id p a b now room)
    as (Hc1 & Hnot & Hcount1 & Hfrozen); try done.
  fold p1 db1 in Hc1, Hcount1, Hfrozen.
  pose proof (player_keys _ Hc _ _ Hp) as Hid.
  pose proof (room_keys _ Hc _ _ Hr) as Hcode.
  assert (rooms db1 !! code = Some room) as Hr1 by done.
  assert (players db1 !! player_id = Some p1) as Hp1 by apply lookup_insert_eq.
  pose proof (room_ok_count _ _ (rooms_ok _ Hc1 _ _ Hr1)) as Hle. rewrite Hcode in Hle.
  pose proof (rooms_ok _ Hc _ _ Hr) as [Hmax _].
  rewrite submit_allocation_unfold by apply Hc.
  rewrite (proj2 (Z.eqb_eq _ _) Hsum), Hp. cbn [negb].
  rewrite bool_decide_eq_true_2 by done. cbn [negb]. rewrite Hr.
  rewrite (proj2 (Z.ltb_ge _ _) Hcount), Hnone.
  rewrite (proj2 (fits_integer_int64 a)) by (unfold int64; lia).
  rewrite (proj2 (fits_integer_int64 b)) by (unfold int64; lia).
  cbn [andb negb]. cbv zeta. fold p1 db1.
  destruct (all_players_submitted_spec room db1) as (all_in & -> & Hall).
  rewrite Hcode in Hall. split.
  - intros [Hfull Hsub].
    pose proof (Hcount1 code) as Hsame.
    assert (all_in = true) as -> by (apply Hall; split; [lia | split; [lia | done]]).
    destruct (finalize_room_spec [p1] room db1) as (result & players' & db2 & Hfin & Hfz & Hobj).
    + by apply player_keys.
    + apply Hc1.
    + by rewrite Hcode.
    + intros q ->%list_elem_of_singleton. subst p1. cbn [Player.with_allocation Player.id].
      by rewrite Hid.
    + rewrite Hcode. lia.
    + rewrite Hcode. intros q Hq. specialize (Hsub q Hq).
      apply elem_of_room_players in Hq as [_ [k Hk]].
      pose proof (players_ok _ Hc1 _ _ Hk) as Hok. unfold player_ok, has_submitted in *.
      destruct (Player.submitted_at q); [|done].
      destruct Hok as (qa & qb & ? & ? & ? & ? & _). by exists qa, qb.
    + rewrite Hfin. cbn [fst snd].
      destruct (Hobj p1) as (r & Hrin & Hrid & Hrow).
      { rewrite Hcode. apply elem_of_room_players. split; [done|]. by exists player_id. }
      exists result, db2, r. rewrite Hrow. split; [done|]. split; [done|].
      split; [|done]. by rewrite Hrid.
  - intros Hnotfull.
    assert (all_in = false) as ->; [|done].
    apply not_true_is_false. intros Htrue%Hall. apply Hnotfull.
    pose proof (Hcount1 code) as Hsame. split; [lia | apply Htrue].
Qed.

End Submit.
(** ** Requests served one at a time *)

Section Runs.

Lemma all_submitted_Forall db code :
  all_submitted db code ↔ Forall (λ p, has_submitted p = true) (room_players db code).
Proof. unfold all_submitted. by rewrite Forall_forall. Qed.

Lemma all_submitted_dec db code : Decision (all_submitted db code).
Proof.
  destruct (decide (Forall (λ p, has_submitted p = true) (room_players db code))) as [H|H].
  - left. by apply all_submitted_Forall.
  - right. by rewrite all_submitted_Forall.
Defined.

Lemma completed_frozen c db db' : frozen c db db' → completed db c → completed db' c.
Proof. intros [Hr _] (room & Hroom & Hdone). exists room. by rewrite Hr. Qed.

Lemma submit_allocation_ok code player_id a b now db r db' :
  consistent db → 0 ≤ a ≤ 100 → 0 ≤ b ≤ 100 →
  GameService.submit_allocation code player_id a b now db = (r, db') →
  consistent db' ∧ (∀ c, completed db c → frozen c db db') ∧
  (∀ p result, r = Ok (p, Some result) → completed db' code ∧ ¬ completed db code).
Proof.
  intros Hc Ha Hb Heq.
  assert (∀ e, (Raise e, db) = (r, db') →
               consistent db' ∧ (∀ c, completed db c → frozen c db db') ∧
               (∀ p result, r = Ok (p, Some result) → completed db' code ∧ ¬ completed db code))
    as Hfail.
  { intros e [= <- <-]. split; [done|]. split; [intros; apply frozen_refl | done]. }
  pose proof Heq as Heq'. rewrite submit_allocation_unfold in Heq' by apply Hc.
  destruct (a + b =? 100) eqn:Hsum; [|exact (Hfail _ Heq')]. apply Z.eqb_eq in Hsum.
  cbn [negb] in Heq'.
  destruct (players db !! player_id) as [p|] eqn:Hp; [|exact (Hfail _ Heq')].
  destruct (bool_decide (Player.room_code p = code)) eqn:Hroom; [|exact (Hfail _ Heq')].
  apply bool_decide_eq_true in Hroom. cbn [negb] in Heq'.
  destruct (rooms db !! code) as [room|] eqn:Hr; [|exact (Hfail _ Heq')].
  destruct (count_players db code <? 2) eqn:Hcount; [exact (Hfail _ Heq')|].
  apply Z.ltb_ge in Hcount.
  destruct (Player.submitted_at p) eqn:Hnone; [exact (Hfail _ Heq')|]. clear Heq' Hfail.
  destruct (submit_update_consistent db code player_id p a b now room)
    as (Hc1 & Hnot & Hcount1 & Hfrozen); try done.
  destruct (submit_allocation_spec db code player_id a b now p room) as [Hfull Hpart];
    try done.
  set (db1 := mkDB (rooms db) (<[player_id := Player.with_allocation p a b now]> (players db))
                (arrivals db)) in *.
  destruct (decide (count_players db1 code = Room.max_players room)) as [Hn|Hn];
    [destruct (all_submitted_dec db1 code) as [Hall|Hall]|].
  - destruct Hfull as (result & db2 & r0 & Hout & _ & _ & Hfin); [done|].
    rewrite Heq in Hout. injection Hout as -> ->.
    destruct (finalized_consistent db1 db2 code room result) as (Hc2 & Hdone & Hfrozen2);
      try done.
    split; [done|]. split.
    + intros c Hcompl. assert (c ≠ code) as Hne by (intros ->; done).
      eapply frozen_trans; [by apply Hfrozen | by apply Hfrozen2].
    + by intros ? ? _.
  - rewrite Hpart in Heq by tauto. injection Heq as <- <-.
    split; [done|]. split; [|done].
    intros c Hcompl. apply Hfrozen. by intros ->.
  - rewrite Hpart in Heq by tauto. injection Heq as <- <-.
    split; [done|]. split; [|done].
    intros c Hcompl. apply Hfrozen. by intros ->.
Qed.

(** A read changes nothing. *)
Lemma list_players_unfold code db :
  GameService.list_players code db =
  match rooms db !! code with
  | None => (Raise (HTTPException HTTP_404_NOT_FOUND "Room not found"), db)
  | Some _ => (Ok (select_players code db), db)
  end.
Proof.
  unfold GameService.list_players. rewrite run_then, get_room_unfold.
  by destruct (rooms db !! code).
Qed.

Lemma room_detail_unfold code db :
  rooms_router.room_detail code db =
  match rooms db !! code with
  | None => (Raise (HTTPException HTTP_404_NOT_FOUND "Room not found"), db)
  | Some room =>
      (Ok (Body_RoomDetail room (rooms_router._serialize_player <$> select_players code db), []),
       db)
  end.
Proof.
  unfold rooms_router.room_detail. rewrite run_then, get_room_unfold.
  destruct (rooms db !! code) as [room|] eqn:Hroom; [|done].
  by rewrite run_then, list_players_unfold, Hroom.
Qed.

Lemma step_ok_quiet db db' events :
  consistent db' → (∀ c, completed db c → frozen c db db') →
  (∀ c, finalizations c events = 0%nat) →
  step_ok db db' events.
Proof.
  intros Hc Hfrozen Hquiet. split; [done|]. intros c. rewrite Hquiet.
  split; [by auto|]. split; [lia | done].
Qed.

Lemma step_ok_refl db : consistent db → step_ok db db [].
Proof. intros Hc. apply step_ok_quiet; [done | intros; apply frozen_refl | done]. Qed.

Lemma finalizations_app code ev1 ev2 :
  finalizations code (ev1 ++ ev2) = (finalizations code ev1 + finalizations code ev2)%nat.
Proof. unfold finalizations. by rewrite filter_app, length_app. Qed.

Lemma step_ok_trans db1 db2 db3 ev1 ev2 :
  step_ok db1 db2 ev1 → step_ok db2 db3 ev2 → step_ok db1 db3 (ev1 ++ ev2).
Proof.
  intros [Hc2 H12] [Hc3 H23]. split; [done|]. intros c.
  destruct (H12 c) as (Hdone1 & Hle1 & Hone1). destruct (H23 c) as (Hdone2 & Hle2 & Hone2).
  rewrite finalizations_app. split; [|split].
  - intros Hcompl. destruct (Hdone1 Hcompl) as [Hf1 ->].
    destruct (Hdone2 (completed_frozen _ _ _ Hf1 Hcompl)) as [Hf2 ->].
    split; [by eapply frozen_trans | done].
  - destruct (decide (finalizations c ev1 = 1%nat)) as [H1|H1]; [|lia].
    destruct (Hone1 H1) as [Hcompl _]. destruct (Hdone2 Hcompl) as [_ ->]. lia.
  - intros Hsum.
    destruct (decide (finalizations c ev1 = 1%nat)) as [H1|H1].
    + destruct (Hone1 H1) as [Hcompl Hnot]. destruct (Hdone2 Hcompl) as [Hf _].
      split; [by eapply completed_frozen | done].
    + assert (finalizations c ev2 = 1%nat) as H2 by lia.
      destruct (Hone2 H2) as [Hcompl Hnot]. split; [done|].
      intros Hc1. destruct (Hdone1 Hc1) as [Hf _]. apply Hnot. by eapply completed_frozen.
Qed.

Lemma serve_ok req db events db' :
  consistent db → serve req db = (events, db') → step_ok db db' events.
Proof.
  intros Hc. unfold serve, served.
  destruct req as [payload draws|code|code payload uuid now|code payload now|code pid];
    cbn [handler].
  - unfold rooms_router.create_room, rooms_router.validated.
    destruct (rooms_router.valid_RoomCreate payload);
      [|intros [= <- <-]; by apply step_ok_refl].
    rewrite run_then.
    destruct (GameService.create_room payload draws db) as [[room|e] db1] eqn:Hop;
      intros [= <- <-]; destruct (create_room_ok _ _ _ _ _ Hc Hop); by apply step_ok_quiet.
  - rewrite room_detail_unfold. destruct (rooms db !! code);
      intros [= <- <-]; by apply step_ok_refl.
  - unfold rooms_router.join_room, rooms_router.validated.
    destruct (rooms_router.valid_PlayerCreate payload);
      [|intros [= <- <-]; by apply step_ok_refl].
    rewrite run_then.
    destruct (GameService.join_room code _ uuid now db) as [[player|e] db1] eqn:Hop;
      intros [= <- <-]; destruct (join_room_ok _ _ _ _ _ _ _ Hc Hop); by apply step_ok_quiet.
  - unfold rooms_router.submit_allocation, rooms_router.validated.
    destruct (rooms_router.valid_SubmitAllocation payload) eqn:Hvalid;
      [|intros [= <- <-]; by apply step_ok_refl].
    unfold rooms_router.valid_SubmitAllocation in Hvalid.
    apply andb_true_iff in Hvalid as [Hvalid Hb2%Z.leb_le].
    apply andb_true_iff in Hvalid as [Hvalid Hb1%Z.leb_le].
    apply andb_true_iff in Hvalid as [Ha1%Z.leb_le Ha2%Z.leb_le].
    rewrite run_then.
    destruct (GameService.submit_allocation code _ _ _ now db) as [[[p res]|e] db1] eqn:Hop;
      intros [= <- <-];
      destruct (submit_allocation_ok _ _ _ _ _ _ _ _ Hc (conj Ha1 Ha2) (conj Hb1 Hb2) Hop)
        as (Hc1 & Hfrozen & Hfin); [|by apply step_ok_quiet].
    destruct res as [result|]; [|by apply step_ok_quiet].
    destruct (Hfin p result eq_refl) as [Hdone Hnot].
    split; [done|]. intros c. simpl. unfold finalizations. simpl.
    rewrite filter_cons, filter_cons, filter_nil. simpl.
    destruct (decide (code = c)) as [->|Hne].
    + rewrite bool_decide_eq_true_2 by done. rewrite decide_True by done. simpl.
      split; [done|]. split; [lia|done].
    + rewrite bool_decide_eq_false_2 by done. rewrite decide_False by done. simpl.
      split; [by auto|]. split; [lia|done].
  - unfold rooms_router.leave_room. rewrite run_then.
    destruct (GameService.leave_room code pid db) as [[left|e] db1] eqn:Hop;
      intros [= <- <-]; destruct (leave_room_ok _ _ _ _ _ Hc Hop); by apply step_ok_quiet.
Qed.

Lemma serve_all_ok reqs db events db' :
  consistent db → serve_all reqs db = (events, db') → step_ok db db' events.
Proof.
  revert db events db'. induction reqs as [|req later IH]; intros db events db' Hc; simpl.
  - intros [= <- <-]. by apply step_ok_refl.
  - destruct (serve req db) as [ev1 db1] eqn:Hstep.
    destruct (serve_all later db1) as [ev2 db2] eqn:Hrest. intros [= <- <-].
    pose proof (serve_ok _ _ _ _ Hc Hstep) as H1.
    eapply step_ok_trans; [exact H1|]. apply IH; [apply H1 | done].
Qed.

Lemma empty_db_consistent : consistent empty_db.
Proof.
  constructor; simpl; try (intros ? ?; by rewrite lookup_empty).
  split; [apply NoDup_nil_2|]. intros k. simpl. rewrite lookup_empty. split.
  - by intros ?%elem_of_nil.
  - by intros [? ?].
Qed.

Lemma serially_reachable_consistent db : serially_reachable db → consistent db.
Proof.
  intros [reqs <-]. destruct (serve_all reqs empty_db) as [events db'] eqn:Hrun.
  by destruct (serve_all_ok _ _ _ _ empty_db_consistent Hrun).
Qed.

End Runs.
(** ** Requests in flight *)

Section Pool.

Lemma turns_app s1 s2 pool : turns (s1 ++ s2) pool = turns s2 (turns s1 pool).
Proof. unfold turns. apply fold_left_app. Qed.

(** A request that takes its turns with no other request in between is
    served as [served] says. *)
Lemma whole_call i call cs db events0 :
  cs !! i = Some (Running call) →
  ∃ n outcome,
    turns (replicate n i) (mkPool cs db events0)
    = mkPool (<[i := Returned outcome]> cs) (served call db).2
        (events0 ++ (served call db).1).
Proof.
  revert cs db. induction call as [[body events]|e|B stmt k IH]; intros cs db Hi.
  - exists 1%nat, (Ok body). unfold turns, turn, served. simpl. by rewrite Hi.
  - exists 1%nat, (Raise e). unfold turns, turn, served. simpl. by rewrite Hi, app_nil_r.
  - assert (i < length cs)%nat as Hlt by by eapply lookup_lt_Some.
    destruct (stmt db) as [[b|e] db1] eqn:Hstmt.
    + destruct (IH b (<[i := Running (k b)]> cs) db1) as (n & outcome & Hn).
      { by apply list_lookup_insert_eq. }
      exists (S n), outcome. cbn [replicate]. unfold turns in *. cbn [fold_left].
      unfold turn at 2. cbn [calls store published]. rewrite Hi, Hstmt, Hn.
      rewrite list_insert_insert_eq. unfold served. simpl. by rewrite Hstmt.
    + exists 2%nat, (Raise e). unfold turns. cbn [replicate fold_left].
      unfold turn at 2. cbn [calls store published]. rewrite Hi, Hstmt.
      unfold turn. cbn [calls store published]. rewrite list_lookup_insert_eq by done.
      rewrite list_insert_insert_eq. unfold served. simpl. by rewrite Hstmt, app_nil_r.
Qed.

Lemma serve_all_turns reqs before db events0 :
  ∃ schedule after,
    turns schedule (mkPool (before ++ (Running ∘ handler <$> reqs)) db events0)
    = mkPool (before ++ after) (serve_all reqs db).2 (events0 ++ (serve_all reqs db).1).
Proof.
  revert before db events0. induction reqs as [|req later IH]; intros before db events0.
  - exists [], []. simpl. by rewrite !app_nil_r.
  - destruct (whole_call (length before) (handler req)
                (before ++ (Running ∘ handler <$> req :: later)) db events0)
      as (n & outcome & Hn).
    { by rewrite fmap_cons, list_lookup_middle. }
    rewrite fmap_cons in Hn. rewrite <- (Nat.add_0_r (length before)) in Hn at 2.
    rewrite insert_app_r in Hn. cbn [list_insert insert] in Hn.
    destruct (IH (before ++ [Returned outcome]) (served (handler req) db).2
                (events0 ++ (served (handler req) db).1)) as (schedule & after & Hrest).
    exists (replicate n (length before) ++ schedule), (Returned outcome :: after).
    rewrite turns_app, fmap_cons, Hn.
    rewrite (cons_middle (Returned outcome)), !app_assoc, Hrest.
    cbn [serve_all]. fold (serve req db).
    destruct (serve req db) as [events db1]. cbn [fst snd].
    destruct (serve_all later db1) as [events' db2]. cbn [fst snd].
    by rewrite <- !app_assoc.
Qed.

(** Requests served one at a time are a run of the pool. *)
Lemma serve_all_concurrent_run reqs :
  ∃ schedule,
    store (concurrent_run reqs schedule) = (serve_all reqs empty_db).2 ∧
    published (concurrent_run reqs schedule) = (serve_all reqs empty_db).1.
Proof.
  destruct (serve_all_turns reqs [] empty_db []) as (schedule & after & Hrun).
  exists schedule. unfold concurrent_run. rewrite app_nil_l in Hrun. by rewrite Hrun.
Qed.

End Pool.
(** ** The coordinator: capacity, status and finalization *)

Section Coordinator.

Lemma sample_game_reachable n : serially_reachable (serve_all (take n Sample.game) empty_db).2.
Proof. by exists (take n Sample.game). Qed.

(** C3. When requests are served one at a time, no room ever holds more
    players than its [max_players] in the state a request leaves; and in
    every state [join_room] on a room that is already full raises HTTP 400
    "Room is full" and creates no player. *)
Theorem capacity_never_exceeded :
  (∀ db code room,
     serially_reachable db → rooms db !! code = Some room →
     count_players db code ≤ Room.max_players room) ∧
  (∀ db code room display_name uuid now,
     rooms db !! code = Some room →
     Room.max_players room ≤ count_players db code →
     GameService.join_room code display_name uuid now db
     = (Raise (HTTPException HTTP_400_BAD_REQUEST "Room is full"), db)).
Proof.
  split.
  - intros db code room Hreach Hroom. apply serially_reachable_consistent in Hreach.
    pose proof (room_ok_count _ _ (rooms_ok _ Hreach _ _ Hroom)) as Hle.
    by rewrite (room_keys _ Hreach _ _ Hroom) in Hle.
  - intros db code room display_name uuid now Hroom Hfull. by eapply join_room_full.
Qed.

Lemma capacity_never_exceeded_witness :
  count_players (serve_all Sample.game empty_db).2 "ROOM01" ≤ 2 ∧
  GameService.join_room "ROOM01" "Cid" "p3" 5 Sample.db
  = (Raise (HTTPException HTTP_400_BAD_REQUEST "Room is full"), Sample.db).
Proof.
  destruct capacity_never_exceeded as [Hcap Hfull]. split.
  - apply (Hcap _ "ROOM01" (Room.mk "ROOM01" 2 STATUS_COMPLETED)).
    + exact (sample_game_reachable 5).
    + vm_compute. reflexivity.
  - apply (Hfull Sample.db "ROOM01" Sample.room); [reflexivity|]. vm_compute. discriminate.
Defined.

(** Two joins that overlap both find one player in the room of two
    seats, and both insert: the room holds three players, and all three
    were answered with their player. *)
Lemma concurrent_joins_exceed_capacity :
  rooms (store (concurrent_run Sample.three_joins Sample.joins_overlap)) !! "ROOM01"
  = Some (Room.mk "ROOM01" 2 STATUS_READY) ∧
  count_players (store (concurrent_run Sample.three_joins Sample.joins_overlap)) "ROOM01" = 3 ∧
  accepted (calls (concurrent_run Sample.three_joins Sample.joins_overlap) !! 1%nat) = true ∧
  accepted (calls (concurrent_run Sample.three_joins Sample.joins_overlap) !! 2%nat) = true ∧
  accepted (calls (concurrent_run Sample.three_joins Sample.joins_overlap) !! 3%nat) = true.
Proof. vm_compute. repeat split; reflexivity. Qed.

(** C7. When requests are served one at a time, a room is Ready only
    while it is full and not finalized: in the state a request leaves, a
    Ready room holds exactly [max_players] players and no result has been
    announced for it.  In such a state [join_room] on a room with a free
    seat adds the player and leaves the room Ready exactly when it now
    holds [max_players] players, and [leave_room] of a player of a Ready
    room removes the player, so that the count is below [max_players],
    and puts the room back to Waiting. *)
Theorem ready_only_while_full :
  (∀ reqs code room,
     rooms (serve_all reqs empty_db).2 !! code = Some room →
     Room.status room = STATUS_READY →
     count_players (serve_all reqs empty_db).2 code = Room.max_players room ∧
     finalizations code (serve_all reqs empty_db).1 = 0%nat) ∧
  (∀ db code room display_name uuid now,
     serially_reachable db → rooms db !! code = Some room →
     count_players db code < Room.max_players room → players db !! uuid = None →
     ∃ player db' room',
       GameService.join_room code display_name uuid now db = (Ok player, db') ∧
       players db' !! uuid = Some player ∧
       count_players db' code = count_players db code + 1 ∧
       rooms db' !! code = Some room' ∧
       (Room.status room' = STATUS_READY
        ↔ count_players db' code = Room.max_players room')) ∧
  (∀ db code player_id player room,
     serially_reachable db → rooms db !! code = Some room →
     Room.status room = STATUS_READY →
     players db !! player_id = Some player → Player.room_code player = code →
     ∃ room' db',
       GameService.leave_room code player_id db = (Ok (player, room'), db') ∧
       players db' !! player_id = None ∧
       count_players db' code < Room.max_players room ∧
       rooms db' !! code = Some room' ∧ Room.status room' = STATUS_WAITING).
Proof.
  split; [|split].
  - intros reqs code room Hroom Hready.
    destruct (serve_all reqs empty_db) as [events db] eqn:Hrun. simpl in *.
    destruct (serve_all_ok _ _ _ _ empty_db_consistent Hrun) as [Hc Hfin].
    pose proof (rooms_ok _ Hc _ _ Hroom) as [_ Hst].
    rewrite Hready, (room_keys _ Hc _ _ Hroom) in Hst. split; [done|].
    destruct (Hfin code) as (_ & Hle & Hone).
    destruct (decide (finalizations code events = 1%nat)) as [H1|H1]; [|lia].
    destruct (Hone H1) as [(room0 & Hroom0 & Hdone) _]. congruence.
  - intros db code room display_name uuid now Hreach Hroom Hfree Hfresh.
    apply serially_reachable_consistent in Hreach.
    rewrite join_room_unfold by apply Hreach. rewrite Hroom.
    rewrite Z.geb_leb, (proj2 (Z.leb_gt _ _)) by lia. rewrite Hfresh. cbv zeta.
    pose proof (room_keys _ Hreach _ _ Hroom) as Hcode.
    pose proof (rooms_ok _ Hreach _ _ Hroom) as [_ Hst]. rewrite Hcode in Hst.
    assert (Room.status room = STATUS_WAITING) as Hwaiting.
    { destruct (Room.status room); [done|lia|]. destruct Hst. lia. }
    destruct (count_players db code + 1 =? Room.max_players room) eqn:Hfill;
      (eexists _, _, _; split; [done|]; split; [apply lookup_insert_eq|]);
      rewrite count_players_insert_fresh by done; cbn [Player.room_code];
      rewrite Hcode, bool_decide_eq_true_2 by done; (split; [done|]); cbn [rooms].
    + rewrite lookup_insert_eq. split; [done|]. simpl. apply Z.eqb_eq in Hfill. by split.
    + split; [done|]. apply Z.eqb_neq in Hfill. rewrite Hwaiting. split; [done|lia].
  - intros db code player_id player room Hreach Hroom Hready Hplayer Hin.
    apply serially_reachable_consistent in Hreach.
    pose proof (rooms_ok _ Hreach _ _ Hroom) as [_ Hst].
    pose proof (room_keys _ Hreach _ _ Hroom) as Hcode.
    rewrite Hready, Hcode in Hst.
    rewrite leave_room_unfold by apply Hreach. rewrite Hplayer.
    rewrite bool_decide_eq_true_2 by done. cbn [negb]. rewrite Hroom.
    rewrite bool_decide_eq_false_2 by congruence. cbv zeta.
    assert (∀ rs ar, count_players (mkDB rs (delete (Player.id player) (players db)) ar) code
                     = count_players db code - 1) as Hcount.
    { intros rs ar. rewrite (player_keys _ Hreach _ _ Hplayer).
      rewrite (count_players_delete db player_id player) by done.
      by rewrite bool_decide_eq_true_2. }
    pose proof (Hcount (rooms db) (arrivals db)) as Hcount0.
    unfold count_players at 1 in Hcount0. cbn [players] in Hcount0. rewrite Hcount0.
    rewrite (proj2 (Z.ltb_lt _ _)) by lia.
    rewrite bool_decide_eq_true_2 by done. cbn [andb].
    eexists _, _. split; [done|]. rewrite Hcount. cbn [players rooms].
    split; [rewrite (player_keys _ Hreach _ _ Hplayer); apply lookup_delete_eq|].
    split; [lia|]. split; [|done]. by rewrite Hcode, lookup_insert_eq.
Qed.

Lemma ready_only_while_full_witness :
  (count_players (serve_all (take 3 Sample.game) empty_db).2 "ROOM01" = 2 ∧
   finalizations "ROOM01" (serve_all (take 3 Sample.game) empty_db).1 = 0%nat) ∧
  (∃ player db' room',
     GameService.join_room "ROOM01" "Bob" "p2" 2 (serve_all (take 2 Sample.game) empty_db).2
     = (Ok player, db') ∧
     players db' !! "p2" = Some player ∧
     count_players db' "ROOM01"
     = count_players (serve_all (take 2 Sample.game) empty_db).2 "ROOM01" + 1 ∧
     rooms db' !! "ROOM01" = Some room' ∧
     (Room.status room' = STATUS_READY ↔ count_players db' "ROOM01" = Room.max_players room')) ∧
  (∃ room' db',
     GameService.leave_room "ROOM01" "p1" (serve_all (take 3 Sample.game) empty_db).2
     = (Ok (Sample.ann, room'), db') ∧
     players db' !! "p1" = None ∧
     count_players db' "ROOM01" < 2 ∧
     rooms db' !! "ROOM01" = Some room' ∧ Room.status room' = STATUS_WAITING).
Proof.
  destruct ready_only_while_full as (Hready & Hjoin & Hleave). split; [|split].
  - apply (Hready (take 3 Sample.game) "ROOM01" Sample.room); vm_compute; reflexivity.
  - apply (Hjoin _ "ROOM01" (Room.mk "ROOM01" 2 STATUS_WAITING)).
    + exact (sample_game_reachable 2).
    + vm_compute. reflexivity.
    + vm_compute. reflexivity.
    + vm_compute. reflexivity.
  - apply (Hleave _ "ROOM01" "p1" Sample.ann Sample.room).
    + exact (sample_game_reachable 3).
    + vm_compute. reflexivity.
    + reflexivity.
    + vm_compute. reflexivity.
    + reflexivity.
Defined.

(** [leave_room] commits its DELETE before it commits the status: a
    request for the room that is served between the two finds it Ready
    with one player for its two seats. *)
Lemma ready_room_seen_short :
  rooms (store (concurrent_run Sample.leave_observed Sample.read_between_commits)) !! "ROOM01"
  = Some (Room.mk "ROOM01" 2 STATUS_READY) ∧
  count_players (store (concurrent_run Sample.leave_observed Sample.read_between_commits))
    "ROOM01" = 1 ∧
  calls (concurrent_run Sample.leave_observed Sample.read_between_commits) !! 4%nat
  = Some (Returned (Ok (Body_RoomDetail (Room.mk "ROOM01" 2 STATUS_READY)
                          [rooms_router._serialize_player Sample.bob]))).
Proof. vm_compute. repeat split; reflexivity. Qed.




Lemma finalized_payouts db1 db2 room result :
  (∀ k p, players db1 !! k = Some p → Player.id p = k) →
  finalized room result db1 db2 →
  ∀ q, q ∈ room_players db2 (Room.code room) →
       ∃ r, r ∈ GameResult.players result ∧
            PlayerPayout.player_id r = Player.id q ∧
            Player.payout q = Some (PlayerPayout.payout r).
Proof.
  intros Hkeys (_ & _ & _ & Hnone & Hother & Hin) q [Hq [k Hk]]%elem_of_room_players.
  destruct (players db1 !! k) as [p|] eqn:Hp; [|by rewrite (Hnone k Hp) in Hk].
  destruct (decide (Player.room_code p = Room.code room)) as [Hroom|Hroom].
  - destruct (Hin k p Hp Hroom) as (r & Hr & Hid & Hrow).
    rewrite Hrow in Hk. injection Hk as <-. exists r. simpl.
    split; [done|]. split; [|done]. by rewrite (Hkeys _ _ Hp).
  - rewrite (Hother k p Hp Hroom) in Hk. congruence.
Qed.

(** C2. When requests are served one at a time, the payout computation
    runs at most once per room: at most one result is announced for a
    room.  A [submit_allocation] that passes its checks returns, and it
    runs the computation exactly when, with this submission, every player
    of the room has submitted and the room holds [max_players] players;
    it then writes the payout of every player of the room and completes
    the room, and otherwise it stores the allocation only. *)
Theorem finalize_exactly_when_all_in :
  (∀ reqs code, (finalizations code (serve_all reqs empty_db).1 ≤ 1)%nat) ∧
  (∀ db code player_id a b now p room,
     serially_reachable db → 0 ≤ a ≤ 100 → 0 ≤ b ≤ 100 → a + b = 100 →
     rooms db !! code = Some room → players db !! player_id = Some p →
     Player.room_code p = code → Player.submitted_at p = None →
     2 ≤ count_players db code →
     let db1 := mkDB (rooms db)
                  (<[player_id := Player.with_allocation p a b now]> (players db))
                  (arrivals db) in
     ∃ player outcome db',
       GameService.submit_allocation code player_id a b now db = (Ok (player, outcome), db') ∧
       (is_Some outcome
        ↔ all_submitted db1 code ∧ count_players db1 code = Room.max_players room) ∧
       (outcome = None → db' = db1) ∧
       (∀ result, outcome = Some result →
          finalized room result db1 db' ∧
          (∃ room', rooms db' !! code = Some room' ∧
                    Room.status room' = STATUS_COMPLETED) ∧
          ∀ q, q ∈ room_players db' code →
               ∃ r, r ∈ GameResult.players result ∧
                    PlayerPayout.player_id r = Player.id q ∧
                    Player.payout q = Some (PlayerPayout.payout r))).
Proof.
  split.
  - intros reqs code. destruct (serve_all reqs empty_db) as [events db] eqn:Hrun. simpl.
    destruct (serve_all_ok _ _ _ _ empty_db_consistent Hrun) as [_ Hfin].
    by destruct (Hfin code) as (_ & Hle & _).
  - intros db code player_id a b now p room Hreach Ha Hb Hsum Hr Hp Hroom Hnone Hcount db1.
    apply serially_reachable_consistent in Hreach.
    destruct (submit_update_consistent db code player_id p a b now room)
      as (Hc1 & _); try done. fold db1 in Hc1.
    destruct (submit_allocation_spec db code player_id a b now p room) as [Hfull Hpart];
      try done. fold db1 in Hfull, Hpart.
    destruct (decide (count_players db1 code = Room.max_players room)) as [Hn|Hn];
      [destruct (all_submitted_dec db1 code) as [Hall|Hall]|].
    + destruct Hfull as (result & db2 & r0 & Hout & _ & _ & Hfin); [done|].
      eexists _, (Some result), db2. split; [exact Hout|].
      split; [split; [done | by eexists]|]. split; [done|].
      intros ? [= <-].
      destruct (finalized_consistent db1 db2 code room result) as (Hc2 & Hdone & _);
        try done.
      split; [done|]. split; [exact Hdone|].
      rewrite <- (room_keys _ Hreach _ _ Hr).
      eapply finalized_payouts; [|done]. by apply player_keys.
    + eexists _, None, db1. split; [apply Hpart; tauto|].
      split; [split; [by intros [? ?]|tauto]|]. split; done.
    + eexists _, None, db1. split; [apply Hpart; tauto|].
      split; [split; [by intros [? ?]|tauto]|]. split; done.
Qed.

Lemma finalize_exactly_when_all_in_witness :
  (finalizations "ROOM01" (serve_all Sample.game empty_db).1 ≤ 1)%nat ∧
  (∃ player outcome db',
     GameService.submit_allocation "ROOM01" "p1" 60 40 3
       (serve_all (take 3 Sample.game) empty_db).2 = (Ok (player, outcome), db') ∧
     outcome = None) ∧
  (∃ player outcome db',
     GameService.submit_allocation "ROOM01" "p2" 10 90 4
       (serve_all (take 4 Sample.game) empty_db).2 = (Ok (player, outcome), db') ∧
     is_Some outcome ∧
     ∃ room', rooms db' !! "ROOM01" = Some room' ∧ Room.status room' = STATUS_COMPLETED).
Proof.
  destruct finalize_exactly_when_all_in as [Honce Hsubmit]. split; [apply Honce|]. split.
  - destruct (Hsubmit (serve_all (take 3 Sample.game) empty_db).2 "ROOM01" "p1" 60 40 3
                Sample.ann Sample.room)
      as (player & outcome & db' & Hcall & Hiff & _);
      [exact (sample_game_reachable 3) | lia | lia | lia
      | vm_compute; reflexivity | vm_compute; reflexivity | reflexivity | reflexivity
      | vm_compute; discriminate |].
    exists player, outcome, db'. split; [exact Hcall|].
    destruct outcome as [result|]; [|reflexivity].
    destruct (proj1 Hiff) as [Hall _]; [by eexists|].
    specialize (Hall Sample.bob). exfalso.
    assert (has_submitted Sample.bob = true) as Hbob; [|discriminate Hbob].
    apply Hall. apply elem_of_room_players. split; [reflexivity|]. exists "p2".
    vm_compute. reflexivity.
  - destruct (Hsubmit (serve_all (take 4 Sample.game) empty_db).2 "ROOM01" "p2" 10 90 4
                Sample.bob Sample.room)
      as (player & outcome & db' & Hcall & Hiff & _ & Hfin);
      [exact (sample_game_reachable 4) | lia | lia | lia
      | vm_compute; reflexivity | vm_compute; reflexivity | reflexivity | reflexivity
      | vm_compute; discriminate |].
    exists player, outcome, db'. split; [exact Hcall|].
    assert (is_Some outcome) as [result ->].
    { apply Hiff. split; [|vm_compute; reflexivity].
      apply all_submitted_Forall.
      apply (bool_decide_unpack (Forall (λ p, has_submitted p = true) _)).
      vm_compute. exact I. }
    split; [by eexists|]. by destruct (Hfin result eq_refl) as (_ & Hdone & _).
Defined.

(** The two last submissions overlap: each commits its allocation, then
    each finds that everyone has submitted, and each runs the payout
    computation: two results are announced for the room. *)
Lemma concurrent_submissions_finalize_twice :
  finalizations "ROOM01" (published (concurrent_run Sample.game Sample.submits_overlap))
  = 2%nat ∧
  status_of (store (concurrent_run Sample.game Sample.submits_overlap)) "ROOM01"
  = Some STATUS_COMPLETED ∧
  accepted (calls (concurrent_run Sample.game Sample.submits_overlap) !! 3%nat) = true ∧
  accepted (calls (concurrent_run Sample.game Sample.submits_overlap) !! 4%nat) = true.
Proof. vm_compute. repeat split; reflexivity. Qed.

End Coordinator.

(** ** The event broker *)

Section Broker.
Context {Event : Type}.
Variable json_dumps : Event → string.

Import RoomEventBroker.

Lemma foldr_put_lookup message (queues : list nat) (heap : gmap nat (list string)) q :
  NoDup queues →
  foldr (put message) heap queues !! q
  = if decide (q ∈ queues) then (λ pending, pending ++ [message]) <$> heap !! q
    else heap !! q.
Proof.
  induction queues as [|q0 queues IH]; intros Hnd.
  - cbn [foldr]. case_decide as Hin; [by apply elem_of_nil in Hin | done].
  - apply NoDup_cons in Hnd as [Hq0 Hnd]. cbn [foldr]. unfold put at 1.
    rewrite lookup_alter. specialize (IH Hnd).
    destruct (decide (q0 = q)) as [->|Hne].
    + rewrite IH. rewrite decide_False by done. rewrite decide_True by left. done.
    + rewrite IH. destruct (decide (q ∈ queues)) as [Hin|Hout].
      * rewrite decide_True by (by right). done.
      * rewrite decide_False; [done|]. rewrite not_elem_of_cons. by split.
Qed.

(** What [publish] does to each queue. *)
Lemma publish_pending room_code event b q :
  is_Some (items b !! q) →
  pending q (publish json_dumps room_code event b)
  = pending q b ++
    (if decide (q ∈ default ∅ (_subscribers b !! room_code)) then [json_dumps event] else []).
Proof.
  intros [waiting Hq]. unfold pending, publish. simpl.
  rewrite foldr_put_lookup by apply NoDup_elements. rewrite Hq.
  destruct (decide (q ∈ default ∅ (_subscribers b !! room_code))) as [Hin|Hout].
  - rewrite decide_True by (by apply elem_of_elements). done.
  - rewrite decide_False by (by rewrite elem_of_elements). simpl. by rewrite app_nil_r.
Qed.

Lemma well_formed_init : well_formed init.
Proof.
  constructor; simpl.
  - intros queue room_code. rewrite !lookup_empty. simpl. set_solver.
  - intros queue _. by rewrite !lookup_empty.
  - intros queue room_code. by rewrite lookup_empty.
Qed.

Lemma well_formed_subscribe room_code b :
  well_formed b → well_formed (subscribe room_code b).2.
Proof.
  intros [Hreg Hfresh Hqueue].
  destruct (Hfresh (allocated b)) as [Hgen0 Hitems0]; [done|].
  assert (∀ code, allocated b ∉ default ∅ (_subscribers b !! code)) as Hnotin.
  { intros code Hin. apply Hreg in Hin. congruence. }
  constructor; simpl.
  - intros queue code. rewrite !lookup_insert.
    destruct (decide (room_code = code)) as [->|Hcode]; simpl.
    + rewrite elem_of_union, elem_of_singleton, Hreg.
      case_decide as Hq; [subst queue|].
      * split; [done | by left].
      * split; [by intros [->|?] | by right].
    + rewrite Hreg. case_decide as Hq; [subst queue|done].
      split; [congruence|]. intros [= ?]. done.
  - intros queue Hle. destruct (Hfresh queue) as [Hg Hi]; [lia|].
    rewrite !lookup_insert_ne by lia. done.
  - intros queue code. rewrite !lookup_insert. case_decide; [by eexists|]. apply Hqueue.
Qed.

Lemma well_formed_publish room_code (event : Event) b :
  well_formed b → well_formed (publish json_dumps room_code event b).
Proof.
  intros [Hreg Hfresh Hqueue]. constructor; simpl; [done| |].
  - intros queue Hle. destruct (Hfresh queue Hle) as [Hg Hi]. split; [done|].
    rewrite foldr_put_lookup by apply NoDup_elements. rewrite Hi. by case_decide.
  - intros queue code Hg. destruct (Hqueue queue code Hg) as [waiting Hw].
    rewrite foldr_put_lookup by apply NoDup_elements. rewrite Hw. case_decide; by eexists.
Qed.

Lemma well_formed_next queue b : well_formed b → well_formed (next queue b).2.
Proof.
  intros Hwf. unfold next.
  destruct (generators b !! queue) as [code|] eqn:Hg; [|done].
  destruct (items b !! queue) as [[|payload waiting]|] eqn:Hi; [done| |done].
  destruct Hwf as [Hreg Hfresh Hqueue]. constructor; simpl; [done| |].
  - intros q Hle. destruct (Hfresh q Hle) as [Hgq Hiq]. split; [done|].
    rewrite lookup_insert_ne; [done|]. intros ->. congruence.
  - intros q c Hq. rewrite lookup_insert. case_decide; [by eexists|]. by eapply Hqueue.
Qed.

Lemma well_formed_unsubscribe queue b : well_formed b → well_formed (unsubscribe queue b).
Proof.
  intros Hwf. unfold unsubscribe.
  destruct (generators b !! queue) as [room_code|] eqn:Hg; [|done].
  destruct Hwf as [Hreg Hfresh Hqueue].
  assert (∃ subscribers, _subscribers b !! room_code = Some subscribers) as [subscribers Hs].
  { apply Hreg in Hg. destruct (_subscribers b !! room_code); [by eexists|].
    by apply elem_of_empty in Hg. }
  rewrite Hs. constructor; simpl.
  - intros q code. rewrite lookup_delete.
    assert (default ∅
              ((if decide (subscribers ∖ {[queue]} = ∅)
                then delete room_code (_subscribers b)
                else <[room_code := subscribers ∖ {[queue]}]> (_subscribers b)) !! code)
            = if decide (code = room_code) then subscribers ∖ {[queue]}
              else default ∅ (_subscribers b !! code)) as ->.
    { destruct (decide (subscribers ∖ {[queue]} = ∅)) as [Hempty|Hne].
      - rewrite lookup_delete. repeat case_decide; subst; try done; by rewrite ?Hempty.
      - rewrite lookup_insert. repeat case_decide; subst; done. }
    specialize (Hreg q code). destruct (decide (code = room_code)) as [->|Hcode].
    + rewrite Hs in Hreg. simpl in Hreg. rewrite elem_of_difference, elem_of_singleton, Hreg.
      case_decide; [subst q|].
      * split; [by intros [_ ?] | done].
      * split; [by intros [? _] | done].
    + rewrite Hreg. case_decide; [subst q|done]. split; [congruence|done].
  - intros q Hle. destruct (Hfresh q Hle) as [Hgq Hiq]. split; [|done].
    rewrite lookup_delete. by case_decide.
  - intros q code. rewrite lookup_delete. case_decide; [done|]. apply Hqueue.
Qed.

Lemma well_formed_step (o : op Event) b :
  well_formed b → well_formed (step json_dumps o b).2.
Proof.
  intros Hwf. destruct o as [code|code event|queue|queue]; simpl.
  - by apply well_formed_subscribe.
  - by apply well_formed_publish.
  - pose proof (well_formed_next queue b Hwf) as Hn. by destruct (next queue b).
  - by apply well_formed_unsubscribe.
Qed.

Lemma yielded_app q (outs1 outs2 : list (nat * string)) :
  yielded q (outs1 ++ outs2) = yielded q outs1 ++ yielded q outs2.
Proof. unfold yielded. by rewrite filter_app, fmap_app. Qed.

(** From any well-formed state: what a queue has yielded and still holds
    at the end is what it held at the start followed by what was
    published to its room while it was registered. *)
Lemma run_delivery (ops : list (op Event)) b outs b' q :
  well_formed b → run json_dumps ops b = (outs, b') →
  yielded q outs ++ pending q b'
  = pending q b ++ published_to json_dumps q ops (allocated b) (generators b !! q).
Proof.
  revert b outs b'. induction ops as [|o later IH]; intros b outs b' Hwf; simpl.
  - intros [= <- <-]. by rewrite app_nil_r.
  - destruct (step json_dumps o b) as [out b1] eqn:Hstep.
    destruct (run json_dumps later b1) as [outs1 b2] eqn:Hrun. intros [= <- <-].
    pose proof (well_formed_step o b Hwf) as Hwf1. rewrite Hstep in Hwf1.
    specialize (IH b1 outs1 b2 Hwf1 Hrun). rewrite yielded_app, <- app_assoc, IH.
    destruct Hwf as [Hreg Hfresh Hqueue].
    destruct o as [code|code event|queue|queue]; simpl in Hstep.
    + injection Hstep as <- <-. simpl.
      destruct (Hfresh (allocated b)) as [Hg0 Hi0]; [done|].
      rewrite lookup_insert. unfold pending. simpl. rewrite lookup_insert.
      destruct (decide (allocated b = q)) as [<-|Hne]; [|done].
      by rewrite Hi0.
    + injection Hstep as <- <-. simpl.
      destruct (generators b !! q) as [room|] eqn:Hg.
      * rewrite publish_pending by (by eapply Hqueue). rewrite <- app_assoc. f_equal.
        destruct (decide (Some room = Some code)) as [[= ->]|Hne].
        -- rewrite decide_True by (by apply Hreg). done.
        -- rewrite decide_False; [done|]. rewrite Hreg. congruence.
      * rewrite decide_False by done. simpl.
        unfold pending, publish. simpl.
        rewrite foldr_put_lookup by apply NoDup_elements.
        rewrite decide_False; [done|]. rewrite elem_of_elements, Hreg. congruence.
    + unfold next in Hstep.
      destruct (generators b !! queue) as [room|] eqn:Hg;
        [|injection Hstep as <- <-; done].
      destruct (items b !! queue) as [[|payload waiting]|] eqn:Hi;
        [injection Hstep as <- <-; done | | injection Hstep as <- <-; done].
      injection Hstep as <- <-. simpl. unfold yielded, pending. simpl.
      rewrite filter_cons, filter_nil. simpl. rewrite lookup_insert.
      destruct (decide (queue = q)) as [->|Hne].
      * rewrite Hi. done.
      * done.
    + injection Hstep as <- <-. simpl. unfold unsubscribe.
      destruct (generators b !! queue) as [room|] eqn:Hg.
      * simpl. unfold pending. simpl. rewrite lookup_delete.
        destruct (decide (queue = q)) as [->|Hne]; done.
      * destruct (decide (queue = q)) as [->|Hne]; [by rewrite Hg|done].
Qed.

(** C9. In any sequence of broker operations, what a subscription has
    yielded followed by what still waits in its queue is the list of the
    messages published to its room code while it was registered, each
    once and in the order of the [publish] calls: nothing is lost,
    duplicated, reordered or received from another room.  One [publish]
    appends its message to the queue of each subscription registered for
    the room code and leaves every other queue as it was, and with no
    subscription registered for the code it changes nothing. *)
Theorem publish_fans_out_in_order :
  (∀ (ops : list (op Event)) (queue : nat),
     yielded queue (run json_dumps ops init).1 ++ pending queue (run json_dumps ops init).2
     = published_to json_dumps queue ops 0 None) ∧
  (∀ (ops : list (op Event)) room_code event queue,
     let b := (run json_dumps ops init).2 in
     pending queue (publish json_dumps room_code event b)
     = pending queue b ++
       (if decide (queue ∈ default ∅ (_subscribers b !! room_code))
        then [json_dumps event] else [])) ∧
  (∀ (b : t) room_code event,
     default ∅ (_subscribers b !! room_code) = ∅ →
     publish json_dumps room_code event b = b).
Proof.
  split; [|split].
  - intros ops queue. destruct (run json_dumps ops init) as [outs b'] eqn:Hrun. simpl.
    by rewrite (run_delivery ops init outs b' queue well_formed_init Hrun).
  - intros ops room_code event queue b.
    assert (well_formed b) as Hwf.
    { subst b. generalize well_formed_init. generalize init.
      induction ops as [|o later IH]; intros b0 Hwf0; simpl; [done|].
      pose proof (well_formed_step o b0 Hwf0) as Hwf1.
      destruct (step json_dumps o b0) as [out b1]. specialize (IH b1 Hwf1).
      by destruct (run json_dumps later b1). }
    destruct (items b !! queue) as [waiting|] eqn:Hi.
    + apply publish_pending. by eexists.
    + rewrite decide_False.
      * unfold pending, publish. simpl. rewrite foldr_put_lookup by apply NoDup_elements.
        rewrite Hi. by case_decide.
      * intros Hin. apply (registry_generators _ Hwf) in Hin.
        apply (generator_queue _ Hwf) in Hin as [? ?]. congruence.
  - intros b room_code event Hnone. unfold publish. rewrite Hnone, elements_empty.
    by destruct b.
Qed.

End Broker.

Section BrokerWitness.

Import RoomEventBroker.

Lemma publish_fans_out_in_order_witness :
  yielded 0 (run id BrokerSample.ops init).1 ++ pending 0 (run id BrokerSample.ops init).2
  = ["m1"; "m2"; "m3"] ∧
  yielded 1 (run id BrokerSample.ops init).1 ++ pending 1 (run id BrokerSample.ops init).2
  = ["m2"] ∧
  publish id "NOBODY" "m4" init = init.
Proof.
  destruct (publish_fans_out_in_order (Event := string) id) as (Hrun & _ & Hnone).
  split; [|split].
  - rewrite Hrun. reflexivity.
  - rewrite Hrun. reflexivity.
  - apply Hnone. reflexivity.
Defined.

End BrokerWitness.

(** ** Float arithmetic: how far a rounded result is from the exact one *)

Ltac push_inject H :=
  unfold Zminus in H;
  repeat first [rewrite inject_Z_plus in H | rewrite inject_Z_mult in H
               | rewrite inject_Z_opp in H];
  change (inject_Z 2) with 2%Q in H.

Section FloatDivision.
Import PyFloat.

Lemma rhe_div_bounds a b :
  0 < b → 2 * a - b ≤ 2 * b * rhe_div a b ≤ 2 * a + b.
Proof.
  intros Hb. unfold rhe_div.
  pose proof (Z.div_mod a b ltac:(lia)) as Hdm.
  pose proof (Z.mod_pos_bound a b Hb) as Hr.
  set (q := a / b) in *. set (r := a mod b) in *. clearbody q r. subst a.
  destruct (2 * r ?= b) eqn:Hcmp.
  - rewrite Z.compare_eq_iff in Hcmp. destruct (Z.even q); lia.
  - rewrite Z.compare_lt_iff in Hcmp. lia.
  - rewrite Z.compare_gt_iff in Hcmp. lia.
Qed.

Lemma rhe_div_nonneg a b : 0 ≤ a → 0 < b → 0 ≤ rhe_div a b.
Proof.
  intros Ha Hb. unfold rhe_div.
  pose proof (Z.div_pos a b Ha Hb).
  destruct (_ ?= _); [destruct (Z.even _)|..]; lia.
Qed.

End FloatDivision.

Section FloatRounding.
Import PyFloat.
Local Open Scope Q_scope.

Lemma pow2_pos k : 0 < 2 ^ k.
Proof. apply Qpower_0_lt. reflexivity. Qed.

Lemma pow2_inject k : (0 ≤ k)%Z → inject_Z (2 ^ k) == 2 ^ k.
Proof. intros Hk. by rewrite Zpower_Qpower. Qed.

Lemma pow2_add a b : 2 ^ (a + b) == 2 ^ a * 2 ^ b.
Proof. apply Qpower_plus. discriminate. Qed.

Lemma pow2_succ a : 2 ^ (a + 1) == 2 * 2 ^ a.
Proof. rewrite pow2_add. change (2 ^ 1) with 2. ring. Qed.

Lemma pow2_neg a : 2 ^ (- a) * 2 ^ a == 1.
Proof. rewrite <- pow2_add. by replace (- a + a)%Z with 0%Z by lia. Qed.

Lemma pow2_le a b : (a ≤ b)%Z → 2 ^ a <= 2 ^ b.
Proof. intros Hab. apply Qpower_le_compat_l; [done|]. discriminate. Qed.

Lemma log2_bounds z : (0 < z)%Z → 2 ^ Z.log2 z <= inject_Z z ∧ inject_Z z < 2 ^ (Z.log2 z + 1).
Proof.
  intros Hz. destruct (Z.log2_spec z Hz) as [Hlo Hhi].
  pose proof (Z.log2_nonneg z) as Hnn. split.
  - rewrite <- pow2_inject by done. by rewrite <- Zle_Qle.
  - rewrite <- pow2_inject by lia. rewrite <- Zlt_Qlt. by rewrite <- Z.add_1_r in Hhi.
Qed.

(** The test of [binade], read on rationals. *)
Lemma binade_test num den d :
  (0 < num)%Z → (0 < den)%Z →
  (if (0 <=? d)%Z then (den * 2 ^ d <=? num)%Z else (den <=? num * 2 ^ (- d))%Z) = true
  ↔ inject_Z den * 2 ^ d <= inject_Z num.
Proof.
  intros Hnum Hden. destruct (0 <=? d)%Z eqn:Hd.
  - apply Z.leb_le in Hd. rewrite Z.leb_le, Zle_Qle, inject_Z_mult. by rewrite pow2_inject.
  - apply Z.leb_gt in Hd. rewrite Z.leb_le, Zle_Qle, inject_Z_mult.
    rewrite pow2_inject by lia. pose proof (pow2_pos d) as Hp.
    pose proof (pow2_neg d) as Hinv. split; intros H.
    + apply (Qmult_le_r _ _ (2 ^ (- d))); [apply pow2_pos|].
      rewrite <- Qmult_assoc, (Qmult_comm (2 ^ d)), Hinv. by rewrite Qmult_1_r.
    + apply (Qmult_le_r _ _ (2 ^ d)); [done|].
      rewrite <- (Qmult_assoc (inject_Z num)), Hinv. by rewrite Qmult_1_r.
Qed.

Lemma binade_bounds num den :
  (0 < num)%Z → (0 < den)%Z →
  inject_Z den * 2 ^ binade num den <= inject_Z num ∧
  inject_Z num < inject_Z den * 2 ^ (binade num den + 1).
Proof.
  intros Hnum Hden. unfold binade.
  destruct (log2_bounds num Hnum) as [Hn1 Hn2]. destruct (log2_bounds den Hden) as [Hd1 Hd2].
  set (l1 := Z.log2 num) in *. set (l2 := Z.log2 den) in *.
  assert (0 < inject_Z den) as Hdq by (by rewrite <- (Zlt_Qlt 0)).
  pose proof (pow2_pos (l1 - l2)) as Hp.
  destruct (if (0 <=? l1 - l2)%Z then _ else _) eqn:Htest.
  - apply binade_test in Htest; [|done..]. split; [done|].
    eapply Qlt_le_trans; [exact Hn2|].
    replace (l1 + 1)%Z with (l2 + (l1 - l2 + 1))%Z by lia. rewrite pow2_add.
    apply Qmult_le_compat_r; [done|]. apply Qlt_le_weak, pow2_pos.
  - assert (¬ inject_Z den * 2 ^ (l1 - l2) <= inject_Z num) as Hno.
    { rewrite <- binade_test by done. by rewrite Htest. }
    apply Qnot_le_lt in Hno. split.
    + eapply Qle_trans; [|exact Hn1].
      replace l1 with (l2 + 1 + (l1 - l2 - 1))%Z at 2 by lia. rewrite pow2_add.
      apply Qmult_le_compat_r; [by apply Qlt_le_weak|]. apply Qlt_le_weak, pow2_pos.
    + by replace (l1 - l2 - 1 + 1)%Z with (l1 - l2)%Z by lia.
Qed.

Lemma scaled_quot_error num den e :
  (0 < den)%Z →
  2 * inject_Z num - inject_Z den * 2 ^ e
    <= 2 * (inject_Z den * 2 ^ e) * inject_Z (scaled_quot num den e) ∧
  2 * (inject_Z den * 2 ^ e) * inject_Z (scaled_quot num den e)
    <= 2 * inject_Z num + inject_Z den * 2 ^ e.
Proof.
  intros Hden. unfold scaled_quot. destruct (0 <=? e)%Z eqn:He.
  - apply Z.leb_le in He.
    pose proof (rhe_div_bounds num (den * 2 ^ e)%Z) as Hb.
    destruct Hb as [Hlo Hhi]; [apply Z.mul_pos_pos; [done|]; by apply Z.pow_pos_nonneg|].
    rewrite Zle_Qle in Hlo, Hhi. push_inject Hlo. push_inject Hhi.
    rewrite (pow2_inject e He) in Hlo, Hhi. split; lra.
  - apply Z.leb_gt in He.
    pose proof (rhe_div_bounds (num * 2 ^ (- e))%Z den Hden) as [Hlo Hhi].
    rewrite Zle_Qle in Hlo, Hhi. push_inject Hlo. push_inject Hhi.
    rewrite (pow2_inject (- e)) in Hlo, Hhi by lia.
    pose proof (pow2_pos e) as Hp. pose proof (pow2_neg e) as Hinv.
    set (m := inject_Z (rhe_div _ _)) in *. set (n := inject_Z num) in *.
    set (d := inject_Z den) in *. set (p := 2 ^ e) in *. set (p' := 2 ^ (- e)) in *.
    assert (n == n * p' * p) as Hn by (rewrite <- Qmult_assoc, Hinv; ring).
    split.
    + assert ((2 * (n * p') + - d) * p <= 2 * d * m * p) as H
        by (apply Qmult_le_compat_r; [done | by apply Qlt_le_weak]).
      rewrite Hn. lra.
    + assert (2 * d * m * p <= (2 * (n * p') + d) * p) as H
        by (apply Qmult_le_compat_r; [done | by apply Qlt_le_weak]).
      rewrite Hn. lra.
Qed.

Lemma mag_num_pos m e : (0 < mag_num m e)%Z.
Proof.
  unfold mag_num. destruct (0 <=? e)%Z eqn:He; [|done].
  apply Z.leb_le in He. apply Z.mul_pos_pos; [done|]. by apply Z.pow_pos_nonneg.
Qed.

Lemma mag_den_pos e : (0 < mag_den e)%Z.
Proof.
  unfold mag_den. destruct (0 <=? e)%Z eqn:He; [done|].
  apply Z.leb_gt in He. apply Z.pow_pos_nonneg; lia.
Qed.

Lemma mag_ratio m e :
  inject_Z (mag_num m e) == inject_Z (Zpos m) * 2 ^ e * inject_Z (mag_den e).
Proof.
  unfold mag_num, mag_den. destruct (0 <=? e)%Z eqn:He.
  - apply Z.leb_le in He. rewrite inject_Z_mult, pow2_inject by done.
    change (inject_Z 1) with 1. ring.
  - apply Z.leb_gt in He. rewrite pow2_inject by lia.
    rewrite <- Qmult_assoc, (Qmult_comm (2 ^ e)), pow2_neg. ring.
Qed.

Lemma Qmake_ratio a b : (0 < b)%Z → Qmake a (Z.to_pos b) * inject_Z b == inject_Z a.
Proof.
  intros Hb. unfold Qeq. simpl. rewrite Pos.mul_1_r, Z2Pos.id by done. ring.
Qed.

Lemma to_Q_finite s m e :
  to_Q (S754_finite s m e) == (if s then -1 else 1) * (inject_Z (Zpos m) * 2 ^ e).
Proof.
  unfold to_Q.
  assert (Qmake (mag_num m e) (Z.to_pos (mag_den e)) == inject_Z (Zpos m) * 2 ^ e) as Hv.
  { pose proof (mag_den_pos e) as Hd.
    assert (0 < inject_Z (mag_den e)) as Hdq by (by rewrite <- (Zlt_Qlt 0)).
    apply (Qmult_inj_r _ _ (inject_Z (mag_den e))); [lra|].
    rewrite Qmake_ratio by done. apply mag_ratio. }
  destruct s; rewrite Hv; ring.
Qed.

Lemma Qabs_le_iff x y : Qabs x <= y ↔ - y <= x ∧ x <= y.
Proof. apply Qabs_Qle_condition. Qed.

(** [round_ne] returns a value within half a unit in the last place of
    the rational it is given. *)
Lemma round_ne_near num den :
  (0 < num)%Z → (0 < den)%Z →
  let e := Z.max (binade num den - 52) emin in
  (e ≤ 970)%Z →
  nonneg_finite (round_ne false num den) ∧
  Qabs (to_Q (round_ne false num den) - inject_Z num / inject_Z den) <= (1 # 2) * 2 ^ e.
Proof.
  intros Hnum Hden e He.
  pose proof (scaled_quot_error num den e Hden) as [Hlo Hhi].
  assert (0 ≤ scaled_quot num den e)%Z as Hm.
  { unfold scaled_quot. destruct (0 <=? e)%Z eqn:Hs.
    - apply rhe_div_nonneg; [lia|]. apply Z.mul_pos_pos; [done|].
      apply Z.pow_pos_nonneg; [done|]. by apply Z.leb_le.
    - apply rhe_div_nonneg; [|done]. apply Z.mul_nonneg_nonneg; [lia|].
      apply Z.pow_nonneg. done. }
  assert (nonneg_finite (round_ne false num den) ∧
          to_Q (round_ne false num den) == inject_Z (scaled_quot num den e) * 2 ^ e) as [Hfin Hv].
  { unfold round_ne. change (prec - 1)%Z with 52%Z. fold e.
    set (m := scaled_quot num den e) in *.
    destruct (m =? 2 ^ prec)%Z eqn:Hcarry.
    - apply Z.eqb_eq in Hcarry. rewrite Hcarry. cbv beta iota zeta.
      change (2 ^ 52)%Z with (Z.pos (2 ^ 52)). cbv beta iota zeta.
      rewrite (proj2 (Z.leb_le (e + 1) (emax - prec))) by (unfold emax, prec; lia).
      split; [done|]. rewrite to_Q_finite, pow2_succ.
      change (inject_Z (2 ^ prec)) with (2 * inject_Z (Z.pos (2 ^ 52))). ring.
    - cbv beta iota zeta. destruct m as [|p|p]; [| |lia].
      + split; [done|]. simpl. ring.
      + rewrite (proj2 (Z.leb_le e (emax - prec))) by (unfold emax, prec; lia).
        split; [done|]. rewrite to_Q_finite. ring. }
  split; [done|]. rewrite Hv.
  assert (0 < inject_Z den) as Hdq by (by rewrite <- (Zlt_Qlt 0)).
  pose proof (pow2_pos e) as Hp.
  set (d := inject_Z den) in *. set (m := inject_Z (scaled_quot num den e)) in *.
  set (p := 2 ^ e) in *. set (x := inject_Z num / d).
  assert (inject_Z num == d * x) as Hx by (unfold x; field; lra).
  rewrite Hx in Hlo, Hhi.
  assert (d * (2 * x - p) <= d * (2 * (m * p))) as Hlo' by lra.
  assert (d * (2 * (m * p)) <= d * (2 * x + p)) as Hhi' by lra.
  apply Qmult_le_l in Hlo', Hhi'; [|done..].
  apply Qabs_le_iff. set (v := m * p) in *. clearbody v x p. split; lra.
Qed.

(** Below 512 the error is at most [2^-45]. *)
Lemma round_ne_below_512 num den :
  (0 < num)%Z → (0 < den)%Z → inject_Z num < 512 * inject_Z den →
  nonneg_finite (round_ne false num den) ∧
  Qabs (to_Q (round_ne false num den) - inject_Z num / inject_Z den) <= 1 # (2 ^ 45).
Proof.
  intros Hnum Hden Hlt.
  destruct (binade_bounds num den Hnum Hden) as [Hlo _].
  assert (0 < inject_Z den) as Hdq by (by rewrite <- (Zlt_Qlt 0)).
  assert (binade num den ≤ 8)%Z as Hb.
  { apply Z.nlt_ge. intros Hgt.
    assert (2 ^ 9 <= 2 ^ binade num den) as Hpow by (apply pow2_le; lia).
    change (2 ^ 9) with 512 in Hpow.
    assert (inject_Z den * 512 <= inject_Z den * 2 ^ binade num den) as Hmul
      by (apply Qmult_le_l; done).
    lra. }
  destruct (round_ne_near num den Hnum Hden) as [Hfin Herr]; [unfold emin; lia|].
  split; [done|]. eapply Qle_trans; [exact Herr|].
  assert (2 ^ Z.max (binade num den - 52) emin <= 2 ^ (-44)) as Hpow
    by (apply pow2_le; unfold emin; lia).
  change (2 ^ (-44)) with (1 # (2 ^ 44)) in Hpow.
  assert ((1 # 2) * (1 # 2 ^ 44) == 1 # 2 ^ 45) as <- by reflexivity.
  apply Qmult_le_l; [reflexivity | done].
Qed.

(** From 1 up the error is at most [2^-53] of the value. *)
Lemma round_ne_relative num den :
  (0 < den)%Z → (den ≤ num)%Z → inject_Z num < 2 ^ 1000 * inject_Z den →
  nonneg_finite (round_ne false num den) ∧
  Qabs (to_Q (round_ne false num den) - inject_Z num / inject_Z den)
  <= (1 # (2 ^ 53)) * (inject_Z num / inject_Z den).
Proof.
  intros Hden Hle Hlt. assert (0 < num)%Z as Hnum by lia.
  destruct (binade_bounds num den Hnum Hden) as [Hlo Hhi].
  assert (0 < inject_Z den) as Hdq by (by rewrite <- (Zlt_Qlt 0)).
  assert (0 ≤ binade num den)%Z as Hb0.
  { apply Z.nlt_ge. intros Hneg.
    assert (2 ^ (binade num den + 1) <= 2 ^ 0) as Hpow by (apply pow2_le; lia).
    change (2 ^ 0) with 1 in Hpow.
    assert (inject_Z den * 2 ^ (binade num den + 1) <= inject_Z den * 1) as Hmul
      by (apply Qmult_le_l; done).
    rewrite Zle_Qle in Hle. lra. }
  assert (binade num den ≤ 999)%Z as Hb1.
  { apply Z.nlt_ge. intros Hgt.
    assert (2 ^ 1000 <= 2 ^ binade num den) as Hpow by (apply pow2_le; lia).
    assert (inject_Z den * 2 ^ 1000 <= inject_Z den * 2 ^ binade num den) as Hmul
      by (apply Qmult_le_l; done).
    lra. }
  destruct (round_ne_near num den Hnum Hden) as [Hfin Herr]; [unfold emin; lia|].
  split; [done|]. eapply Qle_trans; [exact Herr|].
  rewrite Z.max_l by (unfold emin; lia).
  replace (binade num den - 52)%Z with (-52 + binade num den)%Z by lia.
  rewrite pow2_add. change (2 ^ (-52)) with (1 # (2 ^ 52)).
  set (p := 2 ^ binade num den) in *. set (d := inject_Z den) in *.
  set (x := inject_Z num / d).
  assert (inject_Z num == d * x) as Hx by (unfold x; field; lra).
  rewrite Hx in Hlo. apply Qmult_le_l in Hlo; [|done].
  assert ((1 # 2) * ((1 # 2 ^ 52) * p) == (1 # 2 ^ 53) * p) as ->
    by (rewrite Qmult_assoc; apply Qmult_comp; reflexivity).
  apply Qmult_le_l; [reflexivity | exact Hlo].
Qed.

Lemma to_Q_nonneg x : nonneg_finite x → 0 <= to_Q x.
Proof.
  destruct x as [[]|[]| |[] m e]; try done. intros _. rewrite to_Q_finite.
  pose proof (pow2_pos e) as Hp.
  assert (0 < inject_Z (Z.pos m)) as Hm by (by rewrite <- (Zlt_Qlt 0)).
  nra.
Qed.

Lemma nonneg_finite_pos x :
  nonneg_finite x → 0 < to_Q x → ∃ m e, x = S754_finite false m e.
Proof.
  destruct x as [[]|[]| |[] m e]; try done. intros _ _. by exists m, e.
Qed.

Lemma to_Q_finite_pos m e : 0 < to_Q (S754_finite false m e).
Proof.
  rewrite to_Q_finite. pose proof (pow2_pos e) as Hp.
  assert (0 < inject_Z (Z.pos m)) as Hm by (by rewrite <- (Zlt_Qlt 0)).
  nra.
Qed.

(** The value of a finite float as the ratio the operations round. *)
Lemma mag_value m e :
  inject_Z (mag_num m e) == to_Q (S754_finite false m e) * inject_Z (mag_den e).
Proof. rewrite to_Q_finite, mag_ratio. ring. Qed.

Lemma inject_pos z : (0 < z)%Z → 0 < inject_Z z.
Proof. intros H. by rewrite <- (Zlt_Qlt 0). Qed.

Lemma ratio_eq num den x :
  (0 < den)%Z → inject_Z num == x * inject_Z den → inject_Z num / inject_Z den == x.
Proof. intros Hden ->. pose proof (inject_pos den Hden). field. lra. Qed.

(** [float(z)] for a natural number below [2^1000]. *)
Lemma of_int_approx z :
  (0 ≤ z)%Z → inject_Z z < 2 ^ 1000 →
  ∃ f, of_int z = Ok f ∧ nonneg_finite f ∧
       Qabs (to_Q f - inject_Z z) <= (1 # 2 ^ 53) * inject_Z z.
Proof.
  intros Hz Hlt. destruct (decide (z = 0%Z)) as [->|Hne].
  - exists (S754_zero false). split; [done|]. split; [done|]. simpl. by vm_compute.
  - assert (0 < z)%Z as Hpos by lia.
    destruct (round_ne_relative z 1) as [Hfin Herr]; [done | lia | |].
    { change (inject_Z 1) with 1. lra. }
    assert (inject_Z z / inject_Z 1 == inject_Z z) as Hx by (change (inject_Z 1) with 1; field).
    rewrite Hx in Herr.
    pose proof (inject_pos z Hpos) as Hzq.
    assert (0 < to_Q (round_ne false z 1)) as Hv.
    { apply Qabs_le_iff in Herr as [Hlo _].
      assert ((1 # 2 ^ 53) * inject_Z z <= (1 # 2) * inject_Z z) as Hhalf
        by (apply Qmult_le_compat_r; [by vm_compute | lra]).
      lra. }
    destruct (nonneg_finite_pos _ Hfin Hv) as (m & e & Heq).
    exists (S754_finite false m e). unfold of_int.
    rewrite (proj2 (Z.ltb_ge z 0)) by lia. rewrite Z.abs_eq by lia. rewrite Heq.
    split; [by destruct z|]. split; [done|]. by rewrite <- Heq.
Qed.

Lemma to_Q_mul_finite mx ex my ey :
  to_Q (S754_finite false (mx * my) (ex + ey))
  == to_Q (S754_finite false mx ex) * to_Q (S754_finite false my ey).
Proof.
  rewrite !to_Q_finite, Pos2Z.inj_mul, inject_Z_mult, pow2_add. ring.
Qed.

(** The product of two positive floats, when it is at least 1. *)
Lemma mul_approx mx ex my ey :
  let x := S754_finite false mx ex in
  let y := S754_finite false my ey in
  1 <= to_Q x * to_Q y → to_Q x * to_Q y < 2 ^ 1000 →
  nonneg_finite (mul x y) ∧
  Qabs (to_Q (mul x y) - to_Q x * to_Q y) <= (1 # 2 ^ 53) * (to_Q x * to_Q y).
Proof.
  intros x y Hlo Hhi. unfold mul, x, y. cbn [xorb].
  pose proof (mag_value (mx * my) (ex + ey)) as Hnum. rewrite to_Q_mul_finite in Hnum.
  fold x y in Hnum, Hlo, Hhi |- *.
  pose proof (mag_den_pos (ex + ey)) as Hden. pose proof (inject_pos _ Hden) as Hdq.
  set (num := mag_num (mx * my) (ex + ey)) in *. set (den := mag_den (ex + ey)) in *.
  set (X := to_Q x * to_Q y) in *.
  destruct (round_ne_relative num den) as [Hfin Herr]; [done | | |].
  - rewrite Zle_Qle, Hnum. nra.
  - rewrite Hnum. pose proof (pow2_pos 1000). nra.
  - split; [done|]. by rewrite (ratio_eq num den X Hden Hnum) in Herr.
Qed.

Lemma to_Q_f1_5 : to_Q f1_5 == 3 # 2.
Proof. by vm_compute. Qed.

(** [round(x, 2)]: the cents that are kept. *)
Lemma round2_cents m e :
  ∃ cents : Z,
    (0 ≤ cents)%Z ∧
    Qabs (inject_Z cents - 100 * to_Q (S754_finite false m e)) <= 1 # 2 ∧
    round2 (S754_finite false m e)
    = match cents with
      | Z0 => S754_zero false
      | _ => round_ne false cents 100
      end.
Proof.
  exists (rhe_div (100 * mag_num m e) (mag_den e)).
  pose proof (mag_den_pos e) as Hden. pose proof (mag_num_pos m e) as Hnum.
  split; [apply rhe_div_nonneg; lia|]. split; [|done].
  pose proof (rhe_div_bounds (100 * mag_num m e) (mag_den e) Hden) as [Hlo Hhi].
  rewrite Zle_Qle in Hlo, Hhi. push_inject Hlo. push_inject Hhi.
  change (inject_Z 100) with 100 in *. rewrite mag_value in Hlo, Hhi.
  pose proof (inject_pos _ Hden) as Hdq.
  set (d := inject_Z (mag_den e)) in *. set (v := to_Q (S754_finite false m e)) in *.
  set (c := inject_Z (rhe_div _ _)) in *. clearbody d v c.
  assert (d * (200 * v - 1) <= d * (2 * c)) as Hlo' by lra.
  assert (d * (2 * c) <= d * (200 * v + 1)) as Hhi' by lra.
  apply Qmult_le_l in Hlo', Hhi'; [|done..].
  apply Qabs_le_iff. split; lra.
Qed.

(** Rounding a small value to two decimals moves it by at most half a
    cent and [2^-45]. *)
Lemma round2_small x :
  nonneg_finite x → to_Q x < 511 →
  nonneg_finite (round2 x) ∧
  Qabs (to_Q (round2 x) - to_Q x) <= (1 # 200) + (1 # 2 ^ 45).
Proof.
  intros Hx Hlt. destruct x as [[]|[]| |[] m e]; try done.
  destruct (round2_cents m e) as (cents & Hc0 & Hcents & ->).
  set (v := to_Q (S754_finite false m e)) in *.
  apply Qabs_le_iff in Hcents as [Hclo Hchi].
  destruct cents as [|p|p]; [| |lia].
  - split; [done|]. change (to_Q (S754_zero false)) with 0.
    change (inject_Z 0) with 0 in *. apply Qabs_le_iff.
    assert (0 < 1 # 2 ^ 45) by reflexivity. split; lra.
  - destruct (round_ne_below_512 (Z.pos p) 100) as [Hfin Herr]; [done..| |].
    { change (inject_Z 100) with 100. lra. }
    split; [done|]. change (inject_Z 100) with 100 in Herr.
    apply Qabs_le_iff in Herr as [Helo Hehi].
    assert (inject_Z (Z.pos p) / 100 == (1 # 100) * inject_Z (Z.pos p)) as Hdiv by field.
    rewrite Hdiv in Helo, Hehi.
    set (c := inject_Z (Z.pos p)) in *. set (r := to_Q (round_ne false (Z.pos p) 100)) in *.
    set (u := 1 # 2 ^ 45) in *. clearbody c r v u.
    apply Qabs_le_iff. split; lra.
Qed.

Lemma pow2_1000 : 2 ^ 1000 == 1024 * 2 ^ 990.
Proof. replace 1000%Z with (10 + 990)%Z by lia. rewrite pow2_add. reflexivity. Qed.

Lemma pow2_ge_1 k : (0 ≤ k)%Z → 1 <= 2 ^ k.
Proof. intros Hk. change 1 with (2 ^ 0). by apply pow2_le. Qed.

(** Rounding a value from 1 up to two decimals moves it by at most half a
    cent and [2^-53] of the result. *)
Lemma round2_large x :
  nonneg_finite x → 1 <= to_Q x → to_Q x < 2 ^ 990 →
  nonneg_finite (round2 x) ∧
  Qabs (to_Q (round2 x) - to_Q x) <= (1 # 200) + (1 # 2 ^ 53) * (to_Q x + (1 # 200)).
Proof.
  intros Hx Hlo Hhi. destruct x as [[]|[]| |[] m e]; try done.
  destruct (round2_cents m e) as (cents & Hc0 & Hcents & ->).
  set (v := to_Q (S754_finite false m e)) in *.
  apply Qabs_le_iff in Hcents as [Hclo Hchi].
  assert (100 ≤ cents)%Z as Hc100.
  { assert (99 < cents)%Z; [|lia]. rewrite Zlt_Qlt. change (inject_Z 99) with 99. lra. }
  destruct cents as [|p|p]; [lia| |lia].
  destruct (round_ne_relative (Z.pos p) 100) as [Hfin Herr]; [done | done | |].
  { change (inject_Z 100) with 100. rewrite pow2_1000.
    pose proof (pow2_ge_1 990 ltac:(lia)). lra. }
  split; [done|]. change (inject_Z 100) with 100 in Herr.
  apply Qabs_le_iff in Herr as [Helo Hehi].
  assert (inject_Z (Z.pos p) / 100 == (1 # 100) * inject_Z (Z.pos p)) as Hdiv by field.
  rewrite Hdiv in Helo, Hehi.
  set (c := inject_Z (Z.pos p)) in *. set (r := to_Q (round_ne false (Z.pos p) 100)) in *.
  assert (0 <= (1 # 2 ^ 53) * ((1 # 100) * c) ∧
          (1 # 2 ^ 53) * ((1 # 100) * c) <= (1 # 2 ^ 53) * (v + (1 # 200))) as [Hk0 Hk].
  { split.
    - apply Qmult_le_0_compat; [done|]. lra.
    - apply Qmult_le_l; [reflexivity|]. lra. }
  set (k := (1 # 2 ^ 53) * ((1 # 100) * c)) in *.
  set (k' := (1 # 2 ^ 53) * (v + (1 # 200))) in *. clearbody c r v k k'.
  apply Qabs_le_iff. split; lra.
Qed.

(** The quotient of a float by a positive float, when it stays below 512. *)
Lemma truediv_approx x my ey q :
  let y := S754_finite false my ey in
  nonneg_finite x → q * to_Q y == to_Q x → q < 512 →
  ∃ r, truediv x y = Ok r ∧ nonneg_finite r ∧ Qabs (to_Q r - q) <= 1 # 2 ^ 45.
Proof.
  intros y Hx Hq Hlt. pose proof (to_Q_finite_pos my ey) as Hy. fold y in Hy.
  destruct x as [[]|[]| |[] mx ex]; try done.
  - exists (S754_zero false). split; [done|]. split; [done|].
    change (to_Q (S754_zero false)) with 0 in *.
    assert (q == 0) as ->.
    { destruct (Qmult_integral _ _ Hq) as [?|?]; [done|lra]. }
    by vm_compute.
  - pose proof (to_Q_finite_pos mx ex) as Hxpos.
    set (x := S754_finite false mx ex) in *.
    pose proof (mag_value mx ex) as Hnx. pose proof (mag_value my ey) as Hny.
    fold x in Hnx. fold y in Hny.
    pose proof (mag_den_pos ex) as Hdx. pose proof (mag_den_pos ey) as Hdy.
    pose proof (mag_num_pos mx ex) as Hnxp. pose proof (mag_num_pos my ey) as Hnyp.
    set (num := (mag_num mx ex * mag_den ey)%Z).
    set (den := (mag_den ex * mag_num my ey)%Z).
    assert (0 < num)%Z as Hnum by (apply Z.mul_pos_pos; done).
    assert (0 < den)%Z as Hden by (apply Z.mul_pos_pos; done).
    assert (inject_Z num == q * inject_Z den) as Hratio.
    { unfold num, den. rewrite !inject_Z_mult, Hnx, Hny, <- Hq. ring. }
    exists (round_ne false num den). split; [done|].
    destruct (round_ne_below_512 num den Hnum Hden) as [Hfin Herr].
    + rewrite Hratio. pose proof (inject_pos den Hden). nra.
    + split; [done|]. by rewrite (ratio_eq num den q Hden Hratio) in Herr.
Qed.

Lemma to_Q_zero s : to_Q (S754_zero s) = 0.
Proof. done. Qed.

(** The sum of two non-negative floats, when it stays below 512. *)
Lemma add_approx x y :
  nonneg_finite x → nonneg_finite y → to_Q x + to_Q y < 512 →
  nonneg_finite (add x y) ∧ Qabs (to_Q (add x y) - (to_Q x + to_Q y)) <= 1 # 2 ^ 45.
Proof.
  assert (∀ v, Qabs (v - (0 + v)) <= 1 # 2 ^ 45) as Hleft.
  { intros v. assert (v - (0 + v) == 0) as -> by ring. by vm_compute. }
  assert (∀ v, Qabs (v - (v + 0)) <= 1 # 2 ^ 45) as Hright.
  { intros v. assert (v - (v + 0) == 0) as -> by ring. by vm_compute. }
  intros Hx Hy Hlt.
  destruct x as [[]|[]| |[] mx ex]; try done;
    destruct y as [[]|[]| |[] my ey]; try done.
  - set (x := S754_finite false mx ex) in *. set (y := S754_finite false my ey) in *.
    unfold add, x, y. cbv zeta. set (e := Z.min ex ey).
    set (sum := (1 * (Z.pos mx * 2 ^ (ex - e)) + 1 * (Z.pos my * 2 ^ (ey - e)))%Z).
    assert (0 ≤ ex - e)%Z as Hex by lia. assert (0 ≤ ey - e)%Z as Hey by lia.
    assert (0 < sum)%Z as Hsum.
    { unfold sum. pose proof (Z.pow_pos_nonneg 2 (ex - e) ltac:(lia) Hex).
      pose proof (Z.pow_pos_nonneg 2 (ey - e) ltac:(lia) Hey). nia. }
    assert (inject_Z sum * 2 ^ e == to_Q x + to_Q y) as Hvalue.
    { unfold sum, x, y. rewrite !to_Q_finite. push_inject Hsum.
      rewrite inject_Z_plus, !inject_Z_mult, !pow2_inject by done.
      change (inject_Z 1) with 1.
      assert (2 ^ (ex - e) * 2 ^ e == 2 ^ ex) as H1
        by (rewrite <- pow2_add; by replace (ex - e + e)%Z with ex by lia).
      assert (2 ^ (ey - e) * 2 ^ e == 2 ^ ey) as H2
        by (rewrite <- pow2_add; by replace (ey - e + e)%Z with ey by lia).
      rewrite <- H1, <- H2. ring. }
    destruct sum as [|p|p] eqn:Hs; [lia| |lia]. rewrite <- Hs in *.
    rewrite (proj2 (Z.ltb_ge sum 0)) by lia. rewrite Z.abs_eq by lia.
    set (num := if (0 <=? e)%Z then (sum * 2 ^ e)%Z else sum).
    pose proof (mag_den_pos e) as Hden.
    assert (0 < num)%Z as Hnum.
    { unfold num. destruct (0 <=? e)%Z eqn:He; [|done].
      apply Z.mul_pos_pos; [done|]. apply Z.pow_pos_nonneg; [done|]. by apply Z.leb_le. }
    assert (inject_Z num == (to_Q x + to_Q y) * inject_Z (mag_den e)) as Hratio.
    { rewrite <- Hvalue. unfold num, mag_den. destruct (0 <=? e)%Z eqn:He.
      - apply Z.leb_le in He. rewrite inject_Z_mult, pow2_inject by done.
        change (inject_Z 1) with 1. ring.
      - apply Z.leb_gt in He. rewrite pow2_inject by lia.
        rewrite <- Qmult_assoc, (Qmult_comm (2 ^ e)), pow2_neg. ring. }
    destruct (round_ne_below_512 num (mag_den e) Hnum Hden) as [Hfin Herr].
    + rewrite Hratio. pose proof (inject_pos _ Hden). nra.
    + split; [done|]. by rewrite (ratio_eq num _ _ Hden Hratio) in Herr.
Qed.

End FloatRounding.

(** ** The payout sum *)

Section PayoutSum.
Import PyFloat.
Local Open Scope Q_scope.

Lemma ulp_scale x :
  0 <= x → 0 <= (1 # 2 ^ 53) * x ∧ (1 # 2 ^ 53) * x <= (1 # 1000) * x.
Proof.
  intros Hx. split.
  - by apply Qmult_le_0_compat.
  - by apply Qmult_le_compat_r.
Qed.

Lemma inject_le_pow2 z k : (0 ≤ k)%Z → (z ≤ 2 ^ k)%Z → inject_Z z <= 2 ^ k.
Proof. intros Hk Hz. rewrite <- pow2_inject by done. by rewrite <- Zle_Qle. Qed.

Lemma inject_ge_1 z : (1 ≤ z)%Z → 1 <= inject_Z z.
Proof. intros Hz. change 1 with (inject_Z 1). by rewrite <- Zle_Qle. Qed.

Lemma pow2_71_990 : 2 * 2 ^ 70 < 2 ^ 990.
Proof.
  rewrite <- pow2_succ. change (70 + 1)%Z with 71%Z.
  replace 990%Z with (989 + 1)%Z by lia. rewrite pow2_succ.
  pose proof (pow2_le 71 989 ltac:(lia)). pose proof (pow2_pos 71). lra.
Qed.

(** The boosted pool of a total of at least 0: the value is finite, not
    negative and at most twice the total. *)
Lemma pool_approx T :
  (0 ≤ T)%Z → (T ≤ 2 ^ 70)%Z →
  ∃ total, of_int T = Ok total ∧
    nonneg_finite (round2 (mul total f1_5)) ∧
    to_Q (round2 (mul total f1_5)) <= 2 * inject_Z T.
Proof.
  intros H0 Hhi. destruct (decide (T = 0%Z)) as [->|Hnz].
  { exists (S754_zero false). split; [done|]. split; [done|]. by vm_compute. }
  pose proof (inject_le_pow2 T 70 ltac:(lia) Hhi) as Hhi'.
  pose proof (inject_ge_1 T ltac:(lia)) as Hlo'.
  pose proof pow2_71_990 as Hp. pose proof pow2_1000 as Hp'.
  destruct (of_int_approx T) as (fT & HfT & HfTfin & HfTerr); [done | lra |].
  exists fT. split; [done|].
  apply Qabs_le_iff in HfTerr as [Hflo Hfhi].
  destruct (ulp_scale (inject_Z T)) as [Hk0 Hk]; [lra|].
  set (k := (1 # 2 ^ 53) * inject_Z T) in *.
  destruct (nonneg_finite_pos fT HfTfin) as (m & e & ->); [lra|].
  pose proof (mul_approx m e (3 * 2 ^ 51) (-52)) as Hm. cbv zeta in Hm.
  fold f1_5 in Hm. rewrite to_Q_f1_5 in Hm.
  set (x := to_Q (S754_finite false m e)) in *.
  destruct Hm as [Hmfin Hmerr]; [lra | lra |].
  apply Qabs_le_iff in Hmerr as [Hmlo Hmhi].
  destruct (ulp_scale (x * (3 # 2))) as [Hk0' Hk']; [lra|].
  set (k' := (1 # 2 ^ 53) * (x * (3 # 2))) in *.
  set (M := mul (S754_finite false m e) f1_5) in *.
  destruct (round2_large M) as [Hrfin Hrerr]; [done | lra | lra |].
  split; [done|].
  apply Qabs_le_iff in Hrerr as [Hrlo Hrhi].
  destruct (ulp_scale (to_Q M + (1 # 200))) as [Hk0'' Hk'']; [lra|].
  set (k'' := (1 # 2 ^ 53) * (to_Q M + (1 # 200))) in *.
  clearbody k k' k''. lra.
Qed.


(** The number of players as a float. *)
Lemma count_approx n :
  (1 ≤ n)%Z → (n ≤ 2 ^ 63)%Z →
  ∃ my ey, of_int n = Ok (S754_finite false my ey) ∧
    (999 # 1000) * inject_Z n <= to_Q (S754_finite false my ey) ∧
    Qabs (to_Q (S754_finite false my ey) - inject_Z n) <= (1 # 2 ^ 53) * inject_Z n.
Proof.
  intros Hlo Hhi.
  pose proof (inject_le_pow2 n 63 ltac:(lia) Hhi) as Hhi'.
  pose proof (inject_ge_1 n ltac:(lia)) as Hlo'.
  pose proof (pow2_le 63 1000 ltac:(lia)) as Hp. pose proof (pow2_succ 63) as Hp'.
  pose proof (pow2_le (63 + 1) 1000 ltac:(lia)) as Hp''. pose proof (pow2_pos 63).
  destruct (of_int_approx n) as (fn & Hfn & Hfin & Herr); [lia | lra |].
  pose proof Herr as Herr'. apply Qabs_le_iff in Herr' as [Hflo Hfhi].
  destruct (ulp_scale (inject_Z n)) as [Hk0 Hk]; [lra|].
  set (k := (1 # 2 ^ 53) * inject_Z n) in *.
  destruct (nonneg_finite_pos fn Hfin) as (m & e & ->); [lra|].
  exists m, e. split; [done|]. split; [lra | done].
Qed.

(** The share: the pool divided by the count. *)
Lemma share_approx B my ey n z :
  let y := S754_finite false my ey in
  nonneg_finite B → 0 < n → to_Q B <= 200 * n →
  Qabs (to_Q y - n) <= (1 # 2 ^ 53) * n →
  n * z == to_Q B →
  ∃ share, truediv B y = Ok share ∧ nonneg_finite share ∧ to_Q share <= 202 ∧
           Qabs (to_Q share - z) <= 1 # 2 ^ 43.
Proof.
  intros y HB Hn Hhi Hy Hz. pose proof (to_Q_nonneg B HB) as HB0.
  apply Qabs_le_iff in Hy as [Hylo Hyhi].
  destruct (ulp_scale n) as [Hk0 Hk]; [lra|].
  set (k := (1 # 2 ^ 53) * n) in *.
  assert (0 < to_Q y) as Hypos by (clearbody k; lra).
  set (q := to_Q B / to_Q y).
  assert (q * to_Q y == to_Q B) as Hq by (unfold q; field; lra).
  assert (0 <= q) as Hq0.
  { destruct (Qlt_le_dec q 0) as [Hneg|]; [|done]. clearbody q k. nra. }
  assert (q <= 201) as Hq201.
  { destruct (Qlt_le_dec 201 q) as [Hbig|]; [|done]. clearbody q k. nra. }
  destruct (truediv_approx B my ey q HB Hq) as (share & Hshare & Hfin & Herr); [lra|].
  exists share. split; [done|]. split; [done|].
  apply Qabs_le_iff in Herr as [Helo Hehi].
  assert ((1 # 2 ^ 45) <= 1 # 2) as Hu by done.
  split; [lra|].
  assert (n * (q - z) == q * (n - to_Q y)) as Hnq by (rewrite <- Hz in Hq; lra).
  assert ((1 # 2 ^ 45) + (201 # 2 ^ 53) <= 1 # 2 ^ 43) as Hconst by done.
  assert (201 * k == (201 # 2 ^ 53) * n) as Hk201
    by (unfold k; rewrite Qmult_assoc; apply Qmult_comp; reflexivity).
  set (u := 1 # 2 ^ 45) in *. set (w := 201 # 2 ^ 53) in *. set (v := 1 # 2 ^ 43) in *.
  set (s := to_Q share) in *. set (fy := to_Q y) in *.
  clearbody u w v s fy q k.
  assert (q * (n - fy) <= 201 * k) as Hup by nra.
  assert (- (201 * k) <= q * (n - fy)) as Hdown by nra.
  assert (q - z <= w) as Hd1.
  { destruct (Qlt_le_dec w (q - z)) as [Hbig|]; [|done]. nra. }
  assert (z - q <= w) as Hd2.
  { destruct (Qlt_le_dec w (z - q)) as [Hbig|]; [|done]. nra. }
  apply Qabs_le_iff. split; lra.
Qed.


(** One payout: [round(allocation_a + share, 2)] against [allocation_a + z]
    for a [z] the share approximates. *)
Lemma payout_approx a fa share z :
  (0 ≤ a ≤ 100)%Z → of_int a = Ok fa →
  nonneg_finite share → to_Q share <= 202 →
  Qabs (to_Q share - z) <= 1 # 2 ^ 43 →
  Qabs (to_Q (round2 (add fa share)) - (inject_Z a + z)) <= rounding_tolerance.
Proof.
  intros Ha Hfa Hfin Hhi Herr.
  assert (0 <= inject_Z a ∧ inject_Z a <= 100) as [Ha0 Ha100].
  { change 0 with (inject_Z 0). change 100 with (inject_Z 100).
    rewrite <- !Zle_Qle. lia. }
  assert (128 <= 2 ^ 1000) as Hp.
  { change 128 with (2 ^ 7). apply pow2_le. lia. }
  destruct (of_int_approx a) as (fa' & Hfa' & Hfafin & Hfaerr); [lia | lra |].
  rewrite Hfa in Hfa'. injection Hfa' as <-. clear Hp.
  assert ((1 # 2 ^ 53) * inject_Z a <= 100 # 2 ^ 53) as Hk.
  { assert ((100 # 2 ^ 53) == (1 # 2 ^ 53) * 100) as -> by reflexivity.
    by apply Qmult_le_l. }
  set (k := (1 # 2 ^ 53) * inject_Z a) in *.
  apply Qabs_le_iff in Hfaerr as [Hfalo Hfahi].
  apply Qabs_le_iff in Herr as [Hslo Hshi].
  pose proof (to_Q_nonneg share Hfin) as Hs0.
  assert ((100 # 2 ^ 53) <= 1 # 10) as Hc1 by done.
  assert ((1 # 2 ^ 45) <= 1 # 10) as Hc2 by done.
  assert ((1 # 2 ^ 45) + (1 # 2 ^ 45) + (100 # 2 ^ 53) + (1 # 2 ^ 43) <= 1 # 2 ^ 40)
    as Hc3 by done.
  unfold rounding_tolerance.
  set (c := 100 # 2 ^ 53) in *. set (u := 1 # 2 ^ 45) in *. set (v := 1 # 2 ^ 43) in *.
  set (t := 1 # 2 ^ 40) in *.
  destruct (add_approx fa share) as [Hafin Haerr]; [done | done | |].
  { clearbody k c u v t. lra. }
  apply Qabs_le_iff in Haerr as [Halo Hahi]. fold u in Halo, Hahi.
  destruct (round2_small (add fa share)) as [Hrfin Hrerr]; [done | |].
  { clearbody k c u v t. lra. }
  apply Qabs_le_iff in Hrerr as [Hrlo Hrhi]. fold u in Hrlo, Hrhi.
  clearbody k c u v t. apply Qabs_le_iff. split; lra.
Qed.

Lemma payout_sum_approx share z players payouts :
  nonneg_finite share → to_Q share <= 202 →
  Qabs (to_Q share - z) <= 1 # 2 ^ 43 →
  Forall splits_100 players →
  Forall2 (λ p r,
             PlayerPayout.player_id r = Player.id p ∧
             PlayerPayout.display_name r = Player.display_name p ∧
             ∃ a fa, Player.allocation_a p = Some a ∧ of_int a = Ok fa ∧
                     PlayerPayout.payout r = round2 (add fa share))
    players payouts →
  Qabs (payout_sum payouts
        - (inject_Z (spec_total_a players) + inject_Z (Z.of_nat (length players)) * z))
  <= inject_Z (Z.of_nat (length players)) * rounding_tolerance.
Proof.
  intros Hfin Hhi Herr Hall Hrec.
  induction Hrec as [|p r players payouts (_ & _ & a & fa & Ha & Hfa & Hr) _ IH].
  - by vm_compute.
  - apply Forall_cons in Hall as [(a' & b & Ha' & Hb & Ha0 & Hb0 & Hsum) Hall].
    specialize (IH Hall). rewrite Ha in Ha'. injection Ha' as <-.
    pose proof (payout_approx a fa share z ltac:(lia) Hfa Hfin Hhi Herr) as Hone.
    unfold payout_sum, spec_total_a in *. rewrite !fmap_cons. cbn [foldr length].
    rewrite Ha, Hr. cbn [default from_option id].
    rewrite Nat2Z.inj_succ. unfold Z.succ. rewrite !inject_Z_plus.
    change (inject_Z 1) with 1.
    apply Qabs_le_iff in IH as [IHlo IHhi]. apply Qabs_le_iff in Hone as [Hlo1 Hhi1].
    apply Qabs_le_iff. split; lra.
Qed.

Lemma splits_100_range p :
  splits_100 p →
  (∃ b, Player.allocation_b p = Some b ∧ (0 ≤ b ≤ 100)%Z) ∧
  (is_Some (Player.allocation_a p) ∧ is_Some (Player.allocation_b p)) ∧
  converts (or_0 (Player.allocation_a p)).
Proof.
  intros (a & b & Ha & Hb & Ha0 & Hb0 & Hsum). split; [|split].
  - exists b. split; [done | lia].
  - rewrite Ha, Hb. by split.
  - rewrite Ha. apply converts_small. simpl. lia.
Qed.

(** C5. For a non-empty list of players whose allocations sum to 100
    each, the allocations being the non-negative integers that the data
    model and [SubmitAllocation] allow, [calculate_payouts] returns a result
    whose [boosted_pool] is [round(total_b_pool * 1.5, 2)] and whose
    payouts sum to the sum of the [allocation_a] plus [boosted_pool], up
    to [rounding_tolerance] for each player. *)
Theorem payout_sum_within_tolerance (players : list Player.t) :
  players ≠ [] →
  (Z.of_nat (length players) ≤ sys_maxsize)%Z →
  Forall splits_100 players →
  ∃ total result,
    of_int (spec_total_b players) = Ok total ∧
    calculate_payouts players = Ok result ∧
    GameResult.total_b_pool result = total ∧
    GameResult.boosted_pool result = round2 (mul total f1_5) ∧
    Qabs (payout_sum (GameResult.players result)
          - (inject_Z (spec_total_a players) + to_Q (GameResult.boosted_pool result)))
    <= inject_Z (Z.of_nat (length players)) * rounding_tolerance.
Proof.
  intros Hne Hlen Hall.
  set (n := Z.of_nat (length players)) in *.
  assert (1 ≤ n)%Z as Hn1 by (unfold n; destruct players; [done | simpl; lia]).
  unfold sys_maxsize in Hlen.
  destruct (spec_total_b_bound players) as [HT0 HThi].
  { eapply Forall_impl; [exact Hall|]. intros p Hp. by apply splits_100_range. }
  fold n in HThi.
  destruct (pool_approx (spec_total_b players)) as (total & Htotal & HBfin & HBhi); [done | lia |].
  set (B := round2 (mul total f1_5)) in *.
  destruct (count_approx n) as (my & ey & Hcount & _ & Hcerr); [done | lia |].
  pose proof (inject_ge_1 n Hn1) as Hn1'.
  set (z := to_Q B / inject_Z n).
  assert (inject_Z n * z == to_Q B) as Hz by (unfold z; field; lra).
  destruct (share_approx B my ey (inject_Z n) z) as (share & Hshare & Hsfin & Hshi & Hserr);
    [done | lra | | done | done |].
  { assert (inject_Z (spec_total_b players) <= inject_Z (100 * n)) as HT by by rewrite <- Zle_Qle.
    rewrite inject_Z_mult in HT. change (inject_Z 100) with 100 in HT. lra. }
  destruct (payout_loop_spec share players []) as (sums & Hsums & Hloop).
  { eapply Forall_impl; [exact Hall|]. intros p Hp. by apply splits_100_range. }
  assert (existsb missing_allocation players = false) as Hmiss.
  { apply not_true_is_false. rewrite existsb_missing_allocation.
    intros (p & Hin & Hp). rewrite Forall_forall in Hall.
    destruct (Hall p Hin) as (a & b & Ha & Hb & _). destruct Hp; congruence. }
  exists total, (GameResult.mk total B
       (zip_with (λ p s, PlayerPayout.mk (Player.id p) (Player.display_name p) (round2 s))
          players sums)).
  split; [done|]. split; [|split; [done|split; [done|]]].
  - rewrite calculate_payouts_nonempty by done.
    rewrite Hmiss, sum_allocation_b_spec.
    unfold int_mul_float, float_div_int.
    rewrite Htotal. simpl result_bind. fold n. rewrite Hcount. simpl result_bind.
    fold B. rewrite Hshare. simpl result_bind. by rewrite Hloop.
  - cbn [GameResult.players GameResult.boosted_pool]. rewrite <- Hz.
    apply (payout_sum_approx share); [done | done | done | done |].
    apply payout_records; [|done].
    eapply Forall_impl; [exact Hall|]. intros p Hp. by apply splits_100_range.
Qed.

End PayoutSum.

(** ** Integers that convert to float *)

Section Conversions.
Import PyFloat.

Lemma round_ne_sign s num den :
  round_ne s num den
  = match round_ne false num den with
    | S754_finite _ m e => S754_finite s m e
    | S754_infinity _ => S754_infinity s
    | S754_zero _ => S754_zero s
    | S754_nan => S754_nan
    end.
Proof.
  unfold round_ne.
  destruct (scaled_quot num den (Z.max (binade num den - (prec - 1)) emin) =? 2 ^ prec).
  - destruct (2 ^ (prec - 1)); [done | | done].
    by destruct (Z.max (binade num den - (prec - 1)) emin + 1 <=? emax - prec).
  - destruct (scaled_quot num den (Z.max (binade num den - (prec - 1)) emin)); [done | | done].
    by destruct (Z.max (binade num den - (prec - 1)) emin <=? emax - prec).
Qed.

(** Every int below [2^1000] in magnitude has a float. *)
Lemma converts_bounded z : Z.abs z < 2 ^ 1000 → converts z.
Proof.
  intros Hz. unfold converts.
  destruct (of_int_approx (Z.abs z)) as (f & Hf & _); [lia | |].
  { rewrite <- pow2_inject by lia. by rewrite <- Zlt_Qlt. }
  destruct z as [|p|p]; [by eexists | by eexists |].
  change (Z.abs (Z.neg p)) with (Z.pos p) in *. unfold of_int in *.
  change (Z.abs (Z.neg p)) with (Z.pos p). change (Z.abs (Z.pos p)) with (Z.pos p) in Hf.
  change (Z.neg p <? 0) with true. change (Z.pos p <? 0) with false in Hf.
  rewrite round_ne_sign. destruct (round_ne false (Z.pos p) 1); try done. by eexists.
Qed.

Lemma spec_total_b_int64 players :
  Forall (λ p, ∃ b, Player.allocation_b p = Some b ∧ int64 b) players →
  Z.abs (spec_total_b players) ≤ 2 ^ 63 * Z.of_nat (length players).
Proof.
  unfold spec_total_b, int64. induction 1 as [|p players (b & Hb & Hr) _ IH].
  - simpl. lia.
  - rewrite fmap_cons. cbn [foldr length]. rewrite Hb. cbn [default from_option id]. lia.
Qed.

(** C1. For a non-empty list of players that all have both allocations
    (integers of an [Integer] column, in a list as long as a Python list
    can be), [calculate_payouts] returns a result whose [boosted_pool] is
    the sum of the [allocation_b] times 1.5 rounded to two decimals, and
    whose [players] hold one record per player, in the order of the
    input, with the payout
    [round(allocation_a + boosted_pool / len(players), 2)]. *)
Theorem calculate_payouts_formula (players : list Player.t) :
  players ≠ [] →
  Z.of_nat (length players) ≤ sys_maxsize →
  Forall (λ p, ∃ a b, Player.allocation_a p = Some a ∧ Player.allocation_b p = Some b ∧
                      int64 a ∧ int64 b) players →
  ∃ total count share result,
    PyFloat.of_int (spec_total_b players) = Ok total ∧
    PyFloat.of_int (Z.of_nat (length players)) = Ok count ∧
    calculate_payouts players = Ok result ∧
    GameResult.boosted_pool result = PyFloat.round2 (PyFloat.mul total PyFloat.f1_5) ∧
    PyFloat.truediv (GameResult.boosted_pool result) count = Ok share ∧
    Forall2 (λ p r,
               PlayerPayout.player_id r = Player.id p ∧
               PlayerPayout.display_name r = Player.display_name p ∧
               ∃ a fa, Player.allocation_a p = Some a ∧ PyFloat.of_int a = Ok fa ∧
                       PlayerPayout.payout r = PyFloat.round2 (PyFloat.add fa share))
      players (GameResult.players result).
Proof.
  intros Hne Hlen Hall. unfold sys_maxsize in Hlen.
  apply calculate_payouts_returns; [done | | | |].
  - eapply Forall_impl; [exact Hall|]. intros p (a & b & -> & -> & _). by split.
  - apply converts_bounded.
    pose proof (spec_total_b_int64 players) as Hb. lapply Hb; [lia|].
    eapply Forall_impl; [exact Hall|]. intros p (a & b & _ & -> & _ & Hr). by exists b.
  - apply converts_bounded. lia.
  - eapply Forall_impl; [exact Hall|]. intros p (a & b & -> & _ & Ha & _).
    apply converts_bounded. unfold int64 in Ha. cbn [default from_option id]. lia.
Qed.

Lemma calculate_payouts_formula_witness :
  ∃ total count share result,
    PyFloat.of_int (spec_total_b Sample.opposite) = Ok total ∧
    PyFloat.of_int (Z.of_nat (length Sample.opposite)) = Ok count ∧
    calculate_payouts Sample.opposite = Ok result ∧
    GameResult.boosted_pool result = PyFloat.round2 (PyFloat.mul total PyFloat.f1_5) ∧
    PyFloat.truediv (GameResult.boosted_pool result) count = Ok share ∧
    Forall2 (λ p r,
               PlayerPayout.player_id r = Player.id p ∧
               PlayerPayout.display_name r = Player.display_name p ∧
               ∃ a fa, Player.allocation_a p = Some a ∧ PyFloat.of_int a = Ok fa ∧
                       PlayerPayout.payout r = PyFloat.round2 (PyFloat.add fa share))
      Sample.opposite (GameResult.players result).
Proof.
  apply calculate_payouts_formula.
  - discriminate.
  - vm_compute. discriminate.
  - repeat constructor; eexists _, _; (split; [reflexivity|]); (split; [reflexivity|]);
      vm_compute; repeat split; discriminate.
Defined.

End Conversions.

(** ** The payout sum on the samples *)

Section PayoutSumSamples.
Import PyFloat.
Local Open Scope Q_scope.

Lemma payout_sum_within_tolerance_witness :
  ∃ total result,
    of_int (spec_total_b Sample.half_cents) = Ok total ∧
    calculate_payouts Sample.half_cents = Ok result ∧
    GameResult.total_b_pool result = total ∧
    GameResult.boosted_pool result = round2 (mul total f1_5) ∧
    Qabs (payout_sum (GameResult.players result)
          - (inject_Z (spec_total_a Sample.half_cents)
             + to_Q (GameResult.boosted_pool result)))
    <= inject_Z (Z.of_nat (length Sample.half_cents)) * rounding_tolerance.
Proof.
  apply payout_sum_within_tolerance.
  - discriminate.
  - vm_compute. discriminate.
  - repeat constructor; eexists _, _; (split; [reflexivity|]); (split; [reflexivity|]);
      vm_compute; repeat split; discriminate.
Defined.

(** The half-cent ties of [Sample.half_cents] all go up: the payouts sum
    to 400.52 where the allocations and the pool make 400.50. *)
Example half_cents_sum :
  match calculate_payouts Sample.half_cents with
  | Ok result =>
      Qabs (payout_sum (GameResult.players result)
            - (inject_Z (spec_total_a Sample.half_cents)
               + to_Q (GameResult.boosted_pool result)) - (2 # 100)) <= 1 # 2 ^ 40
  | Raise _ => False
  end.
Proof. vm_compute. discriminate. Qed.

End PayoutSumSamples.

(** ** More on the broker: the registry of subscribers *)

Section MoreBroker.
Import RoomEventBroker.
Context {Event : Type}.
Variable json_dumps : Event → string.


Lemma added_nonempty (queue : nat) (subscribers : gset nat) : {[queue]} ∪ subscribers ≠ ∅.
Proof.
  intros Heq. assert (queue ∈ {[queue]} ∪ subscribers) as Hin.
  { apply elem_of_union. left. by apply elem_of_singleton. }
  rewrite Heq in Hin. by apply not_elem_of_empty in Hin.
Qed.

Lemma no_empty_room_step (o : op Event) b :
  no_empty_room b → no_empty_room (step json_dumps o b).2.
Proof.
  intros Hne. destruct o as [room_code|room_code event|queue|queue]; simpl.
  - intros c S. unfold subscribe. cbn [snd _subscribers].
    rewrite lookup_insert. case_decide; [|apply Hne].
    intros [= <-]. apply added_nonempty.
  - exact Hne.
  - unfold next. destruct (generators b !! queue); [|exact Hne].
    destruct (items b !! queue) as [[|payload pending]|]; exact Hne.
  - unfold unsubscribe. destruct (generators b !! queue) as [room_code|]; [|exact Hne].
    destruct (_subscribers b !! room_code) as [subscribers|] eqn:Hs; [|exact Hne].
    destruct (decide (subscribers ∖ {[queue]} = ∅)) as [Hlast|Hmore]; intros c S;
      cbn [_subscribers].
    + rewrite lookup_delete. case_decide; [done|]. apply Hne.
    + rewrite lookup_insert. case_decide; [|apply Hne]. by intros [= <-].
Qed.

Lemma run_invariants (ops : list (op Event)) b :
  well_formed b → no_empty_room b →
  well_formed (run json_dumps ops b).2 ∧ no_empty_room (run json_dumps ops b).2.
Proof.
  revert b. induction ops as [|o later IH]; intros b Hwf Hne; [done|]. simpl.
  pose proof (well_formed_step json_dumps o b Hwf) as Hwf1.
  pose proof (no_empty_room_step o b Hne) as Hne1.
  destruct (step json_dumps o b) as [out b1]. specialize (IH b1 Hwf1 Hne1).
  by destruct (run json_dumps later b1).
Qed.

Lemma no_empty_room_init : no_empty_room init.
Proof. intros c S. simpl. by rewrite lookup_empty. Qed.

(** X1. The dict of the broker holds the rooms with a running
    subscription and no others.  After any run of subscriptions,
    publications, reads and closed generators from the new broker, a room
    code is a key of [_subscribers] exactly when some running [subscribe]
    generator was opened for it; the set under the key is not empty, and
    its members are the queues of those generators. *)
Theorem registry_keeps_live_rooms_only (ops : list (op Event)) (room_code : string) :
  let b := (run json_dumps ops init).2 in
  (is_Some (_subscribers b !! room_code)
   ↔ ∃ queue, generators b !! queue = Some room_code) ∧
  (∀ subscribers queue,
     _subscribers b !! room_code = Some subscribers →
     subscribers ≠ ∅ ∧ (queue ∈ subscribers ↔ generators b !! queue = Some room_code)).
Proof.
  intros b.
  destruct (run_invariants ops init well_formed_init no_empty_room_init) as [Hwf Hne].
  fold b in Hwf, Hne. split; [split|].
  - intros [S HS]. pose proof (Hne _ _ HS) as Hnon.
    apply set_choose_L in Hnon as [queue Hq]. exists queue.
    apply (registry_generators _ Hwf). by rewrite HS.
  - intros [queue Hq]. apply (registry_generators _ Hwf) in Hq.
    destruct (_subscribers b !! room_code); [by eexists|]. simpl in Hq.
    by apply not_elem_of_empty in Hq.
  - intros S queue HS. split; [by eapply Hne|].
    rewrite <- (registry_generators _ Hwf). by rewrite HS.
Qed.


End MoreBroker.

(** ** More on the calculator: the order of the players *)

Section MoreCalculator.

Lemma payout_loop_converts share players acc out :
  payout_loop share players acc = Ok out →
  Forall (λ p, converts (or_0 (Player.allocation_a p))) players.
Proof.
  revert acc. induction players as [|p players IH]; intros acc; [constructor|].
  simpl. unfold PyFloat.int_add_float.
  destruct (PyFloat.of_int (or_0 (Player.allocation_a p))) as [fa|e] eqn:Hfa; [|discriminate].
  simpl. intros Hloop. constructor; [by exists fa | by eapply IH].
Qed.

Lemma zip_records (entry : Player.t → PlayerPayout.t) share players sums :
  (∀ p s, PyFloat.int_add_float (or_0 (Player.allocation_a p)) share = Ok s →
          PlayerPayout.mk (Player.id p) (Player.display_name p) (PyFloat.round2 s) = entry p) →
  Forall2 (λ p s, PyFloat.int_add_float (or_0 (Player.allocation_a p)) share = Ok s)
    players sums →
  zip_with (λ p s, PlayerPayout.mk (Player.id p) (Player.display_name p) (PyFloat.round2 s))
    players sums
  = entry <$> players.
Proof.
  intros Hentry. induction 1 as [|p s players sums Hs _ IH]; [done|].
  simpl. by rewrite (Hentry p s Hs), IH.
Qed.

Lemma spec_total_b_perm players players' :
  players ≡ₚ players' → spec_total_b players = spec_total_b players'.
Proof.
  unfold spec_total_b. induction 1 as [|p ps ps' _ IH|p q ps|ps1 ps2 ps3 _ IH1 _ IH2].
  - done.
  - rewrite !fmap_cons. simpl. by rewrite IH.
  - rewrite !fmap_cons. simpl. lia.
  - by rewrite IH1.
Qed.

Lemma missing_allocation_perm players players' :
  players ≡ₚ players' →
  existsb missing_allocation players' = existsb missing_allocation players.
Proof.
  intros Hperm. apply eq_true_iff_eq. rewrite !existsb_missing_allocation.
  split; intros (p & Hin & Hp); exists p; (split; [|done]).
  - by rewrite Hperm.
  - by rewrite <- Hperm.
Qed.

(** X3. The result of [calculate_payouts] does not depend on the order
    of the players, up to the order of its records.  If the call returns
    a result for a list, it returns one for every reordering of the list,
    with the same [total_b_pool] and [boosted_pool]; each player gets the
    same record in both, so the records of the one result are those of
    the other, reordered in the same way. *)
Theorem calculate_payouts_order_independent (players players' : list Player.t)
    (result : GameResult.t) :
  players ≡ₚ players' →
  calculate_payouts players = Ok result →
  ∃ (result' : GameResult.t) (entry : Player.t → PlayerPayout.t),
    calculate_payouts players' = Ok result' ∧
    GameResult.total_b_pool result' = GameResult.total_b_pool result ∧
    GameResult.boosted_pool result' = GameResult.boosted_pool result ∧
    GameResult.players result = entry <$> players ∧
    GameResult.players result' = entry <$> players' ∧
    GameResult.players result' ≡ₚ GameResult.players result.
Proof.
  intros Hperm Hcalc.
  assert (players ≠ []) as Hne by (intros ->; discriminate).
  assert (players' ≠ []) as Hne'.
  { intros ->. by apply Permutation_nil_r in Hperm. }
  rewrite calculate_payouts_nonempty in Hcalc by done.
  rewrite calculate_payouts_nonempty by done.
  rewrite (missing_allocation_perm _ _ Hperm).
  destruct (existsb missing_allocation players); [discriminate|].
  rewrite !sum_allocation_b_spec in *. rewrite <- (spec_total_b_perm _ _ Hperm).
  rewrite <- (Permutation_length Hperm).
  destruct (PyFloat.int_mul_float (spec_total_b players) PyFloat.f1_5) as [scaled|e];
    [|discriminate].
  simpl result_bind in *.
  destruct (PyFloat.float_div_int _ _) as [share|e]; [|discriminate].
  simpl result_bind in *.
  destruct (payout_loop share players []) as [payouts|e] eqn:Hloop; [|discriminate].
  simpl result_bind in Hcalc.
  destruct (PyFloat.of_int (spec_total_b players)) as [total|e]; [|discriminate].
  simpl in Hcalc. injection Hcalc as <-.
  set (entry := λ p : Player.t,
         PlayerPayout.mk (Player.id p) (Player.display_name p)
           (match PyFloat.int_add_float (or_0 (Player.allocation_a p)) share with
            | Ok s => PyFloat.round2 s
            | Raise _ => share
            end)).
  assert (∀ p s, PyFloat.int_add_float (or_0 (Player.allocation_a p)) share = Ok s →
            PlayerPayout.mk (Player.id p) (Player.display_name p) (PyFloat.round2 s)
            = entry p) as Hentry.
  { intros p s Hs. unfold entry. by rewrite Hs. }
  pose proof (payout_loop_converts _ _ _ _ Hloop) as Hconv.
  assert (Forall (λ p, converts (or_0 (Player.allocation_a p))) players') as Hconv'
    by by rewrite <- Hperm.
  destruct (payout_loop_spec share players [] Hconv) as (sums & Hsums & Heq).
  destruct (payout_loop_spec share players' [] Hconv') as (sums' & Hsums' & Heq').
  rewrite Heq in Hloop. injection Hloop as <-.
  rewrite Heq'. simpl.
  rewrite (zip_records entry share players sums Hentry Hsums).
  rewrite (zip_records entry share players' sums' Hentry Hsums').
  eexists _, entry. split; [done|]. simpl. split; [done|]. split; [done|].
  split; [done|]. split; [done|]. by rewrite Hperm.
Qed.

Lemma calculate_payouts_order_independent_witness :
  ∃ result result',
    calculate_payouts Sample.opposite = Ok result ∧
    calculate_payouts (reverse Sample.opposite) = Ok result' ∧
    GameResult.boosted_pool result' = GameResult.boosted_pool result ∧
    GameResult.players result' ≡ₚ GameResult.players result.
Proof.
  assert (∃ result, calculate_payouts Sample.opposite = Ok result) as [result Hcalc].
  { vm_compute. by eexists. }
  destruct (calculate_payouts_order_independent Sample.opposite (reverse Sample.opposite)
              result) as (result' & entry & Hcalc' & _ & Hpool & _ & _ & Hperm).
  - apply Permutation_sym, reverse_Permutation.
  - exact Hcalc.
  - exists result, result'. split; [exact Hcalc|]. split; [exact Hcalc'|].
    split; [exact Hpool | exact Hperm].
Defined.

End MoreCalculator.

(** ** More on the calculator: payouts in whole cents *)

Section WholeCents.
Import PyFloat.
Local Open Scope Q_scope.

Lemma cents_zero : Sample.cents 0 = S754_zero false.
Proof. vm_compute. reflexivity. Qed.

Lemma round2_is_cents x :
  nonneg_finite x →
  ∃ cents : Z,
    (0 ≤ cents)%Z ∧
    Qabs (inject_Z cents - 100 * to_Q x) <= 1 # 2 ∧
    round2 x = Sample.cents cents.
Proof.
  intros Hx. destruct x as [[]|[]| |[] m e]; try done.
  - exists 0%Z. split; [done|]. split; [by vm_compute|]. by rewrite cents_zero.
  - destruct (round2_cents m e) as (cents & H0 & Herr & Heq).
    exists cents. split; [done|]. split; [done|]. rewrite Heq.
    destruct cents; [by rewrite cents_zero|done..].
Qed.

(** An integer within less than 1 of another is that integer. *)
Lemma inject_Z_near (c d : Z) : Qabs (inject_Z c - inject_Z d) < 1 → c = d.
Proof.
  intros Hnear.
  assert (- 1 < inject_Z c - inject_Z d ∧ inject_Z c - inject_Z d < 1) as [Hlo Hhi].
  { destruct (Qlt_le_dec (inject_Z c - inject_Z d) 0) as [Hneg|Hpos].
    - rewrite Qabs_neg in Hnear by lra. lra.
    - rewrite Qabs_pos in Hnear by done. lra. }
  assert (d - 1 < c)%Z as H1.
  { rewrite Zlt_Qlt. unfold Zminus. rewrite inject_Z_plus, inject_Z_opp. change (inject_Z 1) with 1. lra. }
  assert (c < d + 1)%Z as H2.
  { rewrite Zlt_Qlt. rewrite inject_Z_plus. change (inject_Z 1) with 1. lra. }
  lia.
Qed.

Lemma pow2_40_bounds : (301 # 2 ^ 53) * 2 ^ 40 <= 1 # 4 ∧ 2 * 2 ^ 40 < 2 ^ 990.
Proof.
  split.
  - rewrite <- (pow2_inject 40) by lia. by vm_compute.
  - rewrite <- pow2_succ. change (40 + 1)%Z with 41%Z.
    replace 990%Z with (989 + 1)%Z by lia. rewrite pow2_succ.
    pose proof (pow2_le 41 989 ltac:(lia)). pose proof (pow2_pos 41). lra.
Qed.

(** The boosted pool of a total up to [2^40] is the float of [1.5 * total],
    a whole number of cents. *)
Lemma pool_cents (T : Z) :
  (0 ≤ T)%Z → (T ≤ 2 ^ 40)%Z →
  ∃ total, of_int T = Ok total ∧
    round2 (mul total f1_5) = Sample.cents (150 * T) ∧
    nonneg_finite (round2 (mul total f1_5)) ∧
    Qabs (to_Q (round2 (mul total f1_5)) - (3 # 2) * inject_Z T)
    <= (1 # 2 ^ 53) * ((3 # 2) * inject_Z T).
Proof.
  intros H0 Hhi. destruct (decide (T = 0%Z)) as [->|Hnz].
  { exists (S754_zero false). split; [done|]. split; [by vm_compute|]. split; [done|].
    by vm_compute. }
  pose proof (inject_le_pow2 T 40 ltac:(lia) Hhi) as Hhi'.
  pose proof (inject_ge_1 T ltac:(lia)) as Hlo'.
  destruct pow2_40_bounds as [Hsmall Hp]. pose proof pow2_1000 as Hp'.
  destruct (of_int_approx T) as (fT & HfT & HfTfin & HfTerr); [done | lra |].
  exists fT. split; [done|].
  apply Qabs_le_iff in HfTerr as [Hflo Hfhi].
  destruct (ulp_scale (inject_Z T)) as [Hk0 Hk]; [lra|].
  destruct (nonneg_finite_pos fT HfTfin) as (m & e & ->).
  { set (k := (1 # 2 ^ 53) * inject_Z T) in *. clearbody k. lra. }
  pose proof (mul_approx m e (3 * 2 ^ 51) (-52)) as Hm. cbv zeta in Hm.
  fold f1_5 in Hm. rewrite to_Q_f1_5 in Hm.
  set (x := to_Q (S754_finite false m e)) in *.
  destruct Hm as [Hmfin Hmerr].
  { set (k := (1 # 2 ^ 53) * inject_Z T) in *. clearbody k. lra. }
  { set (k := (1 # 2 ^ 53) * inject_Z T) in *. clearbody k. lra. }
  apply Qabs_le_iff in Hmerr as [Hmlo Hmhi].
  destruct (ulp_scale (x * (3 # 2))) as [Hk0' Hk']; [lra|].
  set (M := mul (S754_finite false m e) f1_5) in *.
  destruct (round2_is_cents M Hmfin) as (cents & Hc0 & Hcents & Hround).
  assert (cents = (150 * T)%Z) as ->.
  { apply inject_Z_near. rewrite inject_Z_mult. change (inject_Z 150) with 150.
    apply Qabs_le_iff in Hcents as [Hclo Hchi].
    assert ((1 # 2 ^ 53) * (x * (3 # 2)) <= (1 # 2 ^ 53) * ((3 # 2) * inject_Z T)
            + (1 # 2 ^ 53) * ((1 # 500) * inject_Z T)) as Hk2.
    { rewrite <- Qmult_plus_distr_r. apply Qmult_le_l; [done|].
      set (k := (1 # 2 ^ 53) * inject_Z T) in *. clearbody k. lra. }
    assert ((301 # 2 ^ 53) * inject_Z T <= 1 # 4) as Hquarter.
    { eapply Qle_trans; [|exact Hsmall]. by apply Qmult_le_l. }
    assert ((301 # 2 ^ 53) * inject_Z T == 301 * ((1 # 2 ^ 53) * inject_Z T)) as Hq301.
    { rewrite Qmult_assoc. apply Qmult_comp; reflexivity. }
    assert ((1 # 2 ^ 53) * ((3 # 2) * inject_Z T) == (3 # 2) * ((1 # 2 ^ 53) * inject_Z T))
      as Hq1 by ring.
    assert ((1 # 2 ^ 53) * ((1 # 500) * inject_Z T) == (1 # 500) * ((1 # 2 ^ 53) * inject_Z T))
      as Hq2 by ring.
    rewrite Hq301 in Hquarter. rewrite Hq1, Hq2 in Hk2.
    set (k := (1 # 2 ^ 53) * inject_Z T) in *.
    set (k' := (1 # 2 ^ 53) * (x * (3 # 2))) in *.
    set (c := inject_Z cents) in *. set (t := inject_Z T) in *. set (vM := to_Q M) in *.
    clearbody k k' c t vM x.
    apply Qabs_Qlt_condition. split; lra. }
  split; [done|]. rewrite Hround. unfold Sample.cents.
  destruct (round_ne_relative (150 * T) 100) as [Hfin Herr]; [done | lia | |].
  { rewrite inject_Z_mult. change (inject_Z 150) with 150. change (inject_Z 100) with 100.
    rewrite Hp'. lra. }
  split; [done|].
  assert (inject_Z (150 * T) / inject_Z 100 == (3 # 2) * inject_Z T) as Hval.
  { rewrite inject_Z_mult. change (inject_Z 150) with 150. change (inject_Z 100) with 100.
    field. }
  by rewrite Hval in Herr.
Qed.


(** The share against the exact [1.5 * total / count]. *)
Lemma share_exact B my ey n T y :
  let fn := S754_finite false my ey in
  nonneg_finite B → 1 <= n → 0 <= T → T <= 100 * n →
  Qabs (to_Q B - (3 # 2) * T) <= (1 # 2 ^ 53) * ((3 # 2) * T) →
  Qabs (to_Q fn - n) <= (1 # 2 ^ 53) * n →
  n * y == (3 # 2) * T →
  ∃ share, truediv B fn = Ok share ∧ nonneg_finite share ∧ to_Q share <= 202 ∧
           0 <= y ∧ y <= 150 ∧ Qabs (to_Q share - y) <= 1 # 2 ^ 42.
Proof.
  intros fn HB Hn HT0 HT HBerr Hfn Hy.
  set (z := to_Q B / n).
  assert (n * z == to_Q B) as Hz by (unfold z; field; lra).
  apply Qabs_le_iff in HBerr as [HBlo HBhi].
  destruct (ulp_scale ((3 # 2) * T)) as [Hk0 Hk]; [lra|].
  assert ((1 # 2 ^ 53) * ((3 # 2) * T) <= (150 # 2 ^ 53) * n) as Hk150.
  { assert ((150 # 2 ^ 53) * n == (1 # 2 ^ 53) * (150 * n)) as ->.
    { rewrite Qmult_assoc. apply Qmult_comp; reflexivity. }
    apply Qmult_le_l; [done|]. lra. }
  set (k := (1 # 2 ^ 53) * ((3 # 2) * T)) in *.
  destruct (share_approx B my ey n z) as (share & Hshare & Hfin & Hhi & Herr);
    [done | lra | clearbody k; lra | done | done |].
  exists share. split; [done|]. split; [done|]. split; [done|].
  apply Qabs_le_iff in Herr as [Helo Hehi].
  assert ((1 # 2 ^ 43) + (150 # 2 ^ 53) <= 1 # 2 ^ 42) as Hconst by done.
  set (v := 1 # 2 ^ 43) in *. set (w := 150 # 2 ^ 53) in *. set (t := 1 # 2 ^ 42) in *.
  set (s := to_Q share) in *. set (b := to_Q B) in *.
  clearbody k v w t s b z.
  assert (0 <= y) as Hy0.
  { destruct (Qlt_le_dec y 0) as [Hneg|]; [|done]. nra. }
  assert (y <= 150) as Hy150.
  { destruct (Qlt_le_dec 150 y) as [Hbig|]; [|done]. nra. }
  split; [done|]. split; [done|].
  assert (z - y <= w) as Hd1.
  { destruct (Qlt_le_dec w (z - y)) as [Hbig|]; [|done]. nra. }
  assert (y - z <= w) as Hd2.
  { destruct (Qlt_le_dec w (y - z)) as [Hbig|]; [|done]. nra. }
  apply Qabs_le_iff. split; lra.
Qed.

(** One payout: a whole number of cents, within 0.51 of a cent of
    [allocation_a + y] for the exact share [y]. *)
Lemma payout_cents a fa share y :
  (0 ≤ a ≤ 100)%Z → of_int a = Ok fa →
  nonneg_finite share → to_Q share <= 202 →
  0 <= y → y <= 150 → Qabs (to_Q share - y) <= 1 # 2 ^ 42 →
  ∃ c : Z,
    (0 ≤ c ≤ 25000)%Z ∧ round2 (add fa share) = Sample.cents c ∧
    Qabs (inject_Z c - 100 * (inject_Z a + y)) <= 51 # 100.
Proof.
  intros Ha Hfa Hfin Hhi Hy0 Hy150 Herr.
  assert (0 <= inject_Z a ∧ inject_Z a <= 100) as [Ha0 Ha100].
  { change 0 with (inject_Z 0). change 100 with (inject_Z 100).
    rewrite <- !Zle_Qle. lia. }
  assert (128 <= 2 ^ 1000) as Hp.
  { change 128 with (2 ^ 7). apply pow2_le. lia. }
  destruct (of_int_approx a) as (fa' & Hfa' & Hfafin & Hfaerr); [lia | lra |].
  rewrite Hfa in Hfa'. injection Hfa' as <-. clear Hp.
  assert ((1 # 2 ^ 53) * inject_Z a <= 100 # 2 ^ 53) as Hk.
  { assert ((100 # 2 ^ 53) == (1 # 2 ^ 53) * 100) as -> by reflexivity.
    by apply Qmult_le_l. }
  set (k := (1 # 2 ^ 53) * inject_Z a) in *.
  apply Qabs_le_iff in Hfaerr as [Hfalo Hfahi].
  apply Qabs_le_iff in Herr as [Hslo Hshi].
  pose proof (to_Q_nonneg share Hfin) as Hs0.
  assert ((100 # 2 ^ 53) <= 1 # 10) as Hc1 by done.
  assert ((1 # 2 ^ 45) <= 1 # 10) as Hc2 by done.
  assert (100 * ((1 # 2 ^ 45) + (100 # 2 ^ 53) + (1 # 2 ^ 42)) <= 1 # 100) as Hc3 by done.
  set (c100 := 100 # 2 ^ 53) in *. set (u := 1 # 2 ^ 45) in *. set (v := 1 # 2 ^ 42) in *.
  destruct (add_approx fa share) as [Hafin Haerr]; [done | done | |].
  { clearbody k c100 u v. lra. }
  apply Qabs_le_iff in Haerr as [Halo Hahi]. fold u in Halo, Hahi.
  destruct (round2_is_cents (add fa share) Hafin) as (c & Hc0 & Hcents & Hround).
  apply Qabs_le_iff in Hcents as [Hclo Hchi].
  set (S := to_Q (add fa share)) in *. set (qa := inject_Z a) in *.
  set (s := to_Q share) in *. set (f := to_Q fa) in *.
  assert (inject_Z c - 100 * (qa + y) <= 51 # 100 ∧ - (51 # 100) <= inject_Z c - 100 * (qa + y))
    as [Hup Hdown].
  { clearbody k c100 u v S qa s f. split; lra. }
  exists c. split; [|split; [done|]].
  - split; [done|]. assert (c < 25001)%Z; [|lia].
    rewrite Zlt_Qlt. change (inject_Z 25001) with 25001.
    clearbody k c100 u v S qa s f. lra.
  - apply Qabs_le_iff. split; lra.
Qed.

Lemma payouts_whole_cents share y n T players payouts :
  nonneg_finite share → to_Q share <= 202 →
  0 <= y → y <= 150 → Qabs (to_Q share - y) <= 1 # 2 ^ 42 →
  n * y == (3 # 2) * T → 0 <= n →
  Forall splits_100 players →
  Forall2 (λ p r,
             PlayerPayout.player_id r = Player.id p ∧
             PlayerPayout.display_name r = Player.display_name p ∧
             ∃ a fa, Player.allocation_a p = Some a ∧ of_int a = Ok fa ∧
                     PlayerPayout.payout r = round2 (add fa share))
    players payouts →
  Forall2 (λ p r,
             ∃ c : Z,
               (0 ≤ c ≤ 25000)%Z ∧ PlayerPayout.payout r = Sample.cents c ∧
               Qabs (n * (inject_Z c - 100 * inject_Z (or_0 (Player.allocation_a p)))
                     - 150 * T) <= n * (51 # 100))
    players payouts.
Proof.
  intros Hfin Hhi Hy0 Hy150 Herr Hny Hn Hall Hrec.
  induction Hrec as [|p r players payouts (_ & _ & a & fa & Ha & Hfa & Hr) _ IH];
    [constructor|].
  apply Forall_cons in Hall as [(a' & b & Ha' & Hb & Ha0 & Hb0 & Hsum) Hall].
  constructor; [|by apply IH]. rewrite Ha in Ha'. injection Ha' as <-.
  destruct (payout_cents a fa share y ltac:(lia) Hfa Hfin Hhi Hy0 Hy150 Herr)
    as (c & Hc & Hcents & Hnear).
  exists c. split; [done|]. split; [by rewrite Hr|]. rewrite Ha. cbn [or_0].
  apply Qabs_le_iff in Hnear as [Hlo Hup].
  set (qc := inject_Z c) in *. set (qa := inject_Z a) in *. clearbody qc qa.
  apply Qabs_le_iff. split; nra.
Qed.

(** X4. Payouts are whole cents.  For a non-empty list of at most
    [2^32] players whose allocations are set, not negative and sum to
    100, [calculate_payouts] returns a result; its [boosted_pool] is the
    float nearest to the decimal of [150 * total_b] cents; and the payout
    of every player is the float nearest to a whole number [c] of cents,
    [0 ≤ c ≤ 25000], where [c] cents is within 0.51 of a cent of
    [allocation_a + 1.5 * total_b / count]. *)
Theorem payouts_are_whole_cents (players : list Player.t) :
  players ≠ [] →
  (Z.of_nat (length players) ≤ 2 ^ 32)%Z →
  Forall splits_100 players →
  ∃ result,
    calculate_payouts players = Ok result ∧
    GameResult.boosted_pool result = Sample.cents (150 * spec_total_b players) ∧
    Forall2 (λ p r,
               ∃ c : Z,
                 (0 ≤ c ≤ 25000)%Z ∧ PlayerPayout.payout r = Sample.cents c ∧
                 Qabs (inject_Z (Z.of_nat (length players))
                       * (inject_Z c - 100 * inject_Z (or_0 (Player.allocation_a p)))
                       - 150 * inject_Z (spec_total_b players))
                 <= inject_Z (Z.of_nat (length players)) * (51 # 100))
      players (GameResult.players result).
Proof.
  intros Hne Hlen Hall.
  set (n := Z.of_nat (length players)) in *.
  assert (1 ≤ n)%Z as Hn1 by (unfold n; destruct players; [done | simpl; lia]).
  destruct (spec_total_b_bound players) as [HT0 HThi].
  { eapply Forall_impl; [exact Hall|]. intros p Hp. by apply splits_100_range. }
  fold n in HThi. set (T := spec_total_b players) in *.
  assert (2 ^ 40 = 256 * 2 ^ 32)%Z as Hpow by reflexivity.
  destruct (pool_cents T) as (total & Htotal & HBcents & HBfin & HBerr); [done | lia |].
  set (B := round2 (mul total f1_5)) in *.
  assert (2 ^ 63 = 2147483648 * 2 ^ 32)%Z as Hpow' by reflexivity.
  destruct (count_approx n) as (my & ey & Hcount & _ & Hcerr); [done | lia |].
  pose proof (inject_ge_1 n Hn1) as Hn1'.
  assert (0 <= inject_Z T ∧ inject_Z T <= 100 * inject_Z n) as [HT0' HThi'].
  { split.
    - change 0 with (inject_Z 0). by rewrite <- Zle_Qle.
    - change 100 with (inject_Z 100). rewrite <- inject_Z_mult. by rewrite <- Zle_Qle. }
  set (y := (3 # 2) * inject_Z T / inject_Z n).
  assert (inject_Z n * y == (3 # 2) * inject_Z T) as Hy by (unfold y; field; lra).
  destruct (share_exact B my ey (inject_Z n) (inject_Z T) y)
    as (share & Hshare & Hsfin & Hshi & Hy0 & Hy150 & Hserr); [done..|].
  destruct (payout_loop_spec share players []) as (sums & Hsums & Hloop).
  { eapply Forall_impl; [exact Hall|]. intros p Hp. by apply splits_100_range. }
  assert (existsb missing_allocation players = false) as Hmiss.
  { apply not_true_is_false. rewrite existsb_missing_allocation.
    intros (p & Hin & Hp). rewrite Forall_forall in Hall.
    destruct (Hall p Hin) as (a & b & Ha & Hb & _). destruct Hp; congruence. }
  exists (GameResult.mk total B
       (zip_with (λ p s, PlayerPayout.mk (Player.id p) (Player.display_name p) (round2 s))
          players sums)).
  split; [|split; [done|]].
  - rewrite calculate_payouts_nonempty by done.
    rewrite Hmiss, sum_allocation_b_spec. fold T.
    unfold int_mul_float, float_div_int.
    rewrite Htotal. simpl result_bind. fold n. rewrite Hcount. simpl result_bind.
    fold B. rewrite Hshare. simpl result_bind. by rewrite Hloop.
  - cbn [GameResult.players].
    apply (payouts_whole_cents share y); [done | done | done | done | done | done | lra | done |].
    apply payout_records; [|done].
    eapply Forall_impl; [exact Hall|]. intros p Hp. by apply splits_100_range.
Qed.

Lemma payouts_are_whole_cents_witness :
  ∃ result,
    calculate_payouts Sample.half_cents = Ok result ∧
    GameResult.boosted_pool result = Sample.cents (150 * spec_total_b Sample.half_cents) ∧
    Forall (λ r, ∃ c : Z, (0 ≤ c ≤ 25000)%Z ∧ PlayerPayout.payout r = Sample.cents c)
      (GameResult.players result).
Proof.
  destruct (payouts_are_whole_cents Sample.half_cents) as (result & Hcalc & Hpool & Hcents).
  - discriminate.
  - vm_compute. discriminate.
  - unfold Sample.half_cents, Sample.make_player.
    repeat constructor; eexists _, _; (split; [reflexivity|]); (split; [reflexivity|]); lia.
  - exists result. split; [exact Hcalc|]. split; [exact Hpool|].
    clear Hcalc Hpool. induction Hcents as [|p r ps rs (c & Hc & Hr & _) _ IH]; constructor.
    + by exists c.
    + exact IH.
Defined.

End WholeCents.

(** ** Room codes *)

Section RoomCodes.

Lemma join_choices_spec alphabet indices :
  Forall (λ r, is_Some (String.get r alphabet)) indices →
  ∃ code,
    join_choices alphabet indices = Some code ∧
    String.length code = length indices ∧
    ∀ i r, indices !! i = Some r →
           ∃ c, String.get i code = Some c ∧ String.get r alphabet = Some c.
Proof.
  induction 1 as [|r indices [c Hc] _ (code & Hcode & Hlen & Hget)].
  - exists EmptyString. split; [done|]. split; [done|]. intros i r. by rewrite lookup_nil.
  - exists (String c code). simpl. unfold choice. rewrite Hc, Hcode.
    split; [done|]. split; [by rewrite Hlen|].
    intros [|i] r'; simpl.
    + intros [= <-]. by exists c.
    + apply Hget.
Qed.

Lemma alphabet_characters r :
  (r < 36)%nat →
  ∃ c, String.get r (ascii_uppercase +:+ digits) = Some c ∧ code_character c.
Proof.
  intros Hr. unfold code_character.
  do 36 (destruct r as [|r]; [eexists; split; [reflexivity|vm_compute; lia]|]). lia.
Qed.

Lemma alphabet_distinct r r' :
  (r < 36)%nat → (r' < 36)%nat →
  String.get r (ascii_uppercase +:+ digits) = String.get r' (ascii_uppercase +:+ digits) →
  r = r'.
Proof.
  intros Hr Hr' Heq.
  assert (forallb (λ i, forallb (λ j,
            implb (bool_decide (String.get i (ascii_uppercase +:+ digits)
                                = String.get j (ascii_uppercase +:+ digits)))
                  (Nat.eqb i j)) (seq 0 36)) (seq 0 36) = true) as Hall
    by (vm_compute; reflexivity).
  rewrite forallb_forall in Hall. specialize (Hall r). rewrite forallb_forall in Hall.
  specialize (Hall ltac:(apply in_seq; lia) r' ltac:(apply in_seq; lia)).
  rewrite bool_decide_eq_true_2 in Hall by done. by apply Nat.eqb_eq in Hall.
Qed.

(** X5. [_generate_room_code] with draws below 36, the number of
    characters of the alphabet, returns a code of the length asked for;
    each of its characters is an upper-case letter or a digit, the one at
    the index drawn for its position; and different draws give different
    codes, so the codes of a length are as many as the sequences of
    draws. *)
Theorem generate_room_code_spec (length : nat) (randbelow randbelow' : nat → nat) :
  (∀ i, (i < length)%nat → (randbelow i < 36)%nat) →
  (∀ i, (i < length)%nat → (randbelow' i < 36)%nat) →
  ∃ code,
    _generate_room_code length randbelow = Some code ∧
    String.length code = length ∧
    (∀ i, (i < length)%nat →
          ∃ c, String.get i code = Some c ∧ code_character c ∧
               String.get (randbelow i) (ascii_uppercase +:+ digits) = Some c) ∧
    (_generate_room_code length randbelow' = Some code →
     ∀ i, (i < length)%nat → randbelow' i = randbelow i).
Proof.
  intros Hdraws Hdraws'.
  assert (∀ rb : nat → nat, (∀ i, (i < length)%nat → (rb i < 36)%nat) →
            Forall (λ r, is_Some (String.get r (ascii_uppercase +:+ digits)))
              (rb <$> seq 0 length)) as Hvalid.
  { intros rb Hrb. apply Forall_fmap, Forall_forall. intros i Hi.
    apply elem_of_seq in Hi. destruct (alphabet_characters (rb i)) as (c & Hc & _).
    - apply Hrb. lia.
    - by exists c. }
  destruct (join_choices_spec _ _ (Hvalid randbelow Hdraws)) as (code & Hcode & Hlen & Hget).
  exists code. split; [done|]. split; [by rewrite Hlen, length_fmap, length_seq|].
  assert (∀ (rb : nat → nat) i, (i < length)%nat → (rb <$> seq 0 length) !! i = Some (rb i))
    as Hnth.
  { intros rb i Hi. rewrite list_lookup_fmap, lookup_seq_lt by done. done. }
  split.
  - intros i Hi. destruct (Hget i (randbelow i) (Hnth randbelow i Hi)) as (c & Hc & Ha).
    exists c. split; [done|]. split; [|done].
    destruct (alphabet_characters (randbelow i) (Hdraws i Hi)) as (c' & Hc' & Hclass).
    rewrite Ha in Hc'. by injection Hc' as <-.
  - intros Hcode' i Hi.
    destruct (join_choices_spec _ _ (Hvalid randbelow' Hdraws')) as (code' & Hc' & _ & Hget').
    unfold _generate_room_code in Hcode'. cbv zeta in Hcode'. rewrite Hc' in Hcode'.
    injection Hcode' as ->.
    destruct (Hget i _ (Hnth randbelow i Hi)) as (c & Hc & Ha).
    destruct (Hget' i _ (Hnth randbelow' i Hi)) as (c2 & Hc2 & Ha2).
    rewrite Hc in Hc2. injection Hc2 as <-.
    apply alphabet_distinct; [by apply Hdraws' | by apply Hdraws | congruence].
Qed.

Lemma generate_room_code_spec_witness :
  ∃ code,
    _generate_room_code 6 (λ i, 7 * i)%nat = Some code ∧
    String.length code = 6%nat ∧ code = "AHOV29".
Proof.
  destruct (generate_room_code_spec 6 (λ i, 7 * i)%nat (λ i, 7 * i)%nat)
    as (code & Hcode & Hlen & _); [intros i Hi; lia..|].
  exists code. split; [exact Hcode|]. split; [exact Hlen|].
  vm_compute in Hcode. by injection Hcode as <-.
Defined.

End RoomCodes.

(** ** More on the service: creation, listing, unknown rooms *)

Section MoreService.




Lemma joined_at_time_insert t p l :
  joined_at_time t (insert_by_joined_at p l) = joined_at_time t (p :: l).
Proof.
  unfold joined_at_time. induction l as [|q l IH]; [done|]. simpl.
  case_decide as Hpq; [done|].
  rewrite (filter_cons _ q (insert_by_joined_at p l)), IH, !filter_cons.
  destruct (decide (Player.joined_at p = t)), (decide (Player.joined_at q = t));
    try done. lia.
Qed.

Lemma insert_by_joined_at_sorted p l :
  StronglySorted joined_before l → StronglySorted joined_before (insert_by_joined_at p l).
Proof.
  induction 1 as [|q l Hl IH Hq]; simpl; [repeat constructor|].
  case_decide as Hpq.
  - constructor; [by constructor|]. constructor; [done|].
    eapply Forall_impl; [exact Hq|]. intros r Hr. unfold joined_before in *. lia.
  - constructor; [done|]. rewrite insert_by_joined_at_perm. constructor; [|done].
    unfold joined_before. lia.
Qed.

Lemma order_by_joined_at_sorted l : StronglySorted joined_before (order_by_joined_at l).
Proof.
  unfold order_by_joined_at. induction l as [|p l IH]; simpl; [constructor|].
  by apply insert_by_joined_at_sorted.
Qed.

Lemma order_by_joined_at_stable t l :
  joined_at_time t (order_by_joined_at l) = joined_at_time t l.
Proof.
  unfold order_by_joined_at. induction l as [|p l IH]; simpl; [done|].
  rewrite joined_at_time_insert. unfold joined_at_time in *.
  by rewrite !filter_cons, IH.
Qed.

(** X7. [list_players] raises HTTP 404 for an unknown room and changes
    nothing; for a known room it returns the rows of the room, each once,
    sorted by [joined_at], and rows that joined at the same time come in
    the order they were inserted. *)
Theorem list_players_in_join_order (code : string) (db : DB) :
  (rooms db !! code = None →
     GameService.list_players code db
     = (Raise (HTTPException HTTP_404_NOT_FOUND "Room not found"), db)) ∧
  (is_Some (rooms db !! code) →
     ∃ listed,
       GameService.list_players code db = (Ok listed, db) ∧
       listed ≡ₚ filter (λ p, in_room code p = true) (rows_by_rowid db) ∧
       StronglySorted joined_before listed ∧
       ∀ t, joined_at_time t listed
            = joined_at_time t (filter (λ p, in_room code p = true) (rows_by_rowid db))).
Proof.
  rewrite list_players_unfold. split.
  - by intros ->.
  - intros [room ->]. exists (select_players code db). split; [done|].
    unfold select_players. split; [apply order_by_joined_at_perm|].
    split; [apply order_by_joined_at_sorted|]. intros t. apply order_by_joined_at_stable.
Qed.

(** Bob and Ann join in the same second, Bob first: Bob is listed first. *)
Example list_players_tie :
  Player.id <$> select_players "ROOM01"
                  (mkDB {[ "ROOM01" := Sample.room ]}
                     (<["p1" := Sample.ann]>
                        {[ "p2" := Player.mk "p2" "ROOM01" "Bob" None None None None 1 ]})
                     ["p2"; "p1"])
  = ["p2"; "p1"].
Proof. vm_compute. reflexivity. Qed.

(** Forty letters with an accent are forty characters and pass; sixty-five
    plain letters do not. *)
Example display_name_length :
  rooms_router.valid_PlayerCreate
    (PlayerCreate.mk "éééééééééééééééééééééééééééééééééééééééé") = true ∧
  rooms_router.valid_PlayerCreate
    (PlayerCreate.mk "ABCDEFGHIJKLMNOPQRSTUVWXYZABCDEFGHIJKLMNOPQRSTUVWXYZABCDEFGHIJKLM")
  = false ∧
  rooms_router.valid_PlayerCreate (PlayerCreate.mk "") = false.
Proof. vm_compute. by repeat split. Qed.

(** X8. A room code that no room has is not found by any operation:
    [get_room], [list_players], the room detail and [join_room] raise
    HTTP 404 "Room not found"; [leave_room] and a [submit_allocation]
    with a valid sum raise HTTP 404 "Player not found", for every player
    id, as no player belongs to that room; and the store is unchanged. *)
Theorem unknown_room_is_not_found (db : DB) (code : string) :
  schema_ok db →
  rooms db !! code = None →
  GameService.get_room code db
  = (Raise (HTTPException HTTP_404_NOT_FOUND "Room not found"), db) ∧
  GameService.list_players code db
  = (Raise (HTTPException HTTP_404_NOT_FOUND "Room not found"), db) ∧
  rooms_router.room_detail code db
  = (Raise (HTTPException HTTP_404_NOT_FOUND "Room not found"), db) ∧
  (∀ display_name uuid now,
     GameService.join_room code display_name uuid now db
     = (Raise (HTTPException HTTP_404_NOT_FOUND "Room not found"), db)) ∧
  (∀ player_id,
     GameService.leave_room code player_id db
     = (Raise (HTTPException HTTP_404_NOT_FOUND "Player not found"), db)) ∧
  (∀ player_id a b now,
     a + b = 100 →
     GameService.submit_allocation code player_id a b now db
     = (Raise (HTTPException HTTP_404_NOT_FOUND "Player not found"), db)).
Proof.
  intros [Hpk Hfk] Hroom.
  assert (∀ player_id p, players db !! player_id = Some p →
            negb (bool_decide (Player.room_code p = code)) = true) as Helse.
  { intros player_id p Hp. apply negb_true_iff, bool_decide_eq_false. intros Heq.
    destruct (Hfk _ _ Hp) as [r Hr]. rewrite Heq in Hr. congruence. }
  split; [by rewrite get_room_unfold, Hroom|].
  split; [by rewrite list_players_unfold, Hroom|].
  split; [by rewrite room_detail_unfold, Hroom|].
  split.
  { intros. unfold GameService.join_room. by rewrite run_then, get_room_unfold, Hroom. }
  split.
  - intros player_id. unfold GameService.leave_room. cbn [run].
    unfold GameService.db_get_player at 1.
    destruct (players db !! player_id) as [p|] eqn:Hp; [|done]. by rewrite (Helse _ _ Hp).
  - intros player_id a b now Hsum. rewrite submit_allocation_unfold by done.
    rewrite (proj2 (Z.eqb_eq _ _) Hsum). cbn [negb].
    destruct (players db !! player_id) as [p|] eqn:Hp; [|done]. by rewrite (Helse _ _ Hp).
Qed.

Lemma unknown_room_is_not_found_witness :
  GameService.get_room "NOROOM" Sample.db
  = (Raise (HTTPException HTTP_404_NOT_FOUND "Room not found"), Sample.db) ∧
  GameService.join_room "NOROOM" "Cid" "p3" 5 Sample.db
  = (Raise (HTTPException HTTP_404_NOT_FOUND "Room not found"), Sample.db) ∧
  GameService.leave_room "NOROOM" "p1" Sample.db
  = (Raise (HTTPException HTTP_404_NOT_FOUND "Player not found"), Sample.db) ∧
  GameService.submit_allocation "NOROOM" "p1" 60 40 5 Sample.db
  = (Raise (HTTPException HTTP_404_NOT_FOUND "Player not found"), Sample.db).
Proof.
  destruct (unknown_room_is_not_found Sample.db "NOROOM" sample_schema_ok)
    as (Hget & _ & _ & Hjoin & Hleave & Hsubmit); [reflexivity|].
  split; [exact Hget|]. split; [apply Hjoin|]. split; [apply Hleave|].
  apply Hsubmit. reflexivity.
Defined.

Lemma waiting_below_capacity db code room :
  consistent db → rooms db !! code = Some room →
  count_players db code < Room.max_players room →
  Room.status room = STATUS_WAITING.
Proof.
  intros Hc Hroom Hlt. pose proof (rooms_ok _ Hc code room Hroom) as [_ Hok].
  rewrite (room_keys _ Hc code room Hroom) in Hok.
  destruct (Room.status room); [done | lia | lia].
Qed.

Lemma filter_ne_fresh (ids : list string) (k : string) :
  k ∉ ids → filter (λ id, id ≠ k) (ids ++ [k]) = ids.
Proof.
  intros Hk. rewrite filter_app, filter_cons, filter_nil.
  rewrite decide_False by (intros H; by apply H). rewrite app_nil_r.
  induction ids as [|j ids IH]; [done|].
  apply not_elem_of_cons in Hk as [Hne Hk]. rewrite filter_cons.
  rewrite decide_True by done. by rewrite IH.
Qed.

(** X9. When requests are served one at a time, a join that is undone
    by a leave gives back the store as it was: in a room with a free seat
    [join_room] adds the player, and [leave_room] of that player then
    returns the player, the room with its former status, and the former
    store. *)
Theorem join_then_leave_restores (db : DB) (code display_name uuid : string)
    (now : Z) (room : Room.t) :
  serially_reachable db →
  rooms db !! code = Some room →
  count_players db code < Room.max_players room →
  players db !! uuid = None →
  ∃ player db',
    GameService.join_room code display_name uuid now db = (Ok player, db') ∧
    players db' !! uuid = Some player ∧
    GameService.leave_room code uuid db' = (Ok (player, room), db).
Proof.
  intros Hc%serially_reachable_consistent Hroom Hfree Hfresh.
  pose proof (room_keys _ Hc code room Hroom) as Hkey.
  pose proof (waiting_below_capacity db code room Hc Hroom Hfree) as Hwait.
  assert (uuid ∉ arrivals db) as Hrowid.
  { intros [? Hin]%(proj2 (player_rowids _ Hc)). congruence. }
  assert (mkDB (rooms db) (players db) (arrivals db) = db) as Hdb by by destruct db.
  rewrite join_room_unfold by apply Hc. rewrite Hroom.
  rewrite Z.geb_leb, (proj2 (Z.leb_gt _ _)) by lia. rewrite Hfresh. cbv zeta.
  eexists _, _. split; [done|]. split; [apply lookup_insert_eq|].
  set (player := Player.mk uuid (Room.code room) display_name None None None None now).
  assert ((count_where (in_room code) (players db) <? Room.max_players room) = true) as Hlt.
  { apply Z.ltb_lt. exact Hfree. }
  destruct (count_players db code + 1 =? Room.max_players room) eqn:Hfill.
  - rewrite leave_room_unfold.
    2:{ cbn [rooms]. intros c r. rewrite lookup_insert. case_decide; [|apply Hc].
        intros [= <-]. simpl. congruence. }
    cbn [players rooms arrivals]. rewrite lookup_insert_eq.
    cbn [Player.id Player.room_code player]. rewrite Hkey, bool_decide_eq_true_2 by done.
    cbn [negb]. rewrite lookup_insert_eq.
    cbn [Room.status Room.with_status Room.code Room.max_players].
    rewrite bool_decide_eq_false_2 by done. rewrite bool_decide_eq_true_2 by done.
    rewrite delete_insert_id by done. rewrite Hlt. cbn [andb].
    assert (Room.with_status (Room.with_status room STATUS_READY) STATUS_WAITING = room)
      as ->.
    { destruct room. simpl in *. by subst. }
    rewrite Hkey, insert_insert_eq, filter_ne_fresh by done.
    rewrite insert_id by done. by rewrite Hdb.
  - rewrite leave_room_unfold by apply Hc.
    cbn [players rooms arrivals]. rewrite lookup_insert_eq.
    cbn [Player.id Player.room_code player]. rewrite Hkey, bool_decide_eq_true_2 by done.
    cbn [negb]. rewrite Hroom, Hwait.
    rewrite bool_decide_eq_false_2 by done. rewrite bool_decide_eq_false_2 by done.
    rewrite andb_false_r. rewrite delete_insert_id, filter_ne_fresh by done.
    by rewrite Hdb.
Qed.

Lemma join_then_leave_restores_witness :
  ∃ player db',
    GameService.join_room "ROOM01" "Bob" "p2" 2 (serve_all (take 2 Sample.game) empty_db).2
    = (Ok player, db') ∧
    players db' !! "p2" = Some player ∧
    GameService.leave_room "ROOM01" "p2" db'
    = (Ok (player, Room.mk "ROOM01" 2 STATUS_WAITING),
       (serve_all (take 2 Sample.game) empty_db).2).
Proof.
  apply join_then_leave_restores.
  - by exists (take 2 Sample.game).
  - vm_compute. reflexivity.
  - vm_compute. reflexivity.
  - vm_compute. reflexivity.
Defined.

End MoreService.

(** ** The handlers: responses and events when requests do not overlap *)

Section MoreRouter.

(** X10. The [join_room] handler on a room with a free seat, for a
    player id that is not in use, when requests are served one at a time:
    a display name outside 1 to 64 characters is rejected by validation
    and nothing changes; otherwise the response is the new player, not
    submitted and without allocation or payout, one [player_joined] event
    with that body is published, and the room has one more player. *)
Theorem join_room_response (db : DB) (code : string) (payload : PlayerCreate.t)
    (uuid : string) (now : Z) (room : Room.t) :
  serially_reachable db →
  rooms db !! code = Some room →
  count_players db code < Room.max_players room →
  players db !! uuid = None →
  let name := PlayerCreate.display_name payload in
  let data := PlayerRead.mk uuid name false None None None in
  (rooms_router.valid_PlayerCreate payload = false →
     rooms_router.join_room code payload uuid now db = (Raise RequestValidationError, db)) ∧
  (rooms_router.valid_PlayerCreate payload = true →
     ∃ db',
       rooms_router.join_room code payload uuid now db
       = (Ok (Body_PlayerRead data, [player_joined code data]), db') ∧
       players db' = <[uuid := Player.mk uuid code name None None None None now]> (players db) ∧
       count_players db' code = count_players db code + 1).
Proof.
  intros Hc%serially_reachable_consistent Hroom Hfree Hfresh name data.
  pose proof (room_keys _ Hc code room Hroom) as Hkey.
  unfold rooms_router.join_room, rooms_router.validated. split; intros ->; [done|].
  rewrite run_then, join_room_unfold by apply Hc. rewrite Hroom.
  rewrite Z.geb_leb, (proj2 (Z.leb_gt _ _)) by lia. rewrite Hfresh. cbv zeta.
  rewrite Hkey. fold name.
  set (player := Player.mk uuid code name None None None None now).
  assert (∀ rs ar, count_players (mkDB rs (<[uuid := player]> (players db)) ar) code
                   = count_players db code + 1) as Hcount.
  { intros rs ar. rewrite count_players_insert_fresh by done.
    by rewrite bool_decide_eq_true_2. }
  destruct (count_players db code + 1 =? Room.max_players room);
    (eexists; split; [done|]; split; [done|]; apply Hcount).
Qed.

Lemma join_room_response_witness :
  ∃ db',
    rooms_router.join_room "ROOM01" (PlayerCreate.mk "Bob") "p2" 2
      (serve_all (take 2 Sample.game) empty_db).2
    = (Ok (Body_PlayerRead (PlayerRead.mk "p2" "Bob" false None None None),
           [player_joined "ROOM01" (PlayerRead.mk "p2" "Bob" false None None None)]), db') ∧
    players db'
    = <["p2" := Sample.bob]> (players (serve_all (take 2 Sample.game) empty_db).2) ∧
    count_players db' "ROOM01"
    = count_players (serve_all (take 2 Sample.game) empty_db).2 "ROOM01" + 1.
Proof.
  refine (proj2 (join_room_response _ "ROOM01" (PlayerCreate.mk "Bob") "p2" 2
                   (Room.mk "ROOM01" 2 STATUS_WAITING) _ _ _ _) _).
  - by exists (take 2 Sample.game).
  - vm_compute. reflexivity.
  - vm_compute. reflexivity.
  - vm_compute. reflexivity.
  - vm_compute. reflexivity.
Defined.

(** X11. The [leave_room] handler for a player of the room, when
    requests are served one at a time: in a completed room it raises
    HTTP 400 and nothing changes; otherwise the player's row is deleted
    and the one event published is [player_left] with the status
    "waiting", which is the status of the room afterwards. *)
Theorem leave_room_event (db : DB) (code player_id : string) (player : Player.t) :
  serially_reachable db →
  players db !! player_id = Some player →
  Player.room_code player = code →
  (completed db code →
     rooms_router.leave_room code player_id db
     = (Raise (HTTPException HTTP_400_BAD_REQUEST "Game already completed"), db)) ∧
  (¬ completed db code →
     ∃ db',
       rooms_router.leave_room code player_id db
       = (Ok (Body_none, [player_left code player_id STATUS_WAITING]), db') ∧
       players db' = delete player_id (players db) ∧
       status_of db' code = Some STATUS_WAITING).
Proof.
  intros Hc%serially_reachable_consistent Hplayer Hcode.
  pose proof (player_keys _ Hc _ _ Hplayer) as Hid.
  destruct (player_rooms _ Hc _ _ Hplayer) as [room Hroom]. rewrite Hcode in Hroom.
  pose proof (room_keys _ Hc _ _ Hroom) as Hkey.
  pose proof (rooms_ok _ Hc _ _ Hroom) as [Hmax Hst]. rewrite Hkey in Hst.
  unfold rooms_router.leave_room. rewrite run_then, leave_room_unfold by apply Hc.
  rewrite Hplayer, bool_decide_eq_true_2 by done. cbn [negb]. rewrite Hroom, Hid. cbv zeta.
  pose proof (count_players_delete db player_id player code (rooms db) [] Hplayer) as Hcount.
  rewrite bool_decide_eq_true_2 in Hcount by done.
  unfold count_players in Hcount at 1. cbn [players] in Hcount.
  unfold status_of. split.
  - intros (r & Hr & Hdone). assert (r = room) as -> by congruence.
    by rewrite bool_decide_eq_true_2.
  - intros Hopen.
    assert (Room.status room ≠ STATUS_COMPLETED) as Hnot.
    { intros Hdone. apply Hopen. by exists room. }
    rewrite bool_decide_eq_false_2 by done.
    destruct (Room.status room) eqn:Hstatus; [| |done].
    + rewrite bool_decide_eq_false_2 by done. rewrite andb_false_r. cbn [run fst snd].
      rewrite Hid, Hstatus. eexists. split; [done|]. split; [done|].
      cbn [rooms]. rewrite Hroom. simpl. by rewrite Hstatus.
    + rewrite bool_decide_eq_true_2 by done.
      rewrite (proj2 (Z.ltb_lt _ _)) by lia. cbn [andb run fst snd].
      rewrite Hid. cbn [Room.with_status Room.status]. eexists. split; [done|].
      split; [done|]. cbn [rooms]. by rewrite Hkey, lookup_insert_eq.
Qed.

Lemma leave_room_event_witness :
  ∃ db',
    rooms_router.leave_room "ROOM01" "p1" (serve_all (take 3 Sample.game) empty_db).2
    = (Ok (Body_none, [player_left "ROOM01" "p1" STATUS_WAITING]), db') ∧
    players db' = delete "p1" (players (serve_all (take 3 Sample.game) empty_db).2) ∧
    status_of db' "ROOM01" = Some STATUS_WAITING.
Proof.
  refine (proj2 (leave_room_event _ "ROOM01" "p1" Sample.ann _ _ _) _).
  - by exists (take 3 Sample.game).
  - vm_compute. reflexivity.
  - reflexivity.
  - intros (r & Hr & Hdone). vm_compute in Hr. injection Hr as <-. discriminate.
Defined.

(** X12. The room detail of a known room, when requests are served one
    at a time: the response carries the room and the views of its
    players, each player once, in join order and no more than the room
    seats; a view is marked submitted exactly when it carries both
    allocations, carries no payout unless it is submitted, and in a
    completed room every view is submitted and carries a payout.  The
    request changes nothing and publishes nothing. *)
Theorem room_detail_view (db : DB) (code : string) (room : Room.t) :
  serially_reachable db →
  rooms db !! code = Some room →
  ∃ listed,
    rooms_router.room_detail code db
    = (Ok (Body_RoomDetail room (rooms_router._serialize_player <$> listed), []), db) ∧
    listed ≡ₚ room_players db code ∧
    Z.of_nat (length listed) ≤ Room.max_players room ∧
    StronglySorted joined_before listed ∧
    Forall (λ view,
              (PlayerRead.submitted view = true ↔ is_Some (PlayerRead.allocation_a view)) ∧
              (PlayerRead.submitted view = true ↔ is_Some (PlayerRead.allocation_b view)) ∧
              (PlayerRead.submitted view = false → PlayerRead.payout view = None) ∧
              (Room.status room = STATUS_COMPLETED →
                 PlayerRead.submitted view = true ∧ is_Some (PlayerRead.payout view)))
      (rooms_router._serialize_player <$> listed).
Proof.
  intros Hc%serially_reachable_consistent Hroom.
  pose proof (player_rowids _ Hc) as Hrowids.
  pose proof (room_keys _ Hc _ _ Hroom) as Hkey.
  exists (select_players code db). split; [by rewrite room_detail_unfold, Hroom|].
  split; [by apply select_players_perm|].
  split.
  { rewrite length_select_players by done.
    pose proof (room_ok_count _ _ (rooms_ok _ Hc _ _ Hroom)) as Hle. by rewrite Hkey in Hle. }
  split; [apply order_by_joined_at_sorted|].
  apply Forall_fmap, Forall_forall. intros p Hp.
  pose proof Hp as Hin. apply elem_of_select_players in Hin; [|done].
  apply elem_of_select_players, elem_of_room_players in Hp as [Hcode [k Hk]]; [|done].
  cbn [rooms_router._serialize_player PlayerRead.submitted PlayerRead.allocation_a
       PlayerRead.allocation_b PlayerRead.payout compose].
  pose proof (players_ok _ Hc _ _ Hk) as Hok. unfold player_ok in Hok.
  assert (Room.status room = STATUS_COMPLETED →
          has_submitted p = true ∧ is_Some (Player.payout p)) as Hdone.
  { intros Hstatus. pose proof (rooms_ok _ Hc _ _ Hroom) as [_ Hst].
    rewrite Hstatus, Hkey in Hst. by apply Hst. }
  unfold has_submitted in *. destruct (Player.submitted_at p).
  - destruct Hok as (a & b & -> & -> & _).
    split; [by split|]. split; [by split|]. split; [done | exact Hdone].
  - destruct Hok as (-> & -> & ->).
    split; [split; [done | by intros [? ?]]|].
    split; [split; [done | by intros [? ?]]|]. split; [done|].
    intros Hstatus. by destruct (Hdone Hstatus).
Qed.

Lemma room_detail_view_witness :
  ∃ listed,
    rooms_router.room_detail "ROOM01" (serve_all Sample.game empty_db).2
    = (Ok (Body_RoomDetail (Room.mk "ROOM01" 2 STATUS_COMPLETED)
             (rooms_router._serialize_player <$> listed), []),
       (serve_all Sample.game empty_db).2) ∧
    Z.of_nat (length listed) ≤ 2 ∧
    StronglySorted joined_before listed.
Proof.
  destruct (room_detail_view (serve_all Sample.game empty_db).2 "ROOM01"
              (Room.mk "ROOM01" 2 STATUS_COMPLETED))
    as (listed & Hview & _ & Hlen & Hsorted & _).
  - by exists Sample.game.
  - vm_compute. reflexivity.
  - exists listed. split; [exact Hview|]. split; [exact Hlen | exact Hsorted].
Defined.

Lemma valid_SubmitAllocation_bounds payload :
  rooms_router.valid_SubmitAllocation payload = true →
  0 ≤ SubmitAllocation.asset_a payload ≤ 100 ∧ 0 ≤ SubmitAllocation.asset_b payload ≤ 100.
Proof.
  unfold rooms_router.valid_SubmitAllocation. intros Hvalid.
  apply andb_true_iff in Hvalid as [Hvalid Hb2%Z.leb_le].
  apply andb_true_iff in Hvalid as [Hvalid Hb1%Z.leb_le].
  apply andb_true_iff in Hvalid as [Ha1%Z.leb_le Ha2%Z.leb_le]. lia.
Qed.

(** X13. The [submit_allocation] handler for a valid body whose parts
    sum to 100, from a player of the room who has not submitted, in a
    room of at least two, when requests are served one at a time: the
    response is the player, marked submitted, with the allocation of the
    body.  Either the room is not completed, the response has no payout
    and one [player_submitted] event is published; or the room is
    completed, [player_submitted] is followed by one [results_ready] with
    the result, and the payout of the response is the player's in that
    result. *)
Theorem submit_allocation_response (db : DB) (code : string) (payload : SubmitAllocation.t)
    (now : Z) (p : Player.t) :
  serially_reachable db →
  rooms_router.valid_SubmitAllocation payload = true →
  SubmitAllocation.asset_a payload + SubmitAllocation.asset_b payload = 100 →
  players db !! SubmitAllocation.player_id payload = Some p →
  Player.room_code p = code →
  Player.submitted_at p = None →
  2 ≤ count_players db code →
  ∃ data events db',
    rooms_router.submit_allocation code payload now db
    = (Ok (Body_PlayerRead data, events), db') ∧
    PlayerRead.id data = SubmitAllocation.player_id payload ∧
    PlayerRead.submitted data = true ∧
    PlayerRead.allocation_a data = Some (SubmitAllocation.asset_a payload) ∧
    PlayerRead.allocation_b data = Some (SubmitAllocation.asset_b payload) ∧
    ((PlayerRead.payout data = None ∧ events = [player_submitted code data] ∧
      ¬ completed db' code)
     ∨ (∃ result r,
          events = [player_submitted code data; results_ready code result] ∧
          completed db' code ∧
          r ∈ GameResult.players result ∧
          PlayerPayout.player_id r = SubmitAllocation.player_id payload ∧
          PlayerRead.payout data = Some (PlayerPayout.payout r))).
Proof.
  intros Hc%serially_reachable_consistent Hvalid Hsum Hp Hcode Hsub Hmany.
  pose proof (valid_SubmitAllocation_bounds _ Hvalid) as [Ha Hb].
  destruct (player_rooms _ Hc _ _ Hp) as [room Hroom]. rewrite Hcode in Hroom.
  pose proof (player_keys _ Hc _ _ Hp) as Hid.
  pose proof (room_keys _ Hc _ _ Hroom) as Hkey.
  pose proof (players_ok _ Hc _ _ Hp) as Hok. unfold player_ok in Hok. rewrite Hsub in Hok.
  destruct Hok as (_ & _ & Hpay).
  pose proof (submit_allocation_spec db code _ _ _ now p room
                Hc Ha Hb Hsum Hp Hcode Hsub Hroom Hmany) as [Hfin Hnot].
  pose proof (submit_update_consistent db code _ p _ _ now room
                Hc Ha Hb Hsum Hp Hcode Hsub Hroom) as (Hc1 & Hopen & _).
  cbv zeta in Hfin, Hnot, Hc1.
  set (db1 := mkDB (rooms db)
                (<[SubmitAllocation.player_id payload :=
                     Player.with_allocation p (SubmitAllocation.asset_a payload)
                       (SubmitAllocation.asset_b payload) now]> (players db))
                (arrivals db)) in *.
  unfold rooms_router.submit_allocation, rooms_router.validated. rewrite Hvalid, run_then.
  assert (Decision (count_players db1 code = Room.max_players room ∧ all_submitted db1 code))
    as [Hall|Hall].
  { apply and_dec; [apply _ | apply all_submitted_dec]. }
  - destruct (Hfin Hall) as (result & db2 & r & -> & Hr & Hrid & Hfinal).
    cbn [run fst snd]. eexists _, _, _. split; [done|].
    cbn [rooms_router._serialize_player PlayerRead.id PlayerRead.submitted
         PlayerRead.allocation_a PlayerRead.allocation_b PlayerRead.payout
         Player.with_payout Player.with_allocation Player.id Player.allocation_a
         Player.allocation_b Player.payout Player.submitted_at has_submitted].
    split; [done|]. split; [done|]. split; [done|]. split; [done|].
    right. exists result, r. split; [done|]. split; [|done].
    destruct Hall as [Hfull Hall].
    by destruct (finalized_consistent db1 db2 code room result Hc1 Hroom Hfull Hall Hfinal)
      as (_ & Hdone & _).
  - rewrite (Hnot Hall). cbn [run fst snd]. eexists _, _, _. split; [done|].
    cbn [rooms_router._serialize_player PlayerRead.id PlayerRead.submitted
         PlayerRead.allocation_a PlayerRead.allocation_b PlayerRead.payout
         Player.with_payout Player.with_allocation Player.id Player.allocation_a
         Player.allocation_b Player.payout Player.submitted_at has_submitted].
    split; [done|]. split; [done|]. split; [done|]. split; [done|].
    left. split; [done|]. split; [done|].
    intros (r & Hr & Hst). apply Hopen. by exists r.
Qed.

Lemma submit_allocation_response_witness :
  ∃ data events db',
    rooms_router.submit_allocation "ROOM01" (SubmitAllocation.mk "p2" 10 90) 4
      (serve_all (take 4 Sample.game) empty_db).2
    = (Ok (Body_PlayerRead data, events), db') ∧
    PlayerRead.id data = "p2" ∧
    PlayerRead.submitted data = true ∧
    PlayerRead.allocation_a data = Some 10 ∧
    PlayerRead.allocation_b data = Some 90.
Proof.
  destruct (submit_allocation_response (serve_all (take 4 Sample.game) empty_db).2 "ROOM01"
              (SubmitAllocation.mk "p2" 10 90) 4 Sample.bob)
    as (data & events & db' & Hrun & Hid & Hsub & Ha & Hb & _).
  - by exists (take 4 Sample.game).
  - reflexivity.
  - reflexivity.
  - vm_compute. reflexivity.
  - reflexivity.
  - reflexivity.
  - vm_compute. discriminate.
  - exists data, events, db'. repeat split; assumption.
Defined.

(** X14. What every store holds that is reached with requests served
    one at a time.  A room is stored under its code, seats 2 to 4 and has
    no more players than seats, fewer while it is Waiting and as many once
    it is Ready or Completed.  A player is stored under its id, in a room
    that exists; its allocations are set exactly when it has submitted,
    and then lie in 0 to 100 and sum to 100; it has no payout before it
    has submitted. *)
Theorem serial_store_invariants (db : DB) :
  serially_reachable db →
  (∀ c r, rooms db !! c = Some r →
     Room.code r = c ∧ 2 ≤ Room.max_players r ≤ 4 ∧
     count_players db c ≤ Room.max_players r ∧
     (Room.status r = STATUS_WAITING ↔ count_players db c < Room.max_players r)) ∧
  (∀ k p, players db !! k = Some p →
     Player.id p = k ∧ k ∈ arrivals db ∧
     is_Some (rooms db !! Player.room_code p) ∧
     (is_Some (Player.allocation_a p) ↔ is_Some (Player.submitted_at p)) ∧
     (is_Some (Player.allocation_b p) ↔ is_Some (Player.submitted_at p)) ∧
     (∀ a b, Player.allocation_a p = Some a → Player.allocation_b p = Some b →
             0 ≤ a ≤ 100 ∧ 0 ≤ b ≤ 100 ∧ a + b = 100) ∧
     (Player.submitted_at p = None → Player.payout p = None)).
Proof.
  intros Hc%serially_reachable_consistent. split.
  - intros c r Hroom. pose proof (room_keys _ Hc _ _ Hroom) as Hkey.
    pose proof (rooms_ok _ Hc _ _ Hroom) as [Hmax Hst]. rewrite Hkey in Hst.
    split; [done|]. split; [done|].
    destruct (Room.status r); (split; [|split]); try lia; try done; try (destruct Hst; lia).
  - intros k p Hp. split; [by eapply player_keys|].
    split; [apply (player_rowids _ Hc); by eexists|].
    split; [by eapply player_rooms|].
    pose proof (players_ok _ Hc _ _ Hp) as Hok. unfold player_ok in Hok.
    destruct (Player.submitted_at p) as [t|].
    + destruct Hok as (a & b & -> & -> & Ha & Hb & Hsum).
      split; [done|]. split; [done|]. split; [|done]. by intros ? ? [= <-] [= <-].
    + destruct Hok as (-> & -> & ->).
      split; [split; by intros [? ?]|]. split; [split; by intros [? ?]|]. done.
Qed.

Lemma serial_store_invariants_witness :
  Room.code (Room.mk "ROOM01" 2 STATUS_COMPLETED) = "ROOM01" ∧
  2 ≤ Room.max_players (Room.mk "ROOM01" 2 STATUS_COMPLETED) ≤ 4 ∧
  count_players (serve_all Sample.game empty_db).2 "ROOM01" ≤ 2.
Proof.
  destruct (serial_store_invariants (serve_all Sample.game empty_db).2) as [Hrooms _].
  - by exists Sample.game.
  - destruct (Hrooms "ROOM01" (Room.mk "ROOM01" 2 STATUS_COMPLETED))
      as (Hcode & Hmax & Hcount & _); [vm_compute; reflexivity|].
    split; [exact Hcode|]. split; [exact Hmax | exact Hcount].
Defined.

End MoreRouter.
